(** * ghcc: the repository store and the log analysis script

    A shallow embedding of [ghcc/database.py] (the [Database] class over a
    MongoDB collection) and of [analyze_fails.py] (log parsing, change
    detection, sampling and the Makefile report), with the properties of
    the specification stated and proved over it.

    Conventions of the embedding:
    - a Python [int] is a [Z]; [len] is [Z.of_nat] of the list length;
    - a Python [str] is a [string] of 8-bit characters; the Unicode classes
      of [\d] and [\w] beyond ASCII are outside the model;
    - a raised exception is the [Raise] case of [result];
    - the MongoDB collection is the list of its documents in insertion
      order, every document carrying its [_id];
    - a Python [dict] is an association list in insertion order. *)

From Stdlib Require Import String Ascii List ZArith Bool Arith Lia ListSet.
From Stdlib Require Import DecimalString.
Import ListNotations.

Open Scope string_scope.
Open Scope list_scope.

(* ================================================================= *)
(** ** Python values, exceptions and built-ins *)

Module Py.

Inductive exception : Type :=
| ValueError (msg : string)
| TypeError (msg : string)
| KeyError (key : string)
| IndexError (msg : string)
| StopIteration
| AssertionError
| OverflowError (msg : string).

Inductive result (A : Type) : Type :=
| Ok (a : A)
| Raise (e : exception).

Arguments Ok {A} a.
Arguments Raise {A} e.

Definition bind {A B} (r : result A) (k : A -> result B) : result B :=
  match r with
  | Ok a => k a
  | Raise e => Raise e
  end.

(** [str(n)] for an [int]. *)
Definition str (n : Z) : string := NilZero.string_of_int (Z.to_int n).

(** [len(xs)]. *)
Definition len {A} (xs : list A) : Z := Z.of_nat (length xs).

(** [sum(xs)]. *)
Definition sum (xs : list Z) : Z := fold_left Z.add xs 0%Z.

(** [x in xs] for a list of integers. *)
Definition int_in (x : Z) (xs : list Z) : bool := existsb (Z.eqb x) xs.

(** [xs[-1]]: the last element, [IndexError] on the empty list. *)
Fixpoint last {A} (xs : list A) : result A :=
  match xs with
  | [] => Raise (IndexError "list index out of range")
  | [x] => Ok x
  | _ :: xs' => last xs'
  end.

(** [xs[i]] for a non-negative index. *)
Definition index {A} (xs : list A) (i : nat) : result A :=
  match nth_error xs i with
  | Some x => Ok x
  | None => Raise (IndexError "list index out of range")
  end.

(** [s.split(sep)] for a separator of one character. *)
Fixpoint split (sep : ascii) (s : string) : list string :=
  match s with
  | EmptyString => [EmptyString]
  | String c s' =>
      if Ascii.eqb c sep then EmptyString :: split sep s'
      else match split sep s' with
           | [] => [String c EmptyString]
           | w :: ws => String c w :: ws
           end
  end.

(** [sep.join(xs)]. *)
Definition join (sep : string) (xs : list string) : string :=
  String.concat sep xs.

(** [a < b] on strings: lexicographic on code points. *)
Definition str_lt (a b : string) : bool := String.ltb a b.

(** [(s1, v1) < (s2, v2)] on [(str, int)] tuples: the first components
    that differ decide, the second components otherwise. *)
Definition tuple_lt (a b : string * Z) : bool :=
  if String.eqb (fst a) (fst b) then
    if Z.eqb (snd a) (snd b) then false else Z.ltb (snd a) (snd b)
  else str_lt (fst a) (fst b).

End Py.

Import Py.

Notation "x <- c1 ;; c2" := (Py.bind c1 (fun x => c2))
  (at level 61, c1 at next level, right associativity).
Notation "' pat <- c1 ;; c2" :=
  (Py.bind c1 (fun x => match x with pat => c2 end))
  (at level 61, pat pattern, c1 at next level, right associativity).

(* ================================================================= *)
(** ** [ghcc/database.py]: records *)

Module Makefile.
(** [class RepoMakefileEntry(TypedDict)]. *)
Record RepoMakefileEntry : Type := {
  directory : string;
  successful : bool;
  num_binaries : Z;
  binaries : list string;
  sha256 : list string
}.
End Makefile.

Definition ObjectId := nat.

(** A stored document: the fields [add_repo] writes (the [RepoEntry] of
    the source plus [repo_size] and [num_binaries]) and MongoDB's [_id]. *)
Record RepoEntry : Type := {
  _id : ObjectId;
  repo_owner : string;
  repo_name : string;
  clone_successful : bool;
  repo_size : Z;
  compiled : bool;
  num_makefiles : Z;
  num_binaries : Z;
  makefiles : list Makefile.RepoMakefileEntry
}.

(* ================================================================= *)
(** ** The MongoDB collection behind [Database] *)

Module Mongo.

(** Documents in insertion order. *)
Definition Collection : Type := list RepoEntry.

(** [collection.find_one(filter)]: the first matching document. *)
Definition find_one (flt : RepoEntry -> bool) (c : Collection)
  : option RepoEntry :=
  find flt c.

(** The [_id] MongoDB gives a new document: one no document carries. *)
Definition fresh_id (c : Collection) : ObjectId :=
  S (list_max (map _id c)).

(** An [int] BSON can hold: a signed integer of 8 bytes. *)
Definition fits_int64 (n : Z) : bool :=
  (- 2 ^ 63 <=? n)%Z && (n <=? 2 ^ 63 - 1)%Z.

(** Every [int] of the document can be encoded. *)
Definition encodable (d : RepoEntry) : bool :=
  fits_int64 (repo_size d)
  && fits_int64 (num_makefiles d)
  && fits_int64 (num_binaries d)
  && forallb (fun m => fits_int64 (Makefile.num_binaries m)) (makefiles d).

(** [collection.insert_one(record)]; the record comes without [_id].
    Encoding an [int] beyond 8 bytes raises [OverflowError], and nothing
    is stored. *)
Definition insert_one (record : ObjectId -> RepoEntry) (c : Collection)
  : result Collection :=
  if encodable (record (fresh_id c))
  then Ok (c ++ [record (fresh_id c)])
  else Raise (OverflowError "MongoDB can only handle up to 8-byte ints").

(** [collection.update_one(filter, {"$set": ...})]: the first matching
    document is rewritten; the result carries [matched_count]. The
    update document of [update_makefile] is taken to encode: its two
    counts are lengths, and the [num_binaries] of the entries handed over
    are not checked against the 8 bytes. *)
Fixpoint update_one (flt : RepoEntry -> bool) (set : RepoEntry -> RepoEntry)
         (c : Collection) : Collection * Z :=
  match c with
  | [] => ([], 0%Z)
  | d :: c' =>
      if flt d then (set d :: c', 1%Z)
      else let (c'', matched) := update_one flt set c' in (d :: c'', matched)
  end.

(** ["$<field_name>"] under [$sum]: a numeric field's value; a missing or
    non-numeric field adds nothing. *)
Definition numeric_field (field_name : string) (d : RepoEntry) : Z :=
  if field_name =? "num_makefiles" then num_makefiles d
  else if field_name =? "num_binaries" then num_binaries d
  else if field_name =? "repo_size" then repo_size d
  else 0%Z.

(** One output document of [$group]: its [_id] and its [total]. *)
Record Group : Type := { group_id : bool; total : Z }.

Fixpoint group_add (k : bool) (v : Z) (gs : list Group) : list Group :=
  match gs with
  | [] => [ {| group_id := k; total := v |} ]
  | g :: gs' =>
      if Bool.eqb k (group_id g)
      then {| group_id := group_id g; total := (total g + v)%Z |} :: gs'
      else g :: group_add k v gs'
  end.

(** [{"$group": {"_id": "$compiled", "total": {"$sum": "$field"}}}]. *)
Definition group_stage (field_name : string) (docs : list RepoEntry)
  : list Group :=
  fold_left (fun gs d => group_add (compiled d) (numeric_field field_name d) gs)
            docs [].

(** [{"$match": {"compiled": True}}]. *)
Definition match_stage (docs : list RepoEntry) : list RepoEntry :=
  filter compiled docs.

(** [collection.aggregate([match, group])]: the cursor's documents. *)
Definition aggregate (field_name : string) (c : Collection) : list Group :=
  group_stage field_name (match_stage c).

End Mongo.

(* ================================================================= *)
(** ** [class Database]: methods as computations over the collection *)

(** A method reads and writes [self.collection] and may raise: the
    collection is threaded through, and is returned also when the method
    raises (what was written before the exception stays written). *)
Definition DB (A : Type) : Type :=
  Mongo.Collection -> result A * Mongo.Collection.

Module DBMonad.
Definition ret {A} (a : A) : DB A := fun c => (Ok a, c).
Definition raise {A} (e : exception) : DB A := fun c => (Raise e, c).
Definition bind {A B} (m : DB A) (k : A -> DB B) : DB B :=
  fun c => match m c with
           | (Ok a, c') => k a c'
           | (Raise e, c') => (Raise e, c')
           end.
(** [assert b]. *)
Definition assert (b : bool) : DB unit :=
  if b then ret tt else raise AssertionError.
End DBMonad.

Declare Scope db_scope.
Delimit Scope db_scope with db.
Bind Scope db_scope with DB.
Notation "x <- c1 ;; c2" := (DBMonad.bind c1 (fun x => c2))
  (at level 61, c1 at next level, right associativity) : db_scope.

Module Database.

Import DBMonad.

Definition find_one (flt : RepoEntry -> bool) : DB (option RepoEntry) :=
  fun c => (Ok (Mongo.find_one flt c), c).

Definition insert_one (record : ObjectId -> RepoEntry) : DB unit :=
  fun c => match Mongo.insert_one record c with
           | Ok c' => (Ok tt, c')
           | Raise e => (Raise e, c)
           end.

Definition update_one (flt : RepoEntry -> bool) (set : RepoEntry -> RepoEntry)
  : DB Z :=
  fun c => let (c', matched) := Mongo.update_one flt set c in (Ok matched, c').

(** The filter [{"repo_owner": owner, "repo_name": name}]. *)
Definition by_key (owner name : string) (d : RepoEntry) : bool :=
  (repo_owner d =? owner) && (repo_name d =? name).

(** The filter [{"_id": id}]. *)
Definition by_id (id : ObjectId) (d : RepoEntry) : bool :=
  Nat.eqb (_id d) id.

(** [Database.get]. *)
Definition get (owner name : string) : DB (option RepoEntry) :=
  find_one (by_key owner name).

(** The record [add_repo] inserts. *)
Definition new_record (owner name : string) (clone_ok : bool) (size : Z)
           (id : ObjectId) : RepoEntry :=
  {| _id := id;
     repo_owner := owner;
     repo_name := name;
     clone_successful := clone_ok;
     repo_size := size;
     compiled := false;
     num_makefiles := 0;
     num_binaries := 0;
     makefiles := [] |}.

(** [Database.add_repo]. *)
Definition add_repo (owner name : string) (clone_ok : bool) (size : Z)
  : DB unit :=
  (entry <- get owner name ;;
   match entry with
   | None => insert_one (new_record owner name clone_ok size)
   | Some _ => ret tt
   end)%db.

(** The [$set] document of [update_makefile]. *)
Definition set_makefiles (mks : list Makefile.RepoMakefileEntry)
           (d : RepoEntry) : RepoEntry :=
  {| _id := _id d;
     repo_owner := repo_owner d;
     repo_name := repo_name d;
     clone_successful := clone_successful d;
     repo_size := repo_size d;
     compiled := true;
     num_makefiles := len mks;
     num_binaries := sum (map (fun m => len (Makefile.binaries m)) mks);
     makefiles := mks |}.

Definition not_found_msg (owner name : string) : string :=
  ("Specified repository " ++ owner ++ "/" ++ name ++ " does not exist")%string.

Definition mismatch_msg (stored given : Z) : string :=
  ("Number of makefiles stored in entry (" ++ str stored
     ++ ") does not match provided list (" ++ str given ++ ")")%string.

(** [Database.update_makefile]. *)
Definition update_makefile (owner name : string)
           (mks : list Makefile.RepoMakefileEntry)
           (ignore_length_mismatch : bool) : DB unit :=
  (entry <- get owner name ;;
   match entry with
   | None => raise (ValueError (not_found_msg owner name))
   | Some entry =>
       if negb ignore_length_mismatch
          && negb (int_in (len (makefiles entry)) [0%Z; len mks])
       then raise (ValueError (mismatch_msg (len (makefiles entry)) (len mks)))
       else
         matched <- update_one (by_id (_id entry)) (set_makefiles mks) ;;
         assert (matched =? 1)%Z
   end)%db.

(** [Database._aggregate_sum]: [next(cursor)["total"]]. *)
Definition _aggregate_sum (field_name : string) : DB Z :=
  fun c => match Mongo.aggregate field_name c with
           | [] => (Raise StopIteration, c)
           | g :: _ => (Ok (Mongo.total g), c)
           end.

Definition count_makefiles : DB Z := _aggregate_sum "num_makefiles".

Definition count_binaries : DB Z := _aggregate_sum "num_binaries".

(** The store holds a document for the key [(owner, name)]. *)
Definition has_entry (c : Mongo.Collection) (owner name : string) : Prop :=
  exists d, In d c /\ repo_owner d = owner /\ repo_name d = name.

(** The states of the store a run can reach: empty at first, then any
    [add_repo] and any [update_makefile], raising or not. *)
Inductive reachable : Mongo.Collection -> Prop :=
| reach_empty : reachable []
| reach_add c owner name clone_ok size :
    reachable c ->
    reachable (snd (add_repo owner name clone_ok size c))
| reach_update c owner name mks ign :
    reachable c ->
    reachable (snd (update_makefile owner name mks ign c)).

End Database.

(* ================================================================= *)
(** ** A Python [dict] with string keys: insertion-ordered *)

Module Dict.

Definition t (V : Type) : Type := list (string * V).

Section Ops.
Context {V : Type}.

(** [d.get(k)]. *)
Fixpoint get (k : string) (d : t V) : option V :=
  match d with
  | [] => None
  | (k', v) :: d' => if k' =? k then Some v else get k d'
  end.

(** [d[k] = v]: an existing key keeps its place, a new one goes last. *)
Fixpoint set (k : string) (v : V) (d : t V) : t V :=
  match d with
  | [] => [(k, v)]
  | (k', v') :: d' =>
      if k' =? k then (k, v) :: d' else (k', v') :: set k v d'
  end.

(** [d[k]]. *)
Definition getitem (k : string) (d : t V) : result V :=
  match get k d with
  | Some v => Ok v
  | None => Raise (KeyError k)
  end.

Definition keys (d : t V) : list string := map fst d.
Definition values (d : t V) : list V := map snd d.
Definition items (d : t V) : list (string * V) := d.

(** What every [dict] satisfies: no key twice. *)
Definition wf (d : t V) : Prop := NoDup (keys d).

(** [d[k]] on a [defaultdict(factory)]: a missing key is first set to
    [factory()]. The value and the dictionary after the access. *)
Definition default_getitem (factory : V) (k : string) (d : t V)
  : V * t V :=
  match get k d with
  | Some v => (v, d)
  | None => (factory, set k factory d)
  end.
End Ops.

End Dict.

(* ================================================================= *)
(** ** [analyze_fails.py]: the log line pattern *)

Module Re.

Definition option_bind {A B} (o : option A) (k : A -> option B) : option B :=
  match o with
  | Some a => k a
  | None => None
  end.

Definition between (lo hi c : ascii) : bool :=
  (Ascii.leb lo c && Ascii.leb c hi)%char.

(** [\d] and [[0-9]]. *)
Definition digit (c : ascii) : bool := between "0" "9" c.

(** [\w]. *)
Definition word (c : ascii) : bool :=
  digit c || between "a" "z" c || between "A" "Z" c || Ascii.eqb c "_".

(** [[0-9-]]. *)
Definition date_char (c : ascii) : bool := digit c || Ascii.eqb c "-".

(** [[0-9:]]. *)
Definition time_char (c : ascii) : bool := digit c || Ascii.eqb c ":".

(** [cls{n}]: exactly [n] characters of the class; the text matched and
    the rest. *)
Fixpoint exactly (cls : ascii -> bool) (n : nat) (s : string)
  : option (string * string) :=
  match n with
  | O => Some (EmptyString, s)
  | S n' =>
      match s with
      | String c s' =>
          if cls c then
            option_bind (exactly cls n' s')
                        (fun '(m, rest) => Some (String c m, rest))
          else None
      | EmptyString => None
      end
  end.

(** The longest prefix in the class, and the rest. *)
Fixpoint span (cls : ascii -> bool) (s : string) : string * string :=
  match s with
  | String c s' =>
      if cls c then let (m, rest) := span cls s' in (String c m, rest)
      else (EmptyString, s)
  | EmptyString => (EmptyString, EmptyString)
  end.

(** [cls+], greedy. Every use in the pattern is followed by a literal
    character outside the class, so the longest run is the only one a
    backtracking matcher can accept. *)
Definition one_or_more (cls : ascii -> bool) (s : string)
  : option (string * string) :=
  match span cls s with
  | (EmptyString, _) => None
  | (m, rest) => Some (m, rest)
  end.

(** A literal piece of the pattern: the rest of the text after it. *)
Fixpoint literal (p s : string) : option string :=
  match p with
  | EmptyString => Some s
  | String c p' =>
      match s with
      | String c' s' => if Ascii.eqb c c' then literal p' s' else None
      | EmptyString => None
      end
  end.

(** The named groups of a match. *)
Record Match : Type := {
  date_time : string;
  n_success : string;
  n_partial : string;
  n_total : string;
  repo_owner : string;
  repo_name : string;
  n_binaries : string
}.

(** [match.group(name)]. *)
Definition group (m : Match) (name : string) : result string :=
  if name =? "date_time" then Ok (date_time m)
  else if name =? "n_success" then Ok (n_success m)
  else if name =? "n_partial" then Ok (n_partial m)
  else if name =? "n_total" then Ok (n_total m)
  else if name =? "repo_owner" then Ok (repo_owner m)
  else if name =? "repo_name" then Ok (repo_name m)
  else if name =? "n_binaries" then Ok (n_binaries m)
  else Raise (IndexError "no such group").

End Re.

Declare Scope re_scope.
Delimit Scope re_scope with re.
Notation "x <- c1 ;; c2" := (Re.option_bind c1 (fun x => c2))
  (at level 61, c1 at next level, right associativity) : re_scope.
Notation "' pat <- c1 ;; c2" :=
  (Re.option_bind c1 (fun x => match x with pat => c2 end))
  (at level 61, pat pattern, c1 at next level, right associativity) : re_scope.

Module Regex.

Import Re.

(** The pattern of [analyze_logs], matched at the start of [s]:
<<
(?P<date_time>[0-9-]{10} [0-9:]{8}),\d{3} \w+:
(?P<n_success>\d+) \((?P<n_partial>\d+)\) out of (?P<n_total>\d+) Makefile\(s\) in
(?P<repo_owner>\w+)/(?P<repo_name>\w+) compiled \(partially\),
yielding (?P<n_binaries>\d+) binaries
>>
    The group [date_time] closes before the comma: the milliseconds are
    matched and not captured. *)
Definition match_here (s : string) : option Match :=
  ('(date, s) <- exactly date_char 10 s ;;
   s <- literal " " s ;;
   '(time, s) <- exactly time_char 8 s ;;
   s <- literal "," s ;;
   '(_, s) <- exactly digit 3 s ;;
   s <- literal " " s ;;
   '(_, s) <- one_or_more word s ;;
   s <- literal ": " s ;;
   '(success, s) <- one_or_more digit s ;;
   s <- literal " (" s ;;
   '(partial, s) <- one_or_more digit s ;;
   s <- literal ") out of " s ;;
   '(total, s) <- one_or_more digit s ;;
   s <- literal " Makefile(s) in " s ;;
   '(owner, s) <- one_or_more word s ;;
   s <- literal "/" s ;;
   '(name, s) <- one_or_more word s ;;
   s <- literal " compiled (partially), yielding " s ;;
   '(binaries, s) <- one_or_more digit s ;;
   _ <- literal " binaries" s ;;
   Some {| date_time := (date ++ " " ++ time)%string;
           n_success := success;
           n_partial := partial;
           n_total := total;
           repo_owner := owner;
           repo_name := name;
           n_binaries := binaries |})%re.

(** [regex.search(line)]: the match at the leftmost position that has
    one, [None] when no position has. *)
Fixpoint search (line : string) : option Match :=
  match match_here line with
  | Some m => Some m
  | None =>
      match line with
      | String _ line' => search line'
      | EmptyString => None
      end
  end.

End Regex.

(** [int(s)] on a string of decimal digits; signs, blanks and underscores,
    which the pattern never hands over, are not modelled and raise here.
    A string of more than [sys.get_int_max_str_digits()] digits, 4300
    unless set otherwise, raises [ValueError]. *)
Definition int_max_str_digits : Z := 4300.

Definition digit_value (c : ascii) : option Z :=
  if Re.digit c then Some (Z.of_nat (nat_of_ascii c) - 48)%Z else None.

Fixpoint int_from (acc : Z) (s : string) : result Z :=
  match s with
  | EmptyString => Ok acc
  | String c s' =>
      match digit_value c with
      | Some d => int_from (10 * acc + d)%Z s'
      | None => Raise (ValueError "invalid literal for int() with base 10")
      end
  end.

Definition int (s : string) : result Z :=
  match s with
  | EmptyString => Raise (ValueError "invalid literal for int() with base 10")
  | _ =>
      if (Z.of_nat (String.length s) >? int_max_str_digits)%Z
      then Raise (ValueError
                    ("Exceeds the limit (4300 digits) for integer string conversion"
                       ++ ": value has " ++ str (Z.of_nat (String.length s))
                       ++ " digits; use sys.set_int_max_str_digits()"
                       ++ " to increase the limit"))
      else int_from 0%Z s
  end.

(* ================================================================= *)
(** ** [analyze_fails.py]: series, change detection, log parsing *)

(** [List[Tuple[str, int]]]: the samples of one tag, [(date_time, value)]. *)
Definition Series : Type := list (string * Z).

(** [InfoDict = Dict[str, List[Tuple[str, int]]]]: tag to samples. *)
Definition InfoDict : Type := Dict.t Series.

Definition TAGS : list string := ["n_partial"; "n_binaries"; "n_total"].

(** [for x in xs: s = body(s, x)], stopping at the first exception. *)
Fixpoint for_each {A S} (body : S -> A -> result S) (xs : list A) (s : S)
  : result S :=
  match xs with
  | [] => Ok s
  | x :: xs' => s' <- body s x ;; for_each body xs' s'
  end.

(** [not xs or all(x == xs[0] for x in xs[1:])]. *)
Definition all_equal (xs : list Z) : bool :=
  match xs with
  | [] => true
  | x0 :: _ => forallb (fun x => Z.eqb x x0) (tl xs)
  end.

(** [any(not all_equal([v for _, v in vals]) for vals in info.values())]. *)
Definition has_change (info : InfoDict) : bool :=
  existsb (fun vals => negb (all_equal (map snd vals))) (Dict.values info).

Definition changed_repos (repo_info : Dict.t InfoDict) : Dict.t InfoDict :=
  fold_left
    (fun changed '(name, info) =>
       if has_change info then Dict.set name info changed else changed)
    (Dict.items repo_info) [].

(** [{tag: [] for tag in TAGS}], the factory of the [defaultdict]. *)
Definition default_info : InfoDict :=
  fold_left (fun d tag => Dict.set tag [] d) TAGS [].

(** The body of [for tag in TAGS]:
    [repo_info[repo_full_name][tag].append((date_time, int(match.group(tag))))]. *)
Definition record_tag (m : Re.Match) (repo_full_name date_time : string)
           (repo_info : Dict.t InfoDict) (tag : string)
  : result (Dict.t InfoDict) :=
  text <- Re.group m tag ;;
  value <- int text ;;
  let (info, repo_info) := Dict.default_getitem default_info repo_full_name repo_info in
  series <- Dict.getitem tag info ;;
  Ok (Dict.set repo_full_name
               (Dict.set tag (series ++ [(date_time, value)]) info)
               repo_info).

(** The body of [for idx, line in enumerate(logs)]. *)
Definition record_line (repo_info : Dict.t InfoDict) (line : string)
  : result (Dict.t InfoDict) :=
  match Regex.search line with
  | Some m =>
      owner <- Re.group m "repo_owner" ;;
      name <- Re.group m "repo_name" ;;
      let repo_full_name := (owner ++ "/" ++ name)%string in
      date_time <- Re.group m "date_time" ;;
      for_each (record_tag m repo_full_name date_time) TAGS repo_info
  | None => Ok repo_info
  end.

Definition newline : ascii := "010"%char.

(** [analyze_logs], from the text of the log file. *)
Definition analyze_logs (text : string) : result (Dict.t InfoDict) :=
  let logs := split newline text in
  for_each record_line logs [].

(* ================================================================= *)
(** ** [analyze_fails.py]: [main], phase by phase *)

(** [os.path.join(a, b)] on POSIX paths. *)
Definition os_path_join (a b : string) : string :=
  match b with
  | String "/" _ => b
  | _ =>
      if (a =? "") || (String.eqb (substring (String.length a - 1) 1 a) "/")
      then (a ++ b)%string
      else (a ++ "/" ++ b)%string
  end.

(** [a, b = xs]. *)
Definition unpack2 (xs : list string) : result (string * string) :=
  match xs with
  | [a; b] => Ok (a, b)
  | [] | [_] => Raise (ValueError "not enough values to unpack (expected 2)")
  | _ => Raise (ValueError "too many values to unpack (expected 2)")
  end.

(** A row handed to [writer.writerow]: [[repo, directory, status]]. *)
Definition Row : Type := (string * string * string)%type.

Section Main.

(** [np.random.choice(a, size, replace=False)], numpy's, with the
    generator's state at the call: the indices drawn, or its
    [ValueError]. *)
Variable np_random_choice : nat -> nat -> result (list nat).

(** [ghcc.find_makefiles(path)], outside this file: the Makefile
    directories found under [path]. *)
Variable find_makefiles : string -> list string.

(** The condition of the comprehension:
    [info["n_partial"][-1] < info["n_total"][-1]], on the tuples. *)
Definition has_fail (info : InfoDict) : result bool :=
  partial <- Dict.getitem "n_partial" info ;;
  latest_partial <- last partial ;;
  total <- Dict.getitem "n_total" info ;;
  latest_total <- last total ;;
  Ok (tuple_lt latest_partial latest_total).

(** [[repo for repo, info in repo_info.items() if ...]]. *)
Definition repos_with_fail (repo_info : Dict.t InfoDict)
  : result (list string) :=
  for_each
    (fun acc '(repo, info) =>
       fail <- has_fail info ;;
       Ok (if fail : bool then acc ++ [repo] else acc))
    (Dict.items repo_info) [].

(** [repos_with_fail[x]], appended to the list being built. *)
Definition pick (population : list string) (acc : list string) (x : nat)
  : result (list string) :=
  repo <- index population x ;; Ok (acc ++ [repo]).

(** [samples = np.random.choice(len(repos_with_fail), 100, replace=False)]
    and [_repo_samples = [repos_with_fail[x] for x in samples]]. *)
Definition _repo_samples (population : list string) : result (list string) :=
  samples <- np_random_choice (length population) 100 ;;
  for_each (pick population) samples [].

(** The body of [for repo in _repo_samples]: the sample is kept when its
    latest [n_total] value is at most 50, and reported otherwise. A key
    the [defaultdict] would create here has empty series, so the loop
    raises at once and the created entry is never read. *)
Definition keep_or_skip (repo_info : Dict.t InfoDict)
           (state : list string * list string) (repo : string)
  : result (list string * list string) :=
  let (kept, printed) := state in
  let (info, _) := Dict.default_getitem default_info repo repo_info in
  total <- Dict.getitem "n_total" info ;;
  '(_, val) <- last total ;;
  Ok (if (val <=? 50)%Z
      then (kept ++ [repo], printed)
      else (kept,
            printed ++ [(repo ++ " contains " ++ str val
                           ++ " Makefiles, skipping")%string])).

(** The loop that removes repositories with more than 50 Makefiles: the
    samples kept and the lines printed. *)
Definition repo_samples (repo_info : Dict.t InfoDict) (drawn : list string)
  : result (list string * list string) :=
  for_each (keep_or_skip repo_info) drawn ([], []).

(** Log to final sample: the three steps above in the order of [main]. *)
Definition sampler (text : string) : result (list string * list string) :=
  repo_info <- analyze_logs text ;;
  population <- repos_with_fail repo_info ;;
  drawn <- _repo_samples population ;;
  repo_samples repo_info drawn.

(** The stored directory, as [main] rewrites it:
    ["/".join([owner, name] + directory.split("/")[4:])]. *)
Definition stored_directory (owner name directory : string) : string :=
  join "/" ([owner; name] ++ skipn 4 (split "/" directory)).

(** The discovered directory, as [main] rewrites it:
    ["/".join(makefile.split("/")[1:])]. *)
Definition found_directory (makefile : string) : string :=
  join "/" (skipn 1 (split "/" makefile)).

(** [success_makefiles] after the loop over [entry['makefiles']]. *)
Definition success_makefiles (owner name : string) (entry : RepoEntry)
  : set string :=
  fold_left
    (fun acc makefile_info =>
       set_add string_dec
               (stored_directory owner name (Makefile.directory makefile_info))
               acc)
    (makefiles entry) (empty_set string).

(** The body of [for repo in tqdm(repo_samples, desc="Writing CSV")]:
    the rows it writes, and prints, for one repository. *)
Definition report_repo (repo : string) : DB (list Row) :=
  fun c =>
    let found := find_makefiles (os_path_join "test_compile" repo) in
    match unpack2 (split "/" repo) with
    | Raise e => (Raise e, c)
    | Ok (owner, name) =>
        match Database.get owner name c with
        | (Raise e, c') => (Raise e, c')
        | (Ok None, c') =>
            (Raise (TypeError "'NoneType' object is not subscriptable"), c')
        | (Ok (Some entry), c') =>
            let success := success_makefiles owner name entry in
            (Ok (map (fun makefile =>
                        let directory := found_directory makefile in
                        let status :=
                          if set_mem string_dec directory success
                          then "" else "Failed" in
                        (repo, directory, status))
                     found),
             c')
        end
    end.

End Main.

(* ================================================================= *)
(** ** Notions the statements below are written with *)

Module Notions.

(** Every character of [s] is in the class. *)
Fixpoint all_in (cls : ascii -> bool) (s : string) : bool :=
  match s with
  | EmptyString => true
  | String c s' => cls c && all_in cls s'
  end.

(** A non-empty string of decimal digits: what [\d+] captures. *)
Definition digits (s : string) : Prop :=
  s <> EmptyString /\ all_in Re.digit s = true.

(** A count that [int] converts: of no more digits than the limit. *)
Definition count_short (s : string) : Prop :=
  (Z.of_nat (String.length s) <= int_max_str_digits)%Z.

(** No line of the text reports a tracked count beyond the limit of
    [int]. *)
Definition counts_within_limit (text : string) : Prop :=
  forall line m,
    In line (split newline text) ->
    Regex.search line = Some m ->
    count_short (Re.n_partial m)
    /\ count_short (Re.n_binaries m)
    /\ count_short (Re.n_total m).

(** The three tracked counts of a match convert. *)
Definition converts (m : Re.Match) : Prop :=
  exists vp vb vt,
    int (Re.n_partial m) = Ok vp
    /\ int (Re.n_binaries m) = Ok vb
    /\ int (Re.n_total m) = Ok vt.

(** The [InfoDict] with the three tags of [TAGS], in their order. *)
Definition info_of (partial binaries total : Series) : InfoDict :=
  [("n_partial", partial); ("n_binaries", binaries); ("n_total", total)].

(** The three series carry the same timestamps, sample by sample. *)
Definition same_lines (info : InfoDict) : Prop :=
  exists p b t,
    info = info_of p b t /\ map fst p = map fst b /\ map fst b = map fst t.

(** What log parsing builds: a dictionary whose every repository has the
    three series, from the same lines, with at least one sample. *)
Definition parsed (repo_info : Dict.t InfoDict) : Prop :=
  Dict.wf repo_info
  /\ Forall (fun kv => same_lines (snd kv)
                       /\ Dict.get "n_partial" (snd kv) <> Some [])
            repo_info.

(** The value of the latest sample of [tag] in [info], when there is one. *)
Definition latest_in (info : InfoDict) (tag : string) : option Z :=
  match Dict.get tag info with
  | Some series =>
      match last series with
      | Ok (_, value) => Some value
      | Raise _ => None
      end
  | None => None
  end.

(** The same, for [repo] in the mapping. *)
Definition latest (repo_info : Dict.t InfoDict) (repo tag : string)
  : option Z :=
  match Dict.get repo repo_info with
  | Some info => latest_in info tag
  | None => None
  end.

(** The latest [n_partial] value is below the latest [n_total] value. *)
Definition fails (info : InfoDict) : bool :=
  match latest_in info "n_partial", latest_in info "n_total" with
  | Some partial, Some total => (partial <? total)%Z
  | _, _ => false
  end.

(** The latest [n_total] value of [repo] is at most the ceiling of 50. *)
Definition within_ceiling (repo_info : Dict.t InfoDict) (repo : string) : bool :=
  match latest repo_info repo "n_total" with
  | Some total => (total <=? 50)%Z
  | None => false
  end.

(** The line printed for [repo] when its latest [n_total] is above 50. *)
Definition skip_lines (repo_info : Dict.t InfoDict) (repo : string)
  : list string :=
  match latest repo_info repo "n_total" with
  | Some total =>
      if (total <=? 50)%Z then []
      else [(repo ++ " contains " ++ str total ++ " Makefiles, skipping")%string]
  | None => []
  end.

(** No character of [s] is [c]. *)
Definition free_of (c : ascii) (s : string) : bool :=
  all_in (fun c' => negb (Ascii.eqb c' c)) s.

End Notions.

(* ================================================================= *)
(** ** Concrete stores and logs, used to exercise the statements below *)

Module Examples.


(** The store after [add_repo("foo", "bar", True, 10)] on an empty one. *)
Definition store_added : Mongo.Collection :=
  snd (Database.add_repo "foo" "bar" true 10 []).

Definition entry_added : RepoEntry :=
  Database.new_record "foo" "bar" true 10 1.

(** Two runs over [foo/bar] with different outcomes, one over [baz/qux]. *)
Definition info_changed : InfoDict :=
  [("n_partial", [("2020-01-01 12:00:00", 2%Z); ("2020-01-02 12:00:00", 3%Z)]);
   ("n_binaries", [("2020-01-01 12:00:00", 4%Z); ("2020-01-02 12:00:00", 4%Z)]);
   ("n_total", [("2020-01-01 12:00:00", 5%Z); ("2020-01-02 12:00:00", 5%Z)])].

Definition info_single : InfoDict :=
  [("n_partial", [("2020-01-01 12:00:01", 1%Z)]);
   ("n_binaries", [("2020-01-01 12:00:01", 1%Z)]);
   ("n_total", [("2020-01-01 12:00:01", 1%Z)])].

Definition series_two_repos : Dict.t InfoDict :=
  [("foo/bar", info_changed); ("baz/qux", info_single)].

(** The log line of the end-to-end scenario. *)
Definition log_line : string :=
  "2020-01-01 12:00:00,000 INFO: 3 (2) out of 5 Makefile(s) in foo/bar compiled (partially), yielding 4 binaries".

(** What [analyze_logs] returns on it. *)
Definition log_line_series : Dict.t InfoDict :=
  [("foo/bar",
    [("n_partial", [("2020-01-01 12:00:00", 2%Z)]);
     ("n_binaries", [("2020-01-01 12:00:00", 4%Z)]);
     ("n_total", [("2020-01-01 12:00:00", 5%Z)])])].

(** A generator that draws the first indices: one behaviour the contract
    of [np.random.choice(a, size, replace=False)] admits. *)
Definition first_indices (a size : nat) : result (list nat) :=
  if Nat.leb size a then Ok (seq 0 size)
  else Raise (ValueError
                "Cannot take a larger sample than population when 'replace=False'").

(** The summary line of repository [owner/repo<i>]: none of its [i + 1]
    Makefiles compiled. *)
Definition summary_line (i : nat) : string :=
  ("2020-01-01 12:00:00,000 INFO: 0 (0) out of " ++ str (Z.of_nat (S i))
     ++ " Makefile(s) in owner/repo" ++ str (Z.of_nat i)
     ++ " compiled (partially), yielding 0 binaries")%string.

(** A log of a hundred repositories, with 1 to 100 Makefiles. *)
Definition hundred_log : string :=
  join (String newline "") (map summary_line (seq 0 100)).

(** A store whose entry for [foo/bar] records the Makefile directory
    ["src/a"] as it stands, and one that records it under four leading
    path segments. *)
Definition makefile_at (directory : string) : Makefile.RepoMakefileEntry :=
  {| Makefile.directory := directory;
     Makefile.successful := true;
     Makefile.num_binaries := 0;
     Makefile.binaries := [];
     Makefile.sha256 := [] |}.

Definition store_with (directory : string) : Mongo.Collection :=
  snd (Database.update_makefile "foo" "bar" [makefile_at directory] false
                                store_added).

(** Two configuration files: one with every key of [DBConfig] and one
    more, and one without [port] and [password]. *)
Definition config_full : Dict.t string :=
  [("host", "localhost"); ("port", "27017"); ("auth_db_name", "admin");
   ("db_name", "ghcc"); ("collection_name", "repos");
   ("username", "user"); ("password", "secret"); ("comment", "local")].

Definition config_partial : Dict.t string :=
  [("host", "localhost"); ("auth_db_name", "admin");
   ("db_name", "ghcc"); ("collection_name", "repos"); ("username", "user")].

Definition files_with (config : Dict.t string) (path : string)
  : option (Dict.t string) :=
  if path =? "./database-config.json" then Some config else None.

End Examples.

(* ================================================================= *)
(** ** [Database.__init__]: the configuration check *)

Module Config.

(** [DBConfig.__annotations__], in the order of the class body. *)
Definition annotations : list string :=
  ["host"; "port"; "auth_db_name"; "db_name"; "collection_name";
   "username"; "password"].

(** [key in config]. *)
Definition has_key {V} (key : string) (config : Dict.t V) : bool :=
  match Dict.get key config with
  | Some _ => true
  | None => false
  end.

(** [[key for key in DBConfig.__annotations__ if key not in config]]. *)
Definition missing_keys {V} (config : Dict.t V) : list string :=
  filter (fun key => negb (has_key key config)) annotations.

(** [repr] of a list of plain keys, as the f-string prints it. *)
Definition repr_keys (keys : list string) : string :=
  ("[" ++ join ", " (map (fun key => "'" ++ key ++ "'") keys) ++ "]")%string.

Definition not_found_msg (config_file : string) : string :=
  ("DB config file not found at '" ++ config_file
     ++ "'. Please refer to 'database-config-example.json' for the format")%string.

Definition missing_msg (missing : list string) (config_file : string) : string :=
  ("Keys " ++ repr_keys missing ++ " are missing from the DB config file at '"
     ++ config_file
     ++ "'.from Please refer to 'database-config-example.json' for the format")%string.

(** [Database.__init__] up to the call of [pymongo.MongoClient]: the
    configuration the connection is opened with. [files] gives, for a
    path that exists, the JSON object [json.load] reads from it. *)
Definition init {V} (files : string -> option (Dict.t V)) (config_file : string)
  : result (Dict.t V) :=
  match files config_file with
  | None => Raise (ValueError (not_found_msg config_file))
  | Some config =>
      let missing := missing_keys config in
      if (len missing >? 0)%Z
      then Raise (ValueError (missing_msg missing config_file))
      else Ok config
  end.

End Config.

(* ================================================================= *)
(** ** [analyze_fails.py]: the CSV block of [main] *)

(** [["Repo", "Makefile", "Status", "Failed Reason?"]]. *)
Definition csv_header : list string :=
  ["Repo"; "Makefile"; "Status"; "Failed Reason?"].

(** The list handed to [writer.writerow] for a row. *)
Definition cells (row : Row) : list string :=
  let '(repo, directory, status) := row in [repo; directory; status].

Section CsvBlock.

Variable find_makefiles : string -> list string.

(** [for repo in tqdm(repo_samples, desc="Writing CSV")], with the rows
    written so far: how the loop ends, the store, and the rows in the
    file. A repository raises before its first row is written. *)
Fixpoint write_repos (repos : list string) (written : list (list string))
         (c : Mongo.Collection)
  : result unit * Mongo.Collection * list (list string) :=
  match repos with
  | [] => (Ok tt, c, written)
  | repo :: repos' =>
      match report_repo find_makefiles repo c with
      | (Ok rows, c') => write_repos repos' (written ++ map cells rows) c'
      | (Raise e, c') => (Raise e, c', written)
      end
  end.

(** The [with open("repo_samples.csv", "w")] block: the header row, then
    the loop. *)
Definition write_csv (repo_samples : list string) (c : Mongo.Collection)
  : result unit * Mongo.Collection * list (list string) :=
  write_repos repo_samples [csv_header] c.

End CsvBlock.

(* ================================================================= *)
(** ** Notions for the description of log parsing *)

Module LogNotions.

(** The repository a line reports on, when the pattern matches it. *)
Definition line_name (line : string) : option string :=
  match Regex.search line with
  | Some m => Some (Re.repo_owner m ++ "/" ++ Re.repo_name m)%string
  | None => None
  end.

(** The sample a line holds for [tag]. *)
Definition line_sample (tag line : string) : option (string * Z) :=
  match Regex.search line with
  | Some m =>
      match Re.group m tag with
      | Ok text =>
          match int text with
          | Ok value => Some (Re.date_time m, value)
          | Raise _ => None
          end
      | Raise _ => None
      end
  | None => None
  end.

(** The samples of [tag] that the lines reporting on [repo] hold, in the
    order of the lines. *)
Definition samples_of (repo tag : string) (lines : list string) : Series :=
  flat_map
    (fun line =>
       match line_name line with
       | Some name =>
           if name =? repo
           then match line_sample tag line with
                | Some sample => [sample]
                | None => []
                end
           else []
       | None => []
       end)
    lines.

(** The repositories the lines report on, line by line. *)
Definition names_of (lines : list string) : list string :=
  flat_map
    (fun line =>
       match line_name line with
       | Some name => [name]
       | None => []
       end)
    lines.

(** The distinct elements of a list, in the order of their first
    occurrences. *)
Definition first_seen (names : list string) : list string :=
  fold_left
    (fun seen name =>
       if in_dec string_dec name seen then seen else seen ++ [name])
    names [].

(** [repo_info] is what parsing [lines] gives: the repositories in the
    order they first appear, each with the samples of its lines. *)
Definition described (lines : list string) (repo_info : Dict.t InfoDict)
  : Prop :=
  Notions.parsed repo_info
  /\ Dict.keys repo_info = first_seen (names_of lines)
  /\ forall repo,
      match Dict.get repo repo_info with
      | Some info =>
          info = Notions.info_of (samples_of repo "n_partial" lines)
                                 (samples_of repo "n_binaries" lines)
                                 (samples_of repo "n_total" lines)
      | None => ~ In repo (names_of lines)
      end.

(** A non-empty string of word characters: what [\w+] captures. *)
Definition words (s : string) : Prop :=
  s <> EmptyString /\ Notions.all_in Re.word s = true.

(** [s] starts with a compilation summary whose groups are those of [m]:
    the grammar of the pattern, written out. *)
Definition summary_with (s : string) (m : Re.Match) : Prop :=
  exists date time millis level rest,
    s = (date ++ " " ++ time ++ "," ++ millis ++ " " ++ level ++ ": "
           ++ Re.n_success m ++ " (" ++ Re.n_partial m ++ ") out of "
           ++ Re.n_total m ++ " Makefile(s) in "
           ++ Re.repo_owner m ++ "/" ++ Re.repo_name m
           ++ " compiled (partially), yielding "
           ++ Re.n_binaries m ++ " binaries" ++ rest)%string
    /\ Re.date_time m = (date ++ " " ++ time)%string
    /\ String.length date = 10 /\ Notions.all_in Re.date_char date = true
    /\ String.length time = 8 /\ Notions.all_in Re.time_char time = true
    /\ String.length millis = 3 /\ Notions.all_in Re.digit millis = true
    /\ words level
    /\ Notions.digits (Re.n_success m)
    /\ Notions.digits (Re.n_partial m)
    /\ Notions.digits (Re.n_total m)
    /\ words (Re.repo_owner m)
    /\ words (Re.repo_name m)
    /\ Notions.digits (Re.n_binaries m).

(** The series of [tag] for [repo] in a mapping; empty when the mapping
    has none. *)
Definition series_in (repo_info : Dict.t InfoDict) (repo tag : string)
  : Series :=
  match Dict.get repo repo_info with
  | Some info =>
      match Dict.get tag info with
      | Some series => series
      | None => []
      end
  | None => []
  end.

(** The rows the report writes for [repo], when it does not raise. *)
Definition repo_rows (find_makefiles : string -> list string)
           (c : Mongo.Collection) (repo : string) : list (list string) :=
  match report_repo find_makefiles repo c with
  | (Ok rows, _) => map cells rows
  | (Raise _, _) => []
  end.

(** [repo] splits into an owner and a name that the store has an entry
    for. *)
Definition reportable (c : Mongo.Collection) (repo : string) : Prop :=
  exists owner name entry,
    split "/" repo = [owner; name]
    /\ Database.get owner name c = (Ok (Some entry), c).

End LogNotions.

(* ================================================================= *)
(** ** Notions for the invariants of the store *)

Module StoreNotions.

(** The key of a document: [(repo_owner, repo_name)]. *)
Definition key_of (d : RepoEntry) : string * string :=
  (repo_owner d, repo_name d).

(** [len(binaries)] summed over a list of Makefile entries. *)
Definition binaries_in (mks : list Makefile.RepoMakefileEntry) : Z :=
  sum (map (fun m => len (Makefile.binaries m)) mks).

(** The counters of a document agree with its [makefiles] list, and a
    document never compiled has no Makefile. *)
Definition counts_consistent (d : RepoEntry) : Prop :=
  num_makefiles d = len (makefiles d)
  /\ num_binaries d = binaries_in (makefiles d)
  /\ (compiled d = false -> makefiles d = []).

(** [d'] is [d] later in the life of the store: the same document, with
    what [add_repo] wrote untouched and [compiled] not taken back. *)
Definition later_of (d d' : RepoEntry) : Prop :=
  _id d' = _id d
  /\ repo_owner d' = repo_owner d
  /\ repo_name d' = repo_name d
  /\ clone_successful d' = clone_successful d
  /\ repo_size d' = repo_size d
  /\ (compiled d = true -> compiled d' = true).

(** The sum of [num_makefiles] over the compiled documents. *)
Definition compiled_makefiles (c : Mongo.Collection) : Z :=
  sum (map num_makefiles (filter compiled c)).

End StoreNotions.

(* ================================================================= *)
(** * Properties of the store *)

Module DatabaseFacts.

Import Database.

Lemma find_one_split flt (c : Mongo.Collection) e :
  Mongo.find_one flt c = Some e ->
  exists pre post,
    c = pre ++ e :: post /\ flt e = true /\ Forall (fun d => flt d = false) pre.
Proof.
  unfold Mongo.find_one.
  induction c as [|d c IH]; simpl; [discriminate|].
  destruct (flt d) eqn:Hd; intros H.
  - injection H as ->. exists [], c. auto.
  - destruct (IH H) as (pre & post & -> & He & Hpre).
    exists (d :: pre), post. auto.
Qed.

Lemma find_one_none flt (c : Mongo.Collection) :
  Mongo.find_one flt c = None <-> Forall (fun d => flt d = false) c.
Proof.
  unfold Mongo.find_one. induction c as [|d c IH]; simpl.
  - split; auto.
  - destruct (flt d) eqn:Hd; split; intros H.
    + discriminate.
    + inversion H; congruence.
    + constructor; [assumption | now apply IH].
    + inversion H; now apply IH.
Qed.

Lemma find_one_app_new flt (c : Mongo.Collection) e :
  Mongo.find_one flt c = None -> flt e = true ->
  Mongo.find_one flt (c ++ [e]) = Some e.
Proof.
  unfold Mongo.find_one. induction c as [|d c IH]; simpl; intros H He.
  - now rewrite He.
  - destruct (flt d); [discriminate | auto].
Qed.

Lemma by_key_new_record owner name clone_ok size id :
  by_key owner name (new_record owner name clone_ok size id) = true.
Proof. unfold by_key; simpl. now rewrite !String.eqb_refl. Qed.

(** [update_one] by [_id] rewrites the document that carries the [_id],
    in place, and matches once, when no [_id] occurs twice. *)
Lemma update_one_by_id set pre e post :
  NoDup (map _id (pre ++ e :: post)) ->
  Mongo.update_one (by_id (_id e)) set (pre ++ e :: post)
  = (pre ++ set e :: post, 1%Z).
Proof.
  induction pre as [|d pre IH]; simpl; intros Hnd.
  - unfold by_id. now rewrite Nat.eqb_refl.
  - inversion Hnd as [|? ? Hnotin Hnd']; subst.
    assert (Hne : by_id (_id e) d = false).
    { unfold by_id. apply Nat.eqb_neq. intros Heq. apply Hnotin.
      rewrite Heq, map_app. apply in_or_app. right. now left. }
    rewrite Hne, (IH Hnd'). reflexivity.
Qed.


(** The guard of [update_makefile], read as the specification words it. *)
Lemma length_guard (ign : bool) (stored given : list Makefile.RepoMakefileEntry) :
  negb ign && negb (int_in (len stored) [0%Z; len given]) = true
  <-> (stored <> [] /\ length stored <> length given /\ ign = false).
Proof.
  unfold int_in, len; simpl. rewrite orb_false_r.
  rewrite andb_true_iff, !negb_true_iff, orb_false_iff, !Z.eqb_neq.
  split.
  - intros (Hign & H0 & Hlen). split; [|split]; [| |assumption].
    + intros ->. now apply H0.
    + intros Heq. apply Hlen. now rewrite Heq.
  - intros (Hne & Hlen & Hign). split; [assumption|split].
    + destruct stored; [congruence | simpl; lia].
    + lia.
Qed.

Lemma fresh_id_new (c : Mongo.Collection) :
  ~ In (Mongo.fresh_id c) (map _id c).
Proof.
  unfold Mongo.fresh_id. intros Hin.
  assert (Hle : forall l x, In x l -> x <= list_max l).
  { induction l as [|y l IH]; simpl; [tauto|].
    intros x [-> | Hx]; [lia | specialize (IH _ Hx); lia]. }
  specialize (Hle _ _ Hin). lia.
Qed.

Lemma update_one_ids flt mks (c : Mongo.Collection) :
  map _id (fst (Mongo.update_one flt (set_makefiles mks) c)) = map _id c.
Proof.
  induction c as [|d c IH]; simpl; [reflexivity|].
  destruct (flt d); simpl; [reflexivity|].
  destruct (Mongo.update_one flt (set_makefiles mks) c) as [c' n] eqn:E.
  simpl in *. now rewrite IH.
Qed.

Lemma new_record_encodable owner name clone_ok size id :
  Mongo.encodable (new_record owner name clone_ok size id)
  = Mongo.fits_int64 size.
Proof.
  unfold Mongo.encodable. simpl.
  change (Mongo.fits_int64 0) with true. now rewrite !andb_true_r.
Qed.

(** What [add_repo] does: nothing when the key has an entry; otherwise it
    appends the new record, or raises when [repo_size] cannot be
    encoded. *)
Lemma add_repo_outcomes owner name clone_ok size (c : Mongo.Collection) :
  (exists e, Mongo.find_one (by_key owner name) c = Some e
             /\ add_repo owner name clone_ok size c = (Ok tt, c))
  \/ (Mongo.find_one (by_key owner name) c = None
      /\ Mongo.fits_int64 size = false
      /\ add_repo owner name clone_ok size c
         = (Raise (OverflowError "MongoDB can only handle up to 8-byte ints"), c))
  \/ (Mongo.find_one (by_key owner name) c = None
      /\ Mongo.fits_int64 size = true
      /\ add_repo owner name clone_ok size c
         = (Ok tt, c ++ [new_record owner name clone_ok size (Mongo.fresh_id c)])).
Proof.
  unfold add_repo, DBMonad.bind, DBMonad.ret, get, find_one, insert_one,
    Mongo.insert_one.
  destruct (Mongo.find_one (by_key owner name) c) as [e|]; [left; eauto|].
  right. rewrite new_record_encodable.
  destruct (Mongo.fits_int64 size); [right | left]; auto.
Qed.

(** No reachable store holds an [_id] twice. *)
Lemma reachable_unique_ids c : reachable c -> NoDup (map _id c).
Proof.
  induction 1 as [|c owner name clone_ok size Hr IH|c owner name mks ign Hr IH].
  - constructor.
  - destruct (add_repo_outcomes owner name clone_ok size c)
      as [(e & _ & ->) | [(_ & _ & ->) | (_ & _ & ->)]]; simpl;
      [assumption | assumption |].
    rewrite map_app; simpl.
    apply NoDup_app_remove_l with (l := []). simpl.
    apply NoDup_rev in IH.
    rewrite <- (rev_involutive (map _id c ++ _)).
    apply NoDup_rev. rewrite rev_app_distr; simpl.
    constructor; [|assumption].
    rewrite <- in_rev. apply fresh_id_new.
  - unfold update_makefile, DBMonad.bind, get, find_one, update_one,
      DBMonad.raise, DBMonad.assert, DBMonad.ret.
    destruct (Mongo.find_one (by_key owner name) c) as [e|]; simpl; [|assumption].
    destruct (negb ign && _); simpl; [assumption|].
    pose proof (update_one_ids (by_id (_id e)) mks c) as Hids.
    destruct (Mongo.update_one (by_id (_id e)) (set_makefiles mks) c) as [c' n].
    simpl in Hids.
    destruct (n =? 1)%Z; simpl; now rewrite Hids.
Qed.

Lemma by_key_true owner name d :
  by_key owner name d = true <-> repo_owner d = owner /\ repo_name d = name.
Proof.
  unfold by_key. now rewrite andb_true_iff, !String.eqb_eq.
Qed.

Lemma get_none_iff c owner name :
  get owner name c = (Ok None, c) <-> ~ has_entry c owner name.
Proof.
  unfold get, find_one, has_entry. split.
  - intros H (d & Hin & Hk). injection H as H.
    apply find_one_none in H. rewrite Forall_forall in H.
    specialize (H d Hin). apply by_key_true in Hk. congruence.
  - intros H. f_equal. f_equal. apply find_one_none, Forall_forall.
    intros d Hin. destruct (by_key owner name d) eqn:E; [|reflexivity].
    exfalso. apply H. exists d. split; [assumption|now apply by_key_true].
Qed.



(** C2, as the code has it. For a [repo_size] that fits a signed 8-byte
    integer, [add_repo] on a key without entry returns, appends one
    document with the arguments given and [compiled = False],
    [num_makefiles = 0], [num_binaries = 0], [makefiles = []], and [get]
    right after returns that document; for a [repo_size] beyond that
    range it raises [OverflowError] and stores nothing. On a key with an
    entry it returns and leaves the store as it is, whatever the other
    arguments. So the store changes exactly when the key had no entry and
    [repo_size] fits, and once [add_repo] has returned, [add_repo] on the
    key again changes nothing. *)
Theorem add_repo_first_write_wins :
  forall (c : Mongo.Collection) owner name clone_ok size,
    let r := add_repo owner name clone_ok size c in
    (~ has_entry c owner name ->
     Mongo.fits_int64 size = true ->
     fst r = Ok tt
     /\ exists e,
         snd r = c ++ [e]
         /\ get owner name (snd r) = (Ok (Some e), snd r)
         /\ repo_owner e = owner
         /\ repo_name e = name
         /\ clone_successful e = clone_ok
         /\ repo_size e = size
         /\ compiled e = false
         /\ num_makefiles e = 0%Z
         /\ num_binaries e = 0%Z
         /\ makefiles e = [])
    /\ (~ has_entry c owner name ->
        Mongo.fits_int64 size = false ->
        r = (Raise (OverflowError "MongoDB can only handle up to 8-byte ints"), c))
    /\ (has_entry c owner name -> r = (Ok tt, c))
    /\ (snd r <> c
        <-> ~ has_entry c owner name /\ Mongo.fits_int64 size = true)
    /\ (fst r = Ok tt ->
        forall clone_ok' size',
          add_repo owner name clone_ok' size' (snd r) = (Ok tt, snd r)).
Proof.
  intros c owner name clone_ok size r.
  assert (Hno : forall c' : Mongo.Collection,
             c' ++ [new_record owner name clone_ok size (Mongo.fresh_id c)] <> c').
  { intros c' H. apply (f_equal (@length _)) in H.
    rewrite length_app in H. simpl in H. lia. }
  assert (Hnone : ~ has_entry c owner name
                  <-> Mongo.find_one (by_key owner name) c = None).
  { rewrite <- get_none_iff. unfold get, find_one.
    split; [intros H; now injection H | now intros ->]. }
  assert (Hagain : forall c1 e clone_ok' size',
             Mongo.find_one (by_key owner name) c1 = Some e ->
             add_repo owner name clone_ok' size' c1 = (Ok tt, c1)).
  { intros c1 e clone_ok' size' Hf.
    unfold add_repo, DBMonad.bind, DBMonad.ret, get, find_one. now rewrite Hf. }
  subst r.
  destruct (add_repo_outcomes owner name clone_ok size c)
    as [(e & Hf & ->) | [(Hf & Hfit & ->) | (Hf & Hfit & ->)]]; cbn [fst snd].
  - assert (Hhas : has_entry c owner name).
    { destruct (find_one_split _ _ _ Hf) as (pre & post & Hc & Hk & _).
      exists e. split; [rewrite Hc; apply in_or_app; right; now left|].
      now apply by_key_true. }
    split; [tauto|]. split; [tauto|]. split; [reflexivity|].
    split; [tauto|]. intros _ clone_ok' size'. now apply (Hagain c e).
  - assert (Hnot : ~ has_entry c owner name) by (now apply Hnone).
    split; [congruence|]. split; [reflexivity|]. split; [tauto|].
    split; [|discriminate].
    split; [congruence | intros (_ & H); congruence].
  - assert (Hnot : ~ has_entry c owner name) by (now apply Hnone).
    pose proof (find_one_app_new _ c _ Hf
                  (by_key_new_record owner name clone_ok size (Mongo.fresh_id c)))
      as Hnew.
    split; [|split; [congruence | split; [tauto | split]]].
    + intros _ _. split; [reflexivity|]. eexists. split; [reflexivity|].
      unfold get, find_one. rewrite Hnew.
      repeat (split; [reflexivity|]). reflexivity.
    + split; [auto | intros _; apply Hno].
    + intros _ clone_ok' size'. now apply (Hagain _ _ _ _ Hnew).
Qed.

Lemma add_repo_first_write_wins_witness :
  (exists e,
      snd (add_repo "foo" "bar" true 10 []) = [e]
      /\ get "foo" "bar" [e] = (Ok (Some e), [e])
      /\ compiled e = false /\ num_makefiles e = 0%Z
      /\ num_binaries e = 0%Z /\ makefiles e = [])
  /\ add_repo "foo" "bar" false 77 Examples.store_added
     = (Ok tt, Examples.store_added).
Proof.
  destruct (add_repo_first_write_wins [] "foo" "bar" true 10)
    as (Hnew & _ & _ & _ & Hagain).
  split.
  - assert (Hno : ~ has_entry [] "foo" "bar") by (intros (d & [] & _)).
    destruct (Hnew Hno eq_refl)
      as (_ & e & Hs & Hg & _ & _ & _ & _ & Hc & Hm & Hb & Hl).
    exists e. rewrite Hs in Hg.
    exact (conj Hs (conj Hg (conj Hc (conj Hm (conj Hb Hl))))).
  - exact (Hagain eq_refl false 77%Z).
Defined.

(** C2 as worded fails: on a key without entry, a [repo_size] of [2^63]
    makes [add_repo] raise [OverflowError], and no entry is created. *)
Lemma add_repo_oversized :
  ~ has_entry [] "big" "size"
  /\ add_repo "big" "size" true (2 ^ 63) []
     = (Raise (OverflowError "MongoDB can only handle up to 8-byte ints"), [])
  /\ get "big" "size" (snd (add_repo "big" "size" true (2 ^ 63) []))
     = (Ok None, []).
Proof.
  split; [intros (d & [] & _)|]. split; reflexivity.
Qed.

(** *** The aggregate counters *)

Lemma sum_from (a : Z) (xs : list Z) :
  fold_left Z.add xs a = (a + sum xs)%Z.
Proof.
  unfold sum. revert a.
  induction xs as [|x xs IH]; intros a; simpl; [lia|].
  rewrite (IH (a + x)%Z), (IH x). lia.
Qed.

Lemma sum_cons (x : Z) (xs : list Z) : sum (x :: xs) = (x + sum xs)%Z.
Proof. unfold sum at 1. simpl. apply sum_from. Qed.

(** Once the group of [compiled = True] exists, every matched document
    adds its field to that group's total. *)
Lemma group_stage_running field_name (docs : list RepoEntry) (t : Z) :
  Forall (fun d => compiled d = true) docs ->
  fold_left
    (fun gs d => Mongo.group_add (compiled d) (Mongo.numeric_field field_name d) gs)
    docs [ {| Mongo.group_id := true; Mongo.total := t |} ]
  = [ {| Mongo.group_id := true;
         Mongo.total := (t + sum (map (Mongo.numeric_field field_name) docs))%Z |} ].
Proof.
  revert t. induction docs as [|d docs IH]; intros t Hall; simpl.
  - unfold sum; simpl. now rewrite Z.add_0_r.
  - inversion Hall as [|? ? Hd Hrest]; subst.
    rewrite Hd; simpl. rewrite (IH _ Hrest), sum_cons. now rewrite Z.add_assoc.
Qed.

Lemma match_stage_compiled (c : Mongo.Collection) :
  Forall (fun d => compiled d = true) (Mongo.match_stage c).
Proof.
  apply Forall_forall. intros d Hin. now apply filter_In in Hin.
Qed.

(** With a compiled entry in the store, [_aggregate_sum] returns the sum
    of the field over the compiled entries. *)
Lemma aggregate_sum_some_compiled field_name (c : Mongo.Collection) :
  (exists d, In d c /\ compiled d = true) ->
  _aggregate_sum field_name c
  = (Ok (sum (map (Mongo.numeric_field field_name) (filter compiled c))), c).
Proof.
  intros (d & Hin & Hd).
  unfold _aggregate_sum, Mongo.aggregate, Mongo.group_stage.
  pose proof (match_stage_compiled c) as Hall. unfold Mongo.match_stage in *.
  destruct (filter compiled c) as [|d0 docs] eqn:Hf.
  - exfalso. assert (Hd0 : In d (filter compiled c)) by (apply filter_In; auto).
    now rewrite Hf in Hd0.
  - inversion Hall as [|? ? Hd0 Hrest]; subst. simpl. rewrite Hd0.
    rewrite (group_stage_running _ _ _ Hrest). simpl. now rewrite sum_cons.
Qed.

(** With no compiled entry, the cursor is empty and [next] raises. *)
Lemma aggregate_sum_none_compiled field_name (c : Mongo.Collection) :
  (forall d, In d c -> compiled d = false) ->
  _aggregate_sum field_name c = (Raise StopIteration, c).
Proof.
  intros Hnone.
  unfold _aggregate_sum, Mongo.aggregate, Mongo.match_stage.
  assert (Hf : filter compiled c = []).
  { induction c as [|d c IH]; simpl; [reflexivity|].
    rewrite (Hnone d (or_introl eq_refl)). apply IH.
    intros d' Hd'. apply Hnone. now right. }
  now rewrite Hf.
Qed.

(** C9, at the input where the code departs from it. The store reached by
    one [add_repo] from the empty store holds no compiled entry, and there
    [count_makefiles] and [count_binaries] raise [StopIteration] instead
    of returning 0; so they do on the empty store. *)
Theorem count_without_compiled_entry :
  reachable Examples.store_added
  /\ (forall d, In d Examples.store_added -> compiled d = false)
  /\ count_makefiles Examples.store_added = (Raise StopIteration, Examples.store_added)
  /\ count_binaries Examples.store_added = (Raise StopIteration, Examples.store_added)
  /\ count_makefiles [] = (Raise StopIteration, [])
  /\ count_binaries [] = (Raise StopIteration, []).
Proof.
  split; [apply reach_add; constructor|].
  split; [intros d [<- | []]; reflexivity|].
  repeat split; reflexivity.
Qed.

End DatabaseFacts.

(* ================================================================= *)
(** * Properties of dictionaries *)

Module DictFacts.

Section Facts.

Context {V : Type}.
Implicit Types (d : Dict.t V) (k : string) (v : V).

Lemma get_set_eq k v d : Dict.get k (Dict.set k v d) = Some v.
Proof.
  induction d as [|[k' v'] d IH]; simpl.
  - now rewrite String.eqb_refl.
  - destruct (k' =? k) eqn:E; simpl.
    + now rewrite String.eqb_refl.
    + now rewrite E.
Qed.

Lemma get_set_ne k k' v d :
  k <> k' -> Dict.get k' (Dict.set k v d) = Dict.get k' d.
Proof.
  intros Hne. induction d as [|[k0 v0] d IH]; simpl.
  - apply String.eqb_neq in Hne. now rewrite Hne.
  - destruct (k0 =? k) eqn:E; simpl.
    + apply String.eqb_eq in E. subst k0.
      apply String.eqb_neq in Hne. now rewrite Hne.
    + destruct (k0 =? k'); auto.
Qed.

Lemma get_none_keys k d : Dict.get k d = None <-> ~ In k (Dict.keys d).
Proof.
  induction d as [|[k' v'] d IH]; simpl; [tauto|].
  destruct (k' =? k) eqn:E.
  - apply String.eqb_eq in E. split; [discriminate | tauto].
  - apply String.eqb_neq in E. tauto.
Qed.

Lemma get_some_in k v d : Dict.get k d = Some v -> In (k, v) d.
Proof.
  induction d as [|[k' v'] d IH]; simpl; [discriminate|].
  destruct (k' =? k) eqn:E.
  - apply String.eqb_eq in E. intros H. injection H as ->. subst. now left.
  - auto.
Qed.

Lemma in_get k v d : Dict.wf d -> In (k, v) d -> Dict.get k d = Some v.
Proof.
  unfold Dict.wf, Dict.keys.
  induction d as [|[k' v'] d IH]; simpl; [tauto|].
  intros Hnd [Heq | Hin]; inversion Hnd as [|? ? Hnotin Hnd']; subst.
  - injection Heq as -> ->. now rewrite String.eqb_refl.
  - destruct (k' =? k) eqn:E; [|auto].
    apply String.eqb_eq in E. subst k'. exfalso. apply Hnotin.
    change k with (fst (k, v)). now apply in_map.
Qed.

(** Setting an absent key appends it. *)
Lemma set_new k v d : Dict.get k d = None -> Dict.set k v d = d ++ [(k, v)].
Proof.
  induction d as [|[k' v'] d IH]; simpl; [reflexivity|].
  destruct (k' =? k); [discriminate|]. intros H. now rewrite IH.
Qed.

(** Setting a present key keeps the keys and their order. *)
Lemma keys_set_present k v v0 d :
  Dict.get k d = Some v0 -> Dict.keys (Dict.set k v d) = Dict.keys d.
Proof.
  unfold Dict.keys.
  induction d as [|[k' v'] d IH]; simpl; [discriminate|].
  destruct (k' =? k) eqn:E; simpl.
  - apply String.eqb_eq in E. now subst.
  - intros H. now rewrite IH.
Qed.

Lemma wf_set k v d : Dict.wf d -> Dict.wf (Dict.set k v d).
Proof.
  intros Hwf. destruct (Dict.get k d) as [v0|] eqn:E.
  - unfold Dict.wf. now rewrite (keys_set_present _ _ _ _ E).
  - rewrite (set_new _ _ _ E). unfold Dict.wf, Dict.keys in *.
    rewrite map_app; simpl.
    apply get_none_keys in E. unfold Dict.keys in E.
    rewrite <- (rev_involutive (map fst d ++ [k])).
    apply NoDup_rev. rewrite rev_app_distr; simpl.
    constructor; [now rewrite <- in_rev | now apply NoDup_rev].
Qed.

Lemma set_set k v v' d : Dict.set k v' (Dict.set k v d) = Dict.set k v' d.
Proof.
  induction d as [|[k0 v0] d IH]; simpl.
  - now rewrite String.eqb_refl.
  - destruct (k0 =? k) eqn:E; simpl.
    + now rewrite String.eqb_refl.
    + now rewrite E, IH.
Qed.

(** A property of all bindings survives a [set] that satisfies it. *)
Lemma Forall_set (P : string * V -> Prop) k v d :
  Forall P d -> P (k, v) -> Forall P (Dict.set k v d).
Proof.
  intros Hall Hnew. induction Hall as [|[k0 v0] d H0 Hall IH]; simpl.
  - auto.
  - destruct (k0 =? k); constructor; auto.
Qed.

Lemma get_Forall (P : string * V -> Prop) k v d :
  Forall P d -> Dict.get k d = Some v -> P (k, v).
Proof.
  intros Hall Hget. apply get_some_in in Hget.
  rewrite Forall_forall in Hall. now apply Hall.
Qed.

End Facts.

Lemma wf_filter {V} (P : string * V -> bool) (d : Dict.t V) :
  Dict.wf d -> Dict.wf (filter P d).
Proof.
  unfold Dict.wf, Dict.keys.
  induction d as [|kv d IH]; simpl; intros Hnd; [constructor|].
  inversion Hnd as [|? ? Hnotin Hnd']; subst.
  destruct (P kv); simpl; [|auto].
  constructor; [|auto].
  intros Hin. apply Hnotin. apply in_map_iff in Hin.
  destruct Hin as (kv' & Heq & Hin). apply filter_In in Hin.
  rewrite <- Heq. apply in_map. tauto.
Qed.

Lemma get_filter {V} (P : string * V -> bool) (d : Dict.t V) k v :
  Dict.wf d ->
  Dict.get k (filter P d) = Some v <-> Dict.get k d = Some v /\ P (k, v) = true.
Proof.
  intros Hwf. split.
  - intros H. apply get_some_in, filter_In in H. destruct H as (Hin & HP).
    split; [now apply in_get | assumption].
  - intros (H & HP). apply in_get; [now apply wf_filter|].
    apply filter_In. split; [now apply get_some_in | assumption].
Qed.

End DictFacts.

(* ================================================================= *)
(** * Properties of the change detector *)

Module ChangeFacts.

Import DictFacts.

Lemma all_equal_spec (xs : list Z) :
  all_equal xs = true <-> (forall x y, In x xs -> In y xs -> x = y).
Proof.
  destruct xs as [|x0 xs]; simpl.
  - split; [intros _ x y [] | reflexivity].
  - rewrite forallb_forall. split.
    + intros H x y Hx Hy.
      assert (Hto : forall z, x0 = z \/ In z xs -> z = x0).
      { intros z [<- | Hz]; [reflexivity | now apply Z.eqb_eq, H]. }
      rewrite (Hto x Hx), (Hto y Hy). reflexivity.
    + intros H x Hx. apply Z.eqb_eq. apply H; [now right | now left].
Qed.

Lemma has_change_spec (info : InfoDict) :
  has_change info = true
  <-> exists tag vals,
      In (tag, vals) (Dict.items info)
      /\ ~ (forall x y, In x (map snd vals) -> In y (map snd vals) -> x = y).
Proof.
  unfold has_change, Dict.values, Dict.items. rewrite existsb_exists. split.
  - intros (vals & Hin & Hne). apply in_map_iff in Hin.
    destruct Hin as ([tag vals'] & Heq & Hin). simpl in Heq. subst vals'.
    exists tag, vals. split; [assumption|].
    rewrite <- all_equal_spec. apply negb_true_iff in Hne. congruence.
  - intros (tag & vals & Hin & Hne). exists vals. split.
    + change vals with (snd (tag, vals)). now apply in_map.
    + apply negb_true_iff. rewrite <- all_equal_spec in Hne.
      now destruct (all_equal (map snd vals)).
Qed.

(** A series of at most one sample has all its values equal. *)
Lemma short_series_equal (vals : Series) :
  length vals <= 1 -> all_equal (map snd vals) = true.
Proof.
  destruct vals as [|s [|s' vals]]; simpl; intros H; [reflexivity | reflexivity | lia].
Qed.

Lemma changed_repos_from (l acc : Dict.t InfoDict) :
  NoDup (Dict.keys acc ++ Dict.keys l) ->
  fold_left
    (fun changed '(name, info) =>
       if has_change info then Dict.set name info changed else changed)
    l acc
  = acc ++ filter (fun kv => has_change (snd kv)) l.
Proof.
  revert acc. induction l as [|[name info] l IH]; intros acc Hnd; simpl.
  - now rewrite app_nil_r.
  - simpl in Hnd. destruct (has_change info) eqn:Hc.
    + assert (Hnew : Dict.get name acc = None).
      { apply get_none_keys. intros Hin.
        apply NoDup_remove_2 in Hnd. apply Hnd. apply in_or_app. now left. }
      rewrite (set_new _ _ _ Hnew), IH.
      * now rewrite <- app_assoc.
      * unfold Dict.keys in *. rewrite map_app; simpl.
        now rewrite <- app_assoc.
    + apply IH. now apply NoDup_remove_1 in Hnd.
Qed.

(** On a dictionary, the loop of [changed_repos] is a filter. *)
Lemma changed_repos_filter (repo_info : Dict.t InfoDict) :
  Dict.wf repo_info ->
  changed_repos repo_info = filter (fun kv => has_change (snd kv)) repo_info.
Proof.
  intros Hwf. unfold changed_repos, Dict.items.
  now rewrite changed_repos_from.
Qed.

(** C7. On a dictionary of series, [changed_repos] holds a repository,
    with the very [InfoDict] it had, exactly when one of its tags has
    recorded values that are not all equal; a repository whose tags all
    have at most one sample is not in it. *)
Theorem changed_repos_spec :
  forall repo_info : Dict.t InfoDict,
    Dict.wf repo_info ->
    (forall name info,
        Dict.get name (changed_repos repo_info) = Some info
        <-> Dict.get name repo_info = Some info
            /\ exists tag vals,
                In (tag, vals) (Dict.items info)
                /\ ~ (forall x y,
                        In x (map snd vals) -> In y (map snd vals) -> x = y))
    /\ (forall name info,
          Dict.get name repo_info = Some info ->
          (forall tag vals, In (tag, vals) (Dict.items info) -> length vals <= 1) ->
          Dict.get name (changed_repos repo_info) = None).
Proof.
  intros repo_info Hwf. rewrite (changed_repos_filter _ Hwf).
  split.
  - intros name info. rewrite (get_filter _ _ _ _ Hwf); simpl.
    now rewrite has_change_spec.
  - intros name info Hget Hshort.
    destruct (Dict.get name (filter _ repo_info)) as [info'|] eqn:E; [|reflexivity].
    exfalso. apply (get_filter _ _ _ _ Hwf) in E. destruct E as (Hget' & Hc).
    simpl in Hc. assert (info' = info) by congruence. subst info'.
    apply has_change_spec in Hc. destruct Hc as (tag & vals & Hin & Hne).
    apply Hne. apply all_equal_spec. apply short_series_equal. eauto.
Qed.

Lemma changed_repos_spec_witness :
  Dict.wf Examples.series_two_repos
  /\ Dict.get "foo/bar" (changed_repos Examples.series_two_repos)
     = Some Examples.info_changed
  /\ Dict.get "baz/qux" (changed_repos Examples.series_two_repos) = None.
Proof.
  assert (Hwf : Dict.wf Examples.series_two_repos).
  { unfold Dict.wf; simpl. repeat constructor; simpl; intuition discriminate. }
  destruct (changed_repos_spec Examples.series_two_repos Hwf) as (Hin & Hout).
  split; [exact Hwf|]. split.
  - apply Hin. split; [reflexivity|].
    exists "n_partial", [("2020-01-01 12:00:00", 2%Z); ("2020-01-02 12:00:00", 3%Z)].
    split; [now left|]. intros H.
    specialize (H 2%Z 3%Z (or_introl eq_refl) (or_intror (or_introl eq_refl))).
    discriminate.
  - apply (Hout "baz/qux" Examples.info_single eq_refl).
    intros tag vals [H | [H | [H | []]]]; injection H as _ <-; simpl; lia.
Defined.

End ChangeFacts.

(* ================================================================= *)
(** * Properties of log parsing *)

Module ParseFacts.

Import DictFacts Notions.

Lemma span_all_in cls s m rest :
  Re.span cls s = (m, rest) -> all_in cls m = true.
Proof.
  revert m rest. induction s as [|c s IH]; simpl; intros m rest H.
  - now injection H as <- <-.
  - destruct (cls c) eqn:Hc.
    + destruct (Re.span cls s) as [m' rest'] eqn:E.
      injection H as <- <-. simpl. rewrite Hc. now apply (IH m' rest').
    + now injection H as <- <-.
Qed.

(** The greedy run is the only way to cut a text into characters of the
    class followed by a character outside it: backtracking into a shorter
    run cannot make the literal that follows match. *)
Lemma span_only_cut cls m rest :
  all_in cls m = true ->
  match rest with
  | String c _ => cls c = false
  | EmptyString => True
  end ->
  Re.span cls (m ++ rest) = (m, rest).
Proof.
  intros Hm Hrest. induction m as [|c m IH]; simpl.
  - destruct rest as [|c rest]; simpl; [reflexivity | now rewrite Hrest].
  - simpl in Hm. apply andb_true_iff in Hm. destruct Hm as (Hc & Hm).
    now rewrite Hc, (IH Hm).
Qed.

Lemma one_or_more_digits s m rest :
  Re.one_or_more Re.digit s = Some (m, rest) -> digits m.
Proof.
  unfold Re.one_or_more.
  destruct (Re.span Re.digit s) as [m' rest'] eqn:E.
  apply span_all_in in E.
  destruct m' as [|c m']; [discriminate|].
  intros H. injection H as <- <-. split; [discriminate | assumption].
Qed.

Lemma int_from_digits s acc :
  all_in Re.digit s = true -> exists z, int_from acc s = Ok z.
Proof.
  revert acc. induction s as [|c s IH]; simpl; intros acc H.
  - eauto.
  - apply andb_true_iff in H. destruct H as (Hc & Hs).
    unfold digit_value. rewrite Hc. now apply IH.
Qed.

(** [int] returns on what [\d+] captures, up to the limit of digits. *)
Lemma int_digits s : digits s -> count_short s -> exists z, int s = Ok z.
Proof.
  intros (Hne & Hall) Hshort. destruct s as [|c s]; [congruence|].
  unfold int. unfold count_short in Hshort.
  destruct (Z.gtb_spec (Z.of_nat (String.length (String c s))) int_max_str_digits)
    as [Hgt | _]; [lia|].
  now apply int_from_digits.
Qed.

(** [int] raises beyond the limit. *)
Lemma int_ok_short s z : int s = Ok z -> count_short s.
Proof.
  unfold int, count_short. destruct s as [|c s]; [discriminate|].
  destruct (Z.gtb_spec (Z.of_nat (String.length (String c s))) int_max_str_digits)
    as [_ | Hle]; [discriminate | intros _; exact Hle].
Qed.

Ltac step_bind :=
  match goal with
  | |- context [Re.option_bind ?o _] =>
      lazymatch type of o with
      | option (_ * _) =>
          let E := fresh "E" in
          destruct o as [[? ?]|] eqn:E; cbn [Re.option_bind]; [|discriminate]
      | _ =>
          let E := fresh "E" in
          destruct o as [?|] eqn:E; cbn [Re.option_bind]; [|discriminate]
      end
  end.

(** The count groups of a match are digit strings. *)
Lemma match_here_digits s m :
  Regex.match_here s = Some m ->
  digits (Re.n_partial m) /\ digits (Re.n_binaries m) /\ digits (Re.n_total m).
Proof.
  unfold Regex.match_here. repeat step_bind.
  intros [= <-]. simpl.
  repeat split;
    match goal with
    | H : Re.one_or_more Re.digit _ = Some (?m, _) |- _ ?m =>
        exact (proj1 (one_or_more_digits _ _ _ H))
    | H : Re.one_or_more Re.digit _ = Some (?m, _) |- all_in _ ?m = true =>
        exact (proj2 (one_or_more_digits _ _ _ H))
    | H : Re.one_or_more Re.digit _ = Some (?m, _) |- ?m <> _ =>
        exact (proj1 (one_or_more_digits _ _ _ H))
    end.
Qed.

Lemma search_digits line m :
  Regex.search line = Some m ->
  digits (Re.n_partial m) /\ digits (Re.n_binaries m) /\ digits (Re.n_total m).
Proof.
  induction line as [|c line IH]; cbn [Regex.search].
  - destruct (Regex.match_here "") eqn:E; [|discriminate].
    intros [= <-]. now apply match_here_digits in E.
  - destruct (Regex.match_here (String c line)) eqn:E; [|exact IH].
    intros [= <-]. now apply match_here_digits in E.
Qed.

(** One round of [for tag in TAGS]: the sample goes to the end of the
    tag's series of the repository, created from the factory when new. *)
Lemma record_tag_ok m name dt (repo_info : Dict.t InfoDict)
      tag text value info series :
  Re.group m tag = Ok text ->
  int text = Ok value ->
  info = match Dict.get name repo_info with
         | Some i => i
         | None => default_info
         end ->
  Dict.get tag info = Some series ->
  record_tag m name dt repo_info tag
  = Ok (Dict.set name (Dict.set tag (series ++ [(dt, value)]) info) repo_info).
Proof.
  intros Hg Hi Hinfo Hs. unfold record_tag.
  rewrite Hg; cbn [bind]. rewrite Hi; cbn [bind].
  unfold Dict.default_getitem.
  destruct (Dict.get name repo_info) eqn:E; subst info;
    unfold Dict.getitem; rewrite Hs; cbn [bind]; [reflexivity|].
  now rewrite set_set.
Qed.

(** The three rounds together. *)
Lemma record_tags_ok m name dt (repo_info : Dict.t InfoDict) p b t vp vb vt :
  int (Re.n_partial m) = Ok vp ->
  int (Re.n_binaries m) = Ok vb ->
  int (Re.n_total m) = Ok vt ->
  match Dict.get name repo_info with
  | Some i => i
  | None => default_info
  end = info_of p b t ->
  for_each (record_tag m name dt) TAGS repo_info
  = Ok (Dict.set name
                 (info_of (p ++ [(dt, vp)]) (b ++ [(dt, vb)]) (t ++ [(dt, vt)]))
                 repo_info).
Proof.
  intros Hp Hb Ht Hinfo. unfold TAGS. cbn [for_each].
  rewrite (record_tag_ok m name dt repo_info "n_partial"
             (Re.n_partial m) vp (info_of p b t) p);
    [| reflexivity | assumption | now rewrite Hinfo | reflexivity].
  cbn [bind].
  change (Dict.set "n_partial" (p ++ [(dt, vp)]) (info_of p b t))
    with (info_of (p ++ [(dt, vp)]) b t).
  rewrite (record_tag_ok m name dt _ "n_binaries"
             (Re.n_binaries m) vb (info_of (p ++ [(dt, vp)]) b t) b);
    [| reflexivity | assumption | now rewrite get_set_eq | reflexivity].
  cbn [bind]. rewrite set_set.
  change (Dict.set "n_binaries" (b ++ [(dt, vb)]) (info_of (p ++ [(dt, vp)]) b t))
    with (info_of (p ++ [(dt, vp)]) (b ++ [(dt, vb)]) t).
  rewrite (record_tag_ok m name dt _ "n_total"
             (Re.n_total m) vt
             (info_of (p ++ [(dt, vp)]) (b ++ [(dt, vb)]) t) t);
    [| reflexivity | assumption | now rewrite get_set_eq | reflexivity].
  cbn [bind]. rewrite set_set. reflexivity.
Qed.

Lemma for_each_inv {A S} (P : S -> Prop) (body : S -> A -> result S) xs s :
  (forall s x, P s -> exists s', body s x = Ok s' /\ P s') ->
  P s ->
  exists s', for_each body xs s = Ok s' /\ P s'.
Proof.
  intros Hbody. revert s. induction xs as [|x xs IH]; intros s Hs; simpl.
  - eauto.
  - destruct (Hbody s x Hs) as (s' & -> & Hs'). simpl. now apply IH.
Qed.

Lemma parsed_info (repo_info : Dict.t InfoDict) name :
  parsed repo_info ->
  same_lines match Dict.get name repo_info with
             | Some i => i
             | None => default_info
             end.
Proof.
  intros (_ & Hall). destruct (Dict.get name repo_info) as [i|] eqn:E.
  - exact (proj1 (get_Forall _ _ _ _ Hall E)).
  - exists [], [], []. repeat split.
Qed.

Lemma for_each_keeps {A S} (P : S -> Prop) (body : S -> A -> result S) xs s s' :
  (forall s x s', P s -> body s x = Ok s' -> P s') ->
  P s ->
  for_each body xs s = Ok s' ->
  P s'.
Proof.
  intros Hbody. revert s. induction xs as [|x xs IH]; intros s Hs; simpl.
  - now intros [= <-].
  - destruct (body s x) as [s1|e] eqn:E; cbn [bind]; [|discriminate].
    apply IH. exact (Hbody s x s1 Hs E).
Qed.

Lemma for_each_returns {A S} (P : S -> Prop) (body : S -> A -> result S) xs s :
  (forall s x, In x xs -> P s -> exists s', body s x = Ok s' /\ P s') ->
  P s ->
  exists s', for_each body xs s = Ok s'.
Proof.
  revert s. induction xs as [|x xs IH]; intros s Hbody Hs; simpl.
  - eauto.
  - destruct (Hbody s x (or_introl eq_refl) Hs) as (s' & -> & Hs'). cbn [bind].
    apply IH; [|exact Hs']. intros s0 y Hy. apply Hbody. now right.
Qed.

(** A round that returns has converted its count. *)
Lemma record_tag_inv m name dt (repo_info : Dict.t InfoDict) tag text repo_info' :
  Re.group m tag = Ok text ->
  record_tag m name dt repo_info tag = Ok repo_info' ->
  exists value, int text = Ok value.
Proof.
  intros Hg. unfold record_tag. rewrite Hg. cbn [bind].
  destruct (int text) as [value|e]; [eauto | discriminate].
Qed.

(** The three rounds return only when the three counts convert. *)
Lemma record_tags_inv m name dt (repo_info repo_info' : Dict.t InfoDict) :
  for_each (record_tag m name dt) TAGS repo_info = Ok repo_info' ->
  converts m.
Proof.
  unfold TAGS. cbn [for_each].
  destruct (record_tag m name dt repo_info "n_partial") as [r1|e] eqn:E1;
    cbn [bind]; [|discriminate].
  destruct (record_tag m name dt r1 "n_binaries") as [r2|e] eqn:E2;
    cbn [bind]; [|discriminate].
  destruct (record_tag m name dt r2 "n_total") as [r3|e] eqn:E3;
    cbn [bind]; [|discriminate].
  intros _.
  destruct (record_tag_inv _ _ _ _ _ _ _ (eq_refl : Re.group m "n_partial" = Ok _) E1)
    as (vp & Hvp).
  destruct (record_tag_inv _ _ _ _ _ _ _ (eq_refl : Re.group m "n_binaries" = Ok _) E2)
    as (vb & Hvb).
  destruct (record_tag_inv _ _ _ _ _ _ _ (eq_refl : Re.group m "n_total" = Ok _) E3)
    as (vt & Hvt).
  exists vp, vb, vt. auto.
Qed.

(** A matching line whose counts convert puts one sample at the end of
    each series of its repository. *)
Lemma record_line_match (repo_info : Dict.t InfoDict) line m vp vb vt :
  parsed repo_info ->
  Regex.search line = Some m ->
  int (Re.n_partial m) = Ok vp ->
  int (Re.n_binaries m) = Ok vb ->
  int (Re.n_total m) = Ok vt ->
  exists repo_info',
    record_line repo_info line = Ok repo_info' /\ parsed repo_info'.
Proof.
  intros Hp Hm Hvp Hvb Hvt. unfold record_line. rewrite Hm.
  change (Re.group m "repo_owner") with (Ok (Re.repo_owner m)).
  change (Re.group m "repo_name") with (Ok (Re.repo_name m)).
  change (Re.group m "date_time") with (Ok (Re.date_time m)).
  cbn [bind].
  set (name := (Re.repo_owner m ++ "/" ++ Re.repo_name m)%string).
  destruct (parsed_info repo_info name Hp) as (p & b & t & Hinfo & Hpb & Hbt).
  rewrite (record_tags_ok m name _ repo_info p b t vp vb vt Hvp Hvb Hvt Hinfo).
  eexists. split; [reflexivity|].
  destruct Hp as (Hwf & Hall). split; [now apply wf_set|].
  apply Forall_set; [assumption|]. simpl. split.
  - exists (p ++ [(Re.date_time m, vp)]), (b ++ [(Re.date_time m, vb)]),
      (t ++ [(Re.date_time m, vt)]).
    rewrite !map_app; simpl. repeat split; congruence.
  - intros [= H]. now destruct p.
Qed.

(** A line that [record_line] returns on either does not match, or has
    counts that convert. *)
Lemma record_line_converts (repo_info repo_info' : Dict.t InfoDict) line m :
  record_line repo_info line = Ok repo_info' ->
  Regex.search line = Some m ->
  converts m.
Proof.
  intros Hrun Hm. unfold record_line in Hrun. rewrite Hm in Hrun.
  change (Re.group m "repo_owner") with (Ok (Re.repo_owner m)) in Hrun.
  change (Re.group m "repo_name") with (Ok (Re.repo_name m)) in Hrun.
  change (Re.group m "date_time") with (Ok (Re.date_time m)) in Hrun.
  cbn [bind] in Hrun. exact (record_tags_inv _ _ _ _ _ Hrun).
Qed.

(** A line keeps the dictionary as log parsing builds it. *)
Lemma record_line_parsed (repo_info repo_info' : Dict.t InfoDict) line :
  parsed repo_info ->
  record_line repo_info line = Ok repo_info' ->
  parsed repo_info'.
Proof.
  intros Hp Hrun.
  destruct (Regex.search line) as [m|] eqn:Hm.
  - destruct (record_line_converts _ _ _ _ Hrun Hm) as (vp & vb & vt & Hvp & Hvb & Hvt).
    destruct (record_line_match _ _ _ _ _ _ Hp Hm Hvp Hvb Hvt) as (r & Hr & Hpr).
    congruence.
  - unfold record_line in Hrun. rewrite Hm in Hrun. now injection Hrun as <-.
Qed.

(** On a line whose counts are within the limit, [record_line] returns. *)
Lemma record_line_returns (repo_info : Dict.t InfoDict) line :
  parsed repo_info ->
  (forall m, Regex.search line = Some m ->
             count_short (Re.n_partial m)
             /\ count_short (Re.n_binaries m)
             /\ count_short (Re.n_total m)) ->
  exists repo_info',
    record_line repo_info line = Ok repo_info' /\ parsed repo_info'.
Proof.
  intros Hp Hshort.
  destruct (Regex.search line) as [m|] eqn:Hm.
  - destruct (search_digits _ _ Hm) as (Hdp & Hdb & Hdt).
    destruct (Hshort m eq_refl) as (Hsp & Hsb & Hst).
    destruct (int_digits _ Hdp Hsp) as (vp & Hvp).
    destruct (int_digits _ Hdb Hsb) as (vb & Hvb).
    destruct (int_digits _ Hdt Hst) as (vt & Hvt).
    exact (record_line_match _ _ _ _ _ _ Hp Hm Hvp Hvb Hvt).
  - exists repo_info. split; [|exact Hp]. unfold record_line. now rewrite Hm.
Qed.

Lemma parsed_empty : parsed [].
Proof. split; constructor. Qed.

(** What log parsing returns is a dictionary of aligned, non-empty
    series. *)
Lemma analyze_logs_parsed text repo_info :
  analyze_logs text = Ok repo_info -> parsed repo_info.
Proof.
  unfold analyze_logs.
  apply (for_each_keeps parsed record_line).
  - intros s x s' Hs Hrun. exact (record_line_parsed _ _ _ Hs Hrun).
  - exact parsed_empty.
Qed.

(** Log parsing returns on every text whose tracked counts are within
    the limit of [int]. *)
Lemma analyze_logs_returns text :
  counts_within_limit text -> exists repo_info, analyze_logs text = Ok repo_info.
Proof.
  intros Hlimit. unfold analyze_logs.
  apply (for_each_returns parsed record_line).
  - intros s line Hin Hs. apply record_line_returns; [exact Hs|].
    intros m Hm. exact (Hlimit line m Hin Hm).
  - exact parsed_empty.
Qed.

(** *** Latest samples *)

Lemma last_some {A} (xs : list A) : xs <> [] -> exists a, last xs = Ok a.
Proof.
  induction xs as [|x xs IH]; [congruence|]. intros _.
  destruct xs as [|y xs]; [now exists x|].
  destruct IH as (a & Ha); [discriminate|]. exists a. exact Ha.
Qed.

Lemma last_map {A B} (f : A -> B) (xs : list A) a :
  last xs = Ok a -> last (map f xs) = Ok (f a).
Proof.
  induction xs as [|x xs IH]; [discriminate|].
  destruct xs as [|y xs]; [intros [= ->]; reflexivity|].
  intros H. exact (IH H).
Qed.

Lemma last_same_time (s1 s2 : Series) a b :
  map fst s1 = map fst s2 -> last s1 = Ok a -> last s2 = Ok b -> fst a = fst b.
Proof.
  intros Hmap Ha Hb.
  apply (last_map fst) in Ha. apply (last_map fst) in Hb.
  rewrite Hmap in Ha. congruence.
Qed.

(** On samples of one timestamp the tuple order is the order of values. *)
Lemma tuple_lt_same_time (a b : string * Z) :
  fst a = fst b -> tuple_lt a b = (snd a <? snd b)%Z.
Proof.
  intros H. unfold tuple_lt. rewrite H, String.eqb_refl.
  destruct (Z.eqb_spec (snd a) (snd b)) as [-> | _]; [|reflexivity].
  symmetry. apply Z.ltb_irrefl.
Qed.

(** In an [InfoDict] of aligned series, each tag of [TAGS] has a series,
    and any two of them agree on the timestamps. *)
Lemma same_lines_tags (info : InfoDict) :
  same_lines info ->
  (forall tag, In tag TAGS -> exists series, Dict.get tag info = Some series)
  /\ (forall tag1 tag2 s1 s2,
        In tag1 TAGS -> In tag2 TAGS ->
        Dict.get tag1 info = Some s1 -> Dict.get tag2 info = Some s2 ->
        map fst s1 = map fst s2).
Proof.
  intros (p & b & t & -> & Hpb & Hbt). split.
  - intros tag [<- | [<- | [<- | []]]]; simpl; eauto.
  - intros tag1 tag2 s1 s2
      [<- | [<- | [<- | []]]] [<- | [<- | [<- | []]]]; simpl;
      intros [= <-] [= <-]; congruence.
Qed.

(** C10. Log parsing returns on every text whose tracked counts are
    within the limit of [int]; and in every mapping it returns, each
    repository has a series for each tag of [TAGS], any two of these
    series have the same length and the same timestamp at every index, so
    that the latest tuples of two tags compare as their values do. *)
Theorem analyze_logs_series_aligned :
  forall text,
    (counts_within_limit text ->
     exists repo_info, analyze_logs text = Ok repo_info)
    /\ forall repo_info,
        analyze_logs text = Ok repo_info ->
        forall repo info,
          Dict.get repo repo_info = Some info ->
          (forall tag, In tag TAGS ->
                       exists series, Dict.get tag info = Some series)
          /\ (forall tag1 tag2 s1 s2,
                In tag1 TAGS -> In tag2 TAGS ->
                Dict.get tag1 info = Some s1 ->
                Dict.get tag2 info = Some s2 ->
                length s1 = length s2
                /\ (forall i, nth_error (map fst s1) i = nth_error (map fst s2) i)
                /\ (forall a b,
                      last s1 = Ok a -> last s2 = Ok b ->
                      tuple_lt a b = (snd a <? snd b)%Z)).
Proof.
  intros text. split; [apply analyze_logs_returns|].
  intros repo_info Hrun.
  destruct (analyze_logs_parsed text repo_info Hrun) as (_ & Hall).
  intros repo info Hget.
  destruct (get_Forall _ _ _ _ Hall Hget) as (Hsame & _). simpl in Hsame.
  destruct (same_lines_tags info Hsame) as (Hhas & Hagree).
  split; [exact Hhas|].
  intros tag1 tag2 s1 s2 H1 H2 Hs1 Hs2.
  pose proof (Hagree tag1 tag2 s1 s2 H1 H2 Hs1 Hs2) as Hmap.
  split; [|split].
  - rewrite <- (length_map fst s1), <- (length_map fst s2). now rewrite Hmap.
  - intros i. now rewrite Hmap.
  - intros a b Ha Hb. apply tuple_lt_same_time.
    exact (last_same_time s1 s2 a b Hmap Ha Hb).
Qed.

Lemma analyze_logs_series_aligned_witness :
  exists repo_info info p t,
    analyze_logs Examples.log_line = Ok repo_info
    /\ Dict.get "foo/bar" repo_info = Some info
    /\ Dict.get "n_partial" info = Some p
    /\ Dict.get "n_total" info = Some t
    /\ length p = length t
    /\ tuple_lt ("2020-01-01 12:00:00", 2%Z) ("2020-01-01 12:00:00", 5%Z)
       = (2 <? 5)%Z.
Proof.
  assert (Hc : analyze_logs Examples.log_line = Ok Examples.log_line_series)
    by (vm_compute; reflexivity).
  destruct (analyze_logs_series_aligned Examples.log_line) as (_ & Hall).
  destruct (Hall _ Hc "foo/bar" _ eq_refl) as (_ & Hpair).
  destruct (Hpair "n_partial" "n_total" _ _
              (or_introl eq_refl) (or_intror (or_intror (or_introl eq_refl)))
              eq_refl eq_refl) as (Hlen & _ & Hlt).
  exists Examples.log_line_series. do 3 eexists.
  split; [exact Hc|].
  split; [reflexivity|]. split; [reflexivity|]. split; [reflexivity|].
  split; [exact Hlen|].
  exact (Hlt _ _ eq_refl eq_refl).
Defined.

End ParseFacts.

(* ================================================================= *)
(** * Properties of the sampler *)

Module SamplerFacts.

Import DictFacts Notions ParseFacts.

Lemma latest_in_some (info : InfoDict) tag value :
  latest_in info tag = Some value ->
  exists series time,
    Dict.get tag info = Some series /\ last series = Ok (time, value).
Proof.
  unfold latest_in.
  destruct (Dict.get tag info) as [series|]; [|discriminate].
  destruct (last series) as [[time v]|] eqn:E; [|discriminate].
  intros [= <-]. eauto.
Qed.

(** On aligned, non-empty series the condition of the comprehension
    returns, and says whether the latest [n_partial] value is below the
    latest [n_total] value. *)
Lemma has_fail_parsed (info : InfoDict) :
  same_lines info ->
  Dict.get "n_partial" info <> Some [] ->
  has_fail info = Ok (fails info)
  /\ exists partial total,
      latest_in info "n_partial" = Some partial
      /\ latest_in info "n_total" = Some total.
Proof.
  intros (p & b & t & -> & Hpb & Hbt) Hne. unfold info_of in *. simpl in Hne.
  assert (Hp : p <> []) by (intros ->; now apply Hne).
  assert (Ht : t <> []).
  { intros ->. simpl in Hbt. destruct b; [|discriminate].
    simpl in Hpb. destruct p; [congruence | discriminate]. }
  destruct (last_some p Hp) as (a & Ha).
  destruct (last_some t Ht) as (c & Hc).
  assert (Htime : fst a = fst c).
  { apply (last_same_time p t); congruence. }
  unfold has_fail, fails, latest_in, Dict.getitem. simpl.
  rewrite Ha, Hc. cbn [bind].
  rewrite (tuple_lt_same_time a c Htime).
  destruct a as [ta va], c as [tc vc]. simpl. eauto.
Qed.

Lemma repos_with_fail_from (l : Dict.t InfoDict) (acc : list string) :
  Forall (fun kv => same_lines (snd kv)
                    /\ Dict.get "n_partial" (snd kv) <> Some []) l ->
  for_each
    (fun acc '(repo, info) =>
       fail <- has_fail info ;;
       Ok (if fail : bool then acc ++ [repo] else acc))
    l acc
  = Ok (acc ++ map fst (filter (fun kv => fails (snd kv)) l)).
Proof.
  intros Hall. revert acc.
  induction Hall as [|[repo info] l (Hs & Hne) Hall IH]; intros acc; simpl.
  - now rewrite app_nil_r.
  - simpl in Hs, Hne.
    destruct (has_fail_parsed info Hs Hne) as (-> & _). cbn [bind].
    rewrite IH. destruct (fails info); simpl; [|reflexivity].
    now rewrite <- app_assoc.
Qed.

(** On what log parsing returns, the comprehension is a filter. *)
Lemma repos_with_fail_parsed (repo_info : Dict.t InfoDict) :
  parsed repo_info ->
  repos_with_fail repo_info
  = Ok (map fst (filter (fun kv => fails (snd kv)) repo_info)).
Proof.
  intros (_ & Hall). unfold repos_with_fail, Dict.items.
  now rewrite repos_with_fail_from.
Qed.

Lemma fails_spec (info : InfoDict) :
  fails info = true
  <-> exists partial total,
      latest_in info "n_partial" = Some partial
      /\ latest_in info "n_total" = Some total
      /\ (partial < total)%Z.
Proof.
  unfold fails. split.
  - destruct (latest_in info "n_partial") as [partial|]; [|discriminate].
    destruct (latest_in info "n_total") as [total|]; [|discriminate].
    intros H. apply Z.ltb_lt in H. eauto.
  - intros (partial & total & -> & -> & H). now apply Z.ltb_lt.
Qed.

(** Membership in the filtered list of repositories. *)
Lemma population_spec (repo_info : Dict.t InfoDict) repo :
  parsed repo_info ->
  In repo (map fst (filter (fun kv => fails (snd kv)) repo_info))
  <-> exists partial total,
      latest repo_info repo "n_partial" = Some partial
      /\ latest repo_info repo "n_total" = Some total
      /\ (partial < total)%Z.
Proof.
  intros (Hwf & _). unfold latest. split.
  - intros Hin. apply in_map_iff in Hin.
    destruct Hin as ([repo' info] & Heq & Hin). simpl in Heq. subst repo'.
    apply filter_In in Hin. destruct Hin as (Hin & Hf). simpl in Hf.
    rewrite (in_get _ _ _ Hwf Hin). now apply fails_spec.
  - intros (partial & total & Hp & Ht & Hlt).
    destruct (Dict.get repo repo_info) as [info|] eqn:E; [|discriminate].
    apply in_map_iff. exists (repo, info). split; [reflexivity|].
    apply filter_In. split; [now apply get_some_in|].
    simpl. apply fails_spec. eauto.
Qed.

Lemma population_nodup (repo_info : Dict.t InfoDict) :
  parsed repo_info ->
  NoDup (map fst (filter (fun kv => fails (snd kv)) repo_info)).
Proof. intros (Hwf & _). now apply (wf_filter _ _ Hwf). Qed.

(** C5. Log parsing returns on every text whose tracked counts are
    within the limit of [int]; on every mapping it returns, the
    comprehension of [main] returns; every repository of the mapping has
    a latest [n_partial] and a latest [n_total] sample; and a repository
    is in the candidate list exactly when its latest [n_partial] value is
    below its latest [n_total] value. *)
Theorem candidate_population :
  forall text,
    (counts_within_limit text ->
     exists repo_info, analyze_logs text = Ok repo_info)
    /\ forall repo_info,
        analyze_logs text = Ok repo_info ->
        exists population,
          repos_with_fail repo_info = Ok population
          /\ (forall repo,
                In repo (Dict.keys repo_info) ->
                exists partial total,
                  latest repo_info repo "n_partial" = Some partial
                  /\ latest repo_info repo "n_total" = Some total)
          /\ (forall repo,
                In repo population
                <-> exists partial total,
                    latest repo_info repo "n_partial" = Some partial
                    /\ latest repo_info repo "n_total" = Some total
                    /\ (partial < total)%Z).
Proof.
  intros text. split; [apply analyze_logs_returns|].
  intros repo_info Hrun.
  pose proof (analyze_logs_parsed text repo_info Hrun) as Hp.
  eexists.
  split; [now apply repos_with_fail_parsed|]. split.
  - intros repo Hin. unfold latest.
    destruct (Dict.get repo repo_info) as [info|] eqn:E.
    + destruct Hp as (_ & Hall).
      destruct (get_Forall _ _ _ _ Hall E) as (Hs & Hne).
      exact (proj2 (has_fail_parsed info Hs Hne)).
    + apply get_none_keys in E. contradiction.
  - intros repo. now apply population_spec.
Qed.

Lemma candidate_population_witness :
  exists repo_info population,
    analyze_logs Examples.log_line = Ok repo_info
    /\ repos_with_fail repo_info = Ok population
    /\ latest repo_info "foo/bar" "n_partial" = Some 2%Z
    /\ latest repo_info "foo/bar" "n_total" = Some 5%Z
    /\ In "foo/bar" population.
Proof.
  assert (Hc : analyze_logs Examples.log_line = Ok Examples.log_line_series)
    by (vm_compute; reflexivity).
  destruct (candidate_population Examples.log_line) as (_ & Hall).
  destruct (Hall _ Hc) as (population & Hpop & _ & Hin).
  exists Examples.log_line_series, population.
  split; [exact Hc|]. split; [exact Hpop|].
  split; [reflexivity|]. split; [reflexivity|].
  apply Hin. exists 2%Z, 5%Z. repeat split; reflexivity.
Defined.

(** *** Drawing and filtering *)

Lemma index_in_range (population : list string) x :
  x < length population -> index population x = Ok (nth x population "").
Proof. intros H. unfold index. now rewrite (nth_error_nth' _ "" H). Qed.

Lemma pick_from (population : list string) samples acc :
  Forall (fun x => x < length population) samples ->
  for_each (pick population) samples acc
  = Ok (acc ++ map (fun x => nth x population "") samples).
Proof.
  intros Hall. revert acc.
  induction Hall as [|x samples Hx Hall IH]; intros acc; simpl.
  - now rewrite app_nil_r.
  - unfold pick at 1. rewrite (index_in_range _ _ Hx). cbn [bind].
    rewrite IH. now rewrite <- app_assoc.
Qed.

(** Distinct indices into a list without repetition pick distinct
    elements. *)
Lemma drawn_nodup (population : list string) samples :
  NoDup population ->
  NoDup samples ->
  Forall (fun x => x < length population) samples ->
  NoDup (map (fun x => nth x population "") samples).
Proof.
  intros Hpop Hnd Hall.
  induction Hnd as [|x samples Hnotin Hnd IH]; simpl; [constructor|].
  inversion Hall as [|? ? Hx Hrest]; subst.
  constructor; [|now apply IH].
  intros Hin. apply in_map_iff in Hin. destruct Hin as (y & Heq & Hy).
  rewrite Forall_forall in Hrest.
  assert (y = x).
  { apply (proj1 (NoDup_nth population "") Hpop); auto. }
  congruence.
Qed.

Lemma keep_or_skip_ok (repo_info : Dict.t InfoDict) kept printed repo total :
  latest repo_info repo "n_total" = Some total ->
  keep_or_skip repo_info (kept, printed) repo
  = Ok (kept ++ (if within_ceiling repo_info repo then [repo] else []),
        printed ++ skip_lines repo_info repo).
Proof.
  intros Hl. unfold within_ceiling, skip_lines. rewrite Hl.
  unfold latest in Hl.
  destruct (Dict.get repo repo_info) as [info|] eqn:E; [|discriminate].
  destruct (latest_in_some _ _ _ Hl) as (series & time & Hs & Hlast).
  unfold keep_or_skip, Dict.default_getitem, Dict.getitem.
  rewrite E, Hs. cbn [bind]. rewrite Hlast. cbn [bind].
  destruct (total <=? 50)%Z; now rewrite app_nil_r.
Qed.

Lemma repo_samples_from (repo_info : Dict.t InfoDict) drawn kept printed :
  (forall repo, In repo drawn ->
                exists total, latest repo_info repo "n_total" = Some total) ->
  for_each (keep_or_skip repo_info) drawn (kept, printed)
  = Ok (kept ++ filter (within_ceiling repo_info) drawn,
        printed ++ flat_map (skip_lines repo_info) drawn).
Proof.
  revert kept printed.
  induction drawn as [|repo drawn IH]; intros kept printed Hall;
    cbn [for_each filter flat_map].
  - now rewrite !app_nil_r.
  - destruct (Hall repo (or_introl eq_refl)) as (total & Hl).
    rewrite (keep_or_skip_ok _ _ _ _ _ Hl). cbn [bind].
    rewrite IH by (intros r Hr; apply Hall; now right).
    rewrite <- !app_assoc.
    destruct (within_ceiling repo_info repo); reflexivity.
Qed.

Lemma within_ceiling_spec (repo_info : Dict.t InfoDict) repo :
  within_ceiling repo_info repo = true
  <-> exists total,
      latest repo_info repo "n_total" = Some total /\ (total <= 50)%Z.
Proof.
  unfold within_ceiling. split.
  - destruct (latest repo_info repo "n_total") as [total|]; [|discriminate].
    intros H. apply Z.leb_le in H. eauto.
  - intros (total & -> & H). now apply Z.leb_le.
Qed.

Lemma skip_lines_spec (repo_info : Dict.t InfoDict) repo line :
  In line (skip_lines repo_info repo)
  <-> exists total,
      latest repo_info repo "n_total" = Some total
      /\ (50 < total)%Z
      /\ line = (repo ++ " contains " ++ str total ++ " Makefiles, skipping")%string.
Proof.
  unfold skip_lines. split.
  - destruct (latest repo_info repo "n_total") as [total|]; [|intros []].
    destruct (Z.leb_spec total 50); [intros [] | intros [<- | []]; eauto].
  - intros (total & -> & Hlt & ->).
    destruct (Z.leb_spec total 50); [lia | now left].
Qed.

Section Sampler.

(** [np.random.choice(a, size, replace=False)] as numpy documents it:
    [size] distinct indices below [a], or a [ValueError] when the sample
    is larger than the population. *)
Variable np_random_choice : nat -> nat -> result (list nat).

Hypothesis choice_contract :
  forall a size,
    match np_random_choice a size with
    | Ok samples =>
        size <= a /\ length samples = size /\ NoDup samples
        /\ Forall (fun x => x < a) samples
    | Raise e => a < size /\ exists msg, e = ValueError msg
    end.

(** C6. Log parsing returns on every text whose tracked counts are
    within the limit of [int]. On the mapping it returns: with fewer than
    100 candidates the sampler raises the [ValueError] of the draw.
    Otherwise it returns: the 100 repositories drawn are distinct, each
    has its latest [n_partial] value below its latest [n_total] value, the
    final sample is the drawn repositories whose latest [n_total] is at
    most 50, and one line is printed for each drawn repository whose
    latest [n_total] is above 50. *)
Theorem sampler_outcome :
  forall text,
  (counts_within_limit text ->
   exists repo_info, analyze_logs text = Ok repo_info)
  /\ forall repo_info,
  analyze_logs text = Ok repo_info ->
  exists population,
    repos_with_fail repo_info = Ok population
    /\ (length population < 100 ->
        exists msg, sampler np_random_choice text = Raise (ValueError msg))
    /\ (100 <= length population ->
        exists drawn kept printed,
          _repo_samples np_random_choice population = Ok drawn
          /\ sampler np_random_choice text = Ok (kept, printed)
          /\ length drawn = 100
          /\ NoDup drawn
          /\ (forall repo,
                In repo drawn ->
                exists partial total,
                  latest repo_info repo "n_partial" = Some partial
                  /\ latest repo_info repo "n_total" = Some total
                  /\ (partial < total)%Z)
          /\ (forall repo,
                In repo kept
                <-> In repo drawn
                    /\ exists total,
                        latest repo_info repo "n_total" = Some total
                        /\ (total <= 50)%Z)
          /\ (forall line,
                In line printed
                <-> exists repo total,
                    In repo drawn
                    /\ latest repo_info repo "n_total" = Some total
                    /\ (50 < total)%Z
                    /\ line = (repo ++ " contains " ++ str total
                                    ++ " Makefiles, skipping")%string)).
Proof.
  intros text. split; [apply analyze_logs_returns|].
  intros repo_info Hrun.
  pose proof (analyze_logs_parsed text repo_info Hrun) as Hp.
  pose proof (repos_with_fail_parsed repo_info Hp) as Hpop.
  set (population := map fst (filter (fun kv => fails (snd kv)) repo_info)) in *.
  exists population.
  split; [exact Hpop|].
  unfold sampler. rewrite Hrun. cbn [bind]. rewrite Hpop. cbn [bind].
  unfold _repo_samples.
  pose proof (choice_contract (length population) 100) as Hc.
  destruct (np_random_choice (length population) 100) as [samples|e]; cbn [bind].
  - destruct Hc as (Hle & Hlen & Hnd & Hrange).
    split; [intros Hlt; lia|]. intros _.
    rewrite (pick_from _ _ _ Hrange). cbn [bind app].
    set (drawn := map (fun x => nth x population "") samples).
    assert (Hdrawn : forall repo, In repo drawn -> In repo population).
    { intros repo Hin. apply in_map_iff in Hin. destruct Hin as (x & <- & Hx).
      apply nth_In. rewrite Forall_forall in Hrange. now apply Hrange. }
    assert (Hfail : forall repo,
               In repo drawn ->
               exists partial total,
                 latest repo_info repo "n_partial" = Some partial
                 /\ latest repo_info repo "n_total" = Some total
                 /\ (partial < total)%Z).
    { intros repo Hin. apply (population_spec repo_info repo Hp).
      now apply Hdrawn. }
    assert (Htotal : forall repo,
               In repo drawn ->
               exists total, latest repo_info repo "n_total" = Some total).
    { intros repo Hin. destruct (Hfail repo Hin) as (_ & total & _ & Ht & _).
      eauto. }
    unfold repo_samples. rewrite (repo_samples_from _ _ _ _ Htotal). cbn [app].
    exists drawn, (filter (within_ceiling repo_info) drawn),
      (flat_map (skip_lines repo_info) drawn).
    split; [reflexivity|]. split; [reflexivity|].
    split; [unfold drawn; now rewrite length_map|].
    split; [apply drawn_nodup; auto; now apply population_nodup|].
    split; [exact Hfail|]. split.
    + intros repo. rewrite filter_In, within_ceiling_spec. reflexivity.
    + intros line. rewrite in_flat_map. split.
      * intros (repo & Hin & Hline). apply skip_lines_spec in Hline.
        destruct Hline as (total & Hl & Hlt & ->). eauto 6.
      * intros (repo & total & Hin & Hl & Hlt & ->).
        exists repo. split; [assumption|]. apply skip_lines_spec. eauto.
  - destruct Hc as (Hlt & msg & ->).
    split; [intros _; now exists msg | intros Hle; lia].
Qed.

End Sampler.

Lemma first_indices_contract :
  forall a size,
    match Examples.first_indices a size with
    | Ok samples =>
        size <= a /\ length samples = size /\ NoDup samples
        /\ Forall (fun x => x < a) samples
    | Raise e => a < size /\ exists msg, e = ValueError msg
    end.
Proof.
  intros a size. unfold Examples.first_indices.
  destruct (Nat.leb_spec size a) as [Hle | Hlt].
  - split; [assumption|]. split; [apply length_seq|].
    split; [apply seq_NoDup|].
    apply Forall_forall. intros x Hx. apply in_seq in Hx. lia.
  - split; [assumption | eauto].
Defined.

Lemma sampler_outcome_witness :
  exists drawn kept printed,
    sampler Examples.first_indices Examples.hundred_log = Ok (kept, printed)
    /\ length drawn = 100
    /\ NoDup drawn
    /\ (forall repo, In repo kept -> In repo drawn).
Proof.
  destruct (sampler_outcome Examples.first_indices first_indices_contract
              Examples.hundred_log) as (Hret & Hall).
  destruct Hret as (repo_info & Hrun).
  { intros line m Hin Hm.
    assert (Hshort : forallb
              (fun l => match Regex.search l with
                        | Some m0 =>
                            (Z.of_nat (String.length (Re.n_partial m0)) <=? 4300)%Z
                            && (Z.of_nat (String.length (Re.n_binaries m0)) <=? 4300)%Z
                            && (Z.of_nat (String.length (Re.n_total m0)) <=? 4300)%Z
                        | None => true
                        end) (split newline Examples.hundred_log) = true)
      by (vm_compute; reflexivity).
    rewrite forallb_forall in Hshort. specialize (Hshort line Hin).
    rewrite Hm in Hshort.
    apply andb_prop in Hshort. destruct Hshort as (Hpb & Ht).
    apply andb_prop in Hpb. destruct Hpb as (Hp & Hb).
    unfold count_short, int_max_str_digits.
    apply Z.leb_le in Hp, Hb, Ht. auto. }
  destruct (Hall repo_info Hrun) as (population & Hpop & _ & Hbig).
  assert (Hc : exists population0,
             (repo_info0 <- analyze_logs Examples.hundred_log ;;
              repos_with_fail repo_info0) = Ok population0
             /\ length population0 = 100).
  { vm_compute. eexists. split; reflexivity. }
  rewrite Hrun in Hc. cbn [bind] in Hc. rewrite Hpop in Hc.
  destruct Hc as (population0 & Heq & Hlen).
  injection Heq as <-.
  destruct Hbig as (drawn & kept & printed & _ & Hs & Hd & Hnd & _ & Hkept & _).
  { rewrite Hlen. apply le_n. }
  exists drawn, kept, printed.
  split; [exact Hs|]. split; [exact Hd|]. split; [exact Hnd|].
  intros repo Hin. exact (proj1 (proj1 (Hkept repo) Hin)).
Defined.

End SamplerFacts.

(* ================================================================= *)
(** * The end-to-end log scenario *)

Module ScenarioFacts.

Import DictFacts Notions ParseFacts.

Lemma split_nonempty sep s : split sep s <> [].
Proof.
  destruct s as [|c s]; simpl; [discriminate|].
  destruct (Ascii.eqb c sep); [discriminate|].
  destruct (split sep s); discriminate.
Qed.

Lemma split_app_sep sep a b :
  split sep (a ++ String sep b) = split sep a ++ split sep b.
Proof.
  induction a as [|c a IH]; simpl.
  - now rewrite Ascii.eqb_refl.
  - destruct (Ascii.eqb c sep); [now rewrite IH|].
    rewrite IH. pose proof (split_nonempty sep a) as Hne.
    destruct (split sep a); [congruence | reflexivity].
Qed.

Lemma split_free sep s : free_of sep s = true -> split sep s = [s].
Proof.
  unfold free_of. induction s as [|c s IH]; simpl; [reflexivity|].
  intros H. apply andb_true_iff in H. destruct H as (Hc & Hs).
  apply negb_true_iff in Hc. rewrite Hc, (IH Hs). reflexivity.
Qed.

Lemma for_each_app {A S} (body : S -> A -> result S) xs ys s :
  for_each body (xs ++ ys) s
  = (s' <- for_each body xs s ;; for_each body ys s').
Proof.
  revert s. induction xs as [|x xs IH]; intros s; simpl; [reflexivity|].
  destruct (body s x); simpl; [apply IH | reflexivity].
Qed.

(** C8, as the code has it. The log of the scenario yields, for
    [foo/bar], one sample per tag of [TAGS] and no other tag; the
    timestamp of a sample is the text of the [date_time] group, which
    stops at the seconds; [n_success] is matched and recorded nowhere;
    and a line the pattern does not match leaves the mapping as it is,
    whether handed to the loop body or standing in the text. *)
Theorem analyze_logs_scenario :
  analyze_logs Examples.log_line
  = Ok [("foo/bar",
         [("n_partial", [("2020-01-01 12:00:00", 2%Z)]);
          ("n_binaries", [("2020-01-01 12:00:00", 4%Z)]);
          ("n_total", [("2020-01-01 12:00:00", 5%Z)])])]
  /\ (exists m,
        Regex.search Examples.log_line = Some m
        /\ Re.n_success m = "3"
        /\ Re.date_time m = "2020-01-01 12:00:00")
  /\ (forall repo_info line,
        Regex.search line = None -> record_line repo_info line = Ok repo_info)
  /\ (forall before line after,
        Regex.search line = None ->
        free_of newline line = true ->
        analyze_logs (before ++ String newline (line ++ String newline after))
        = analyze_logs (before ++ String newline after)).
Proof.
  split; [vm_compute; reflexivity|].
  split; [eexists; split; [vm_compute; reflexivity | split; reflexivity]|].
  assert (Hskip : forall repo_info line,
             Regex.search line = None -> record_line repo_info line = Ok repo_info).
  { intros repo_info line H. unfold record_line. now rewrite H. }
  split; [exact Hskip|].
  intros before line after Hnone Hfree. unfold analyze_logs.
  rewrite !split_app_sep, (split_free _ _ Hfree), !for_each_app.
  destruct (for_each record_line (split newline before) []) as [s'|e];
    cbn [bind]; [|reflexivity].
  cbn [for_each app]. now rewrite (Hskip s' line Hnone).
Qed.

Lemma analyze_logs_scenario_witness :
  Regex.search "make: *** [all] Error 2" = None
  /\ analyze_logs (Examples.log_line
                     ++ String newline ("make: *** [all] Error 2"
                                          ++ String newline Examples.log_line))
     = analyze_logs (Examples.log_line ++ String newline Examples.log_line).
Proof.
  split; [vm_compute; reflexivity|].
  apply (proj2 (proj2 (proj2 analyze_logs_scenario))); vm_compute; reflexivity.
Defined.

(** C8 as worded fails: the samples of the scenario do not carry the
    milliseconds. *)
Lemma analyze_logs_drops_milliseconds :
  ~ (exists repo_info info,
        analyze_logs Examples.log_line = Ok repo_info
        /\ Dict.get "foo/bar" repo_info = Some info
        /\ Dict.get "n_partial" info = Some [("2020-01-01 12:00:00,000", 2%Z)]
        /\ Dict.get "n_total" info = Some [("2020-01-01 12:00:00,000", 5%Z)]
        /\ Dict.get "n_binaries" info = Some [("2020-01-01 12:00:00,000", 4%Z)]).
Proof.
  intros (repo_info & info & Hrun & Hget & Hp & _).
  assert (Hc : analyze_logs Examples.log_line = Ok Examples.log_line_series)
    by (vm_compute; reflexivity).
  rewrite Hc in Hrun. injection Hrun as <-.
  simpl in Hget. injection Hget as <-. simpl in Hp. discriminate.
Qed.

End ScenarioFacts.

(* ================================================================= *)
(** * Properties of the Makefile report *)

Module ReportFacts.

Lemma success_makefiles_from owner name (l : list Makefile.RepoMakefileEntry)
      (acc : set string) d :
  In d (fold_left
          (fun acc makefile_info =>
             set_add string_dec
                     (stored_directory owner name
                                       (Makefile.directory makefile_info))
                     acc)
          l acc)
  <-> In d acc
      \/ exists mk, In mk l
                    /\ d = stored_directory owner name (Makefile.directory mk).
Proof.
  revert acc. induction l as [|mk l IH]; intros acc; simpl.
  - split; [auto | intros [H | (mk & [] & _)]; exact H].
  - rewrite IH, set_add_iff. split.
    + intros [[-> | H] | (mk' & Hin & ->)]; eauto.
    + intros [H | (mk' & [<- | Hin] & ->)]; eauto.
Qed.

(** A directory is in [success_makefiles] exactly when it is the rewritten
    form of a stored Makefile directory. *)
Lemma success_makefiles_spec owner name entry d :
  set_mem string_dec d (success_makefiles owner name entry) = true
  <-> exists mk, In mk (makefiles entry)
                 /\ d = stored_directory owner name (Makefile.directory mk).
Proof.
  unfold success_makefiles. split.
  - intros H. apply set_mem_correct1 in H.
    apply success_makefiles_from in H. destruct H as [[] | H]. exact H.
  - intros H. apply set_mem_correct2. apply success_makefiles_from. now right.
Qed.

Lemma Forall2_map_r {A B} (P : A -> B -> Prop) (f : A -> B) (l : list A) :
  (forall x, In x l -> P x (f x)) -> Forall2 P l (map f l).
Proof.
  induction l as [|x l IH]; simpl; intros H; constructor; auto.
Qed.

(** C3, as the code has it. For a repository name [owner/name] with a
    stored entry, the report has one row per discovered path, in order:
    the repository, the path without its first segment, and a status that
    is empty exactly when that shortened path equals, for some stored
    Makefile, [owner/name/] followed by the stored directory without its
    first four segments, and ["Failed"] otherwise; the store is not
    written. So a stored ["/usr/src/repo/src/a"] for [foo/bar] and the
    discovered paths [test_compile/foo/bar/src/a] and
    [test_compile/foo/bar/src/b] give the rows
    [(foo/bar, foo/bar/src/a, "")] and [(foo/bar, foo/bar/src/b, Failed)]. *)
Theorem report_repo_rows :
  (forall (find_makefiles : string -> list string) (c : Mongo.Collection)
          repo owner name entry,
      split "/" repo = [owner; name] ->
      Database.get owner name c = (Ok (Some entry), c) ->
      exists rows,
        report_repo find_makefiles repo c = (Ok rows, c)
        /\ Forall2
             (fun makefile (row : Row) =>
                let '(row_repo, directory, status) := row in
                row_repo = repo
                /\ directory = found_directory makefile
                /\ ((status = ""
                     /\ exists mk,
                         In mk (makefiles entry)
                         /\ directory
                            = stored_directory owner name (Makefile.directory mk))
                    \/ (status = "Failed"
                        /\ ~ exists mk,
                            In mk (makefiles entry)
                            /\ directory
                               = stored_directory owner name
                                                  (Makefile.directory mk))))
             (find_makefiles (os_path_join "test_compile" repo)) rows)
  /\ report_repo
       (fun _ => ["test_compile/foo/bar/src/a"; "test_compile/foo/bar/src/b"])
       "foo/bar" (Examples.store_with "/usr/src/repo/src/a")
     = (Ok [("foo/bar", "foo/bar/src/a", ""); ("foo/bar", "foo/bar/src/b", "Failed")],
        Examples.store_with "/usr/src/repo/src/a").
Proof.
  split; [|vm_compute; reflexivity].
  intros find_makefiles c repo owner name entry Hsplit Hget.
  unfold report_repo. rewrite Hsplit. cbn [unpack2]. rewrite Hget.
  eexists. split; [reflexivity|].
  apply Forall2_map_r. intros makefile _. cbn zeta.
  split; [reflexivity|]. split; [reflexivity|].
  destruct (set_mem string_dec (found_directory makefile)
                    (success_makefiles owner name entry)) eqn:E.
  - left. split; [reflexivity|]. now apply success_makefiles_spec.
  - right. split; [reflexivity|]. intros H.
    apply success_makefiles_spec in H. congruence.
Qed.

Lemma report_repo_rows_witness :
  split "/" "foo/bar" = ["foo"; "bar"]
  /\ exists entry rows,
      Database.get "foo" "bar" (Examples.store_with "/usr/src/repo/src/a")
      = (Ok (Some entry), Examples.store_with "/usr/src/repo/src/a")
      /\ report_repo (fun _ => ["test_compile/foo/bar/src/a"]) "foo/bar"
                     (Examples.store_with "/usr/src/repo/src/a")
         = (Ok rows, Examples.store_with "/usr/src/repo/src/a")
      /\ length rows = 1.
Proof.
  split; [reflexivity|].
  destruct (proj1 report_repo_rows
              (fun _ => ["test_compile/foo/bar/src/a"])
              (Examples.store_with "/usr/src/repo/src/a")
              "foo/bar" "foo" "bar" _ eq_refl eq_refl) as (rows & Hrun & Hrows).
  eexists. exists rows. split; [reflexivity|]. split; [exact Hrun|].
  inversion Hrows as [|? ? ? ? _ Hrest]; subst.
  inversion Hrest; subst. reflexivity.
Defined.

(** C3 as worded fails: with the stored directory ["src/a"] and the
    discovered directories ["src/a"] and ["src/b"] for [foo/bar], the rows
    are [(foo/bar, a, Failed)] and [(foo/bar, b, Failed)]. *)
Lemma report_repo_plain_directories :
  report_repo (fun _ => ["src/a"; "src/b"]) "foo/bar" (Examples.store_with "src/a")
  = (Ok [("foo/bar", "a", "Failed"); ("foo/bar", "b", "Failed")],
     Examples.store_with "src/a")
  /\ fst (report_repo (fun _ => ["src/a"; "src/b"]) "foo/bar"
                      (Examples.store_with "src/a"))
     <> Ok [("foo/bar", "src/a", ""); ("foo/bar", "src/b", "Failed")].
Proof.
  split; [vm_compute; reflexivity|]. vm_compute. discriminate.
Qed.

(** C4, where the code departs from it. For a repository name
    [owner/name] without an entry in the store, [entry['makefiles']]
    raises [TypeError] on [None]: no row is written for it. *)
Theorem report_repo_without_entry :
  forall (find_makefiles : string -> list string) (c : Mongo.Collection)
         repo owner name,
    split "/" repo = [owner; name] ->
    Database.get owner name c = (Ok None, c) ->
    report_repo find_makefiles repo c
    = (Raise (TypeError "'NoneType' object is not subscriptable"), c).
Proof.
  intros find_makefiles c repo owner name Hsplit Hget.
  unfold report_repo. rewrite Hsplit. cbn [unpack2]. now rewrite Hget.
Qed.

Lemma report_repo_without_entry_witness :
  split "/" "foo/bar" = ["foo"; "bar"]
  /\ Database.get "foo" "bar" [] = (Ok None, [])
  /\ report_repo (fun _ => ["test_compile/foo/bar/src/a"]) "foo/bar" []
     = (Raise (TypeError "'NoneType' object is not subscriptable"), []).
Proof.
  split; [reflexivity|]. split; [reflexivity|].
  apply (report_repo_without_entry _ [] "foo/bar" "foo" "bar"); reflexivity.
Defined.

End ReportFacts.

(* ================================================================= *)
(** * Invariants and composition of the store operations *)

Module StoreFacts.

Import Database DatabaseFacts StoreNotions.

Lemma find_one_app (flt : RepoEntry -> bool) (c c' : Mongo.Collection) :
  Mongo.find_one flt (c ++ c')
  = match Mongo.find_one flt c with
    | Some d => Some d
    | None => Mongo.find_one flt c'
    end.
Proof.
  unfold Mongo.find_one. induction c as [|d c IH]; simpl; [reflexivity|].
  destruct (flt d); [reflexivity | exact IH].
Qed.

(** What [add_repo] does to the store: it leaves it as it is, or appends
    the new record. *)
Lemma add_repo_cases owner name clone_ok size (c : Mongo.Collection) :
  (exists res, add_repo owner name clone_ok size c = (res, c))
  \/ (Mongo.find_one (by_key owner name) c = None
      /\ add_repo owner name clone_ok size c
         = (Ok tt, c ++ [new_record owner name clone_ok size (Mongo.fresh_id c)])).
Proof.
  destruct (add_repo_outcomes owner name clone_ok size c)
    as [(e & _ & H) | [(_ & _ & H) | (Hnone & _ & H)]]; eauto.
Qed.

(** What [update_makefile] does to a store of distinct [_id]s. *)
Lemma update_makefile_cases owner name mks ign (c : Mongo.Collection) :
  NoDup (map _id c) ->
  (exists ex, update_makefile owner name mks ign c = (Raise ex, c))
  \/ (exists pre e post,
        c = pre ++ e :: post
        /\ Forall (fun d => by_key owner name d = false) pre
        /\ by_key owner name e = true
        /\ (makefiles e = [] \/ length (makefiles e) = length mks \/ ign = true)
        /\ update_makefile owner name mks ign c
           = (Ok tt, pre ++ set_makefiles mks e :: post)).
Proof.
  intros Hnd. unfold update_makefile, DBMonad.bind, get, find_one.
  destruct (Mongo.find_one (by_key owner name) c) as [e|] eqn:Hf;
    [|left; eexists; reflexivity].
  destruct (negb ign && negb (int_in (len (makefiles e)) [0%Z; len mks])) eqn:Hg;
    [left; eexists; reflexivity|].
  right. destruct (find_one_split _ _ _ Hf) as (pre & post & Hc & Hk & Hpre).
  exists pre, e, post. split; [exact Hc|]. split; [exact Hpre|].
  split; [exact Hk|]. split.
  - destruct ign; [auto|].
    destruct (Nat.eq_dec (length (makefiles e)) (length mks)) as [? | Hlen]; [auto|].
    destruct (makefiles e) as [|m l] eqn:Hm; [auto|].
    exfalso.
    assert (Ht : negb false && negb (int_in (len (m :: l)) [0%Z; len mks]) = true).
    { apply length_guard. split; [discriminate | auto]. }
    congruence.
  - unfold update_one. subst c. rewrite update_one_by_id by assumption.
    reflexivity.
Qed.

Lemma key_of_by_key owner name d :
  by_key owner name d = true <-> key_of d = (owner, name).
Proof.
  rewrite by_key_true. unfold key_of. split.
  - intros (-> & ->). reflexivity.
  - intros [= -> ->]. auto.
Qed.

Lemma keys_in_place mks (pre post : Mongo.Collection) e :
  map key_of (pre ++ set_makefiles mks e :: post) = map key_of (pre ++ e :: post).
Proof. now rewrite !map_app. Qed.

Lemma ids_in_place mks (pre post : Mongo.Collection) e :
  map _id (pre ++ set_makefiles mks e :: post) = map _id (pre ++ e :: post).
Proof. now rewrite !map_app. Qed.

Lemma NoDup_snoc {A} (l : list A) (x : A) :
  NoDup l -> ~ In x l -> NoDup (l ++ [x]).
Proof.
  intros Hnd Hx. apply NoDup_rev in Hnd.
  rewrite <- (rev_involutive (l ++ [x])). apply NoDup_rev.
  rewrite rev_app_distr. simpl. constructor; [now rewrite <- in_rev | assumption].
Qed.

(** A step of the store: one [add_repo] or one [update_makefile]. *)
Lemma reachable_ind_cases (P : Mongo.Collection -> Prop) :
  P [] ->
  (forall c owner name clone_ok size,
      reachable c -> P c ->
      Mongo.find_one (by_key owner name) c = None ->
      P (c ++ [new_record owner name clone_ok size (Mongo.fresh_id c)])) ->
  (forall pre e post owner name mks,
      reachable (pre ++ e :: post) -> P (pre ++ e :: post) ->
      Forall (fun d => by_key owner name d = false) pre ->
      by_key owner name e = true ->
      P (pre ++ set_makefiles mks e :: post)) ->
  forall c, reachable c -> P c.
Proof.
  intros Hempty Hadd Hupd c Hr.
  induction Hr as [|c owner name clone_ok size Hr IH|c owner name mks ign Hr IH].
  - exact Hempty.
  - destruct (add_repo_cases owner name clone_ok size c)
      as [(res & ->) | (Hnone & ->)]; simpl; auto.
  - destruct (update_makefile_cases owner name mks ign c (reachable_unique_ids c Hr))
      as [(ex & ->) | (pre & e & post & Hc & Hpre & Hk & _ & ->)]; simpl; [exact IH|].
    subst c. eauto.
Qed.

(** X1. No reachable store holds two documents for one
    [(repo_owner, repo_name)]; so [get] returns a document exactly when
    the store holds it under that key. *)
Theorem reachable_keys_unique :
  forall c : Mongo.Collection,
    reachable c ->
    NoDup (map key_of c)
    /\ (forall owner name e,
           get owner name c = (Ok (Some e), c)
           <-> In e c /\ repo_owner e = owner /\ repo_name e = name).
Proof.
  intros c Hr.
  assert (Hnd : NoDup (map key_of c)).
  { induction Hr using reachable_ind_cases.
    - constructor.
    - rewrite map_app. simpl. apply NoDup_snoc; [assumption|].
      intros Hin. apply in_map_iff in Hin. destruct Hin as (d & Hk & Hd).
      apply find_one_none in H. rewrite Forall_forall in H.
      specialize (H d Hd). apply key_of_by_key in Hk. simpl in Hk. congruence.
    - now rewrite keys_in_place. }
  split; [exact Hnd|].
  intros owner name e. unfold get, find_one. split.
  - intros [= Hf]. destruct (find_one_split _ _ _ Hf) as (pre & post & -> & Hk & _).
    split; [apply in_or_app; right; now left | now apply by_key_true].
  - intros (Hin & Ho & Hn). f_equal. f_equal.
    assert (Hk : by_key owner name e = true) by (apply by_key_true; auto).
    destruct (Mongo.find_one (by_key owner name) c) as [e'|] eqn:Hf.
    + f_equal. destruct (find_one_split _ _ _ Hf) as (pre & post & Hc & Hk' & _).
      assert (Hin' : In e' c) by (subst c; apply in_or_app; right; now left).
      assert (Hkeys : key_of e' = key_of e).
      { apply key_of_by_key in Hk, Hk'. congruence. }
      clear - Hnd Hin Hin' Hkeys.
      induction c as [|d c IH]; [contradiction|].
      simpl in Hnd. inversion Hnd as [|? ? Hnotin Hnd']; subst.
      destruct Hin as [-> | Hin], Hin' as [-> | Hin']; auto.
      * exfalso. apply Hnotin. rewrite <- Hkeys. now apply in_map.
      * exfalso. apply Hnotin. rewrite Hkeys. now apply in_map.
    + apply find_one_none in Hf. rewrite Forall_forall in Hf.
      specialize (Hf e Hin). congruence.
Qed.

Lemma reachable_keys_unique_witness :
  reachable Examples.store_added
  /\ NoDup (map key_of Examples.store_added)
  /\ get "foo" "bar" Examples.store_added
     = (Ok (Some Examples.entry_added), Examples.store_added).
Proof.
  assert (Hr : reachable Examples.store_added) by (apply reach_add; constructor).
  destruct (reachable_keys_unique _ Hr) as (Hnd & Hget).
  split; [exact Hr|]. split; [exact Hnd|].
  apply Hget. split; [now left | split; reflexivity].
Defined.

(** In every reachable store the counters agree with the lists. *)
Lemma reachable_consistent (c : Mongo.Collection) :
  reachable c -> Forall counts_consistent c.
Proof.
  intros Hr. induction Hr using reachable_ind_cases.
  - constructor.
  - apply Forall_app. split; [assumption|].
    constructor; [|constructor]. repeat split.
  - rewrite Forall_app in *. destruct IHHr as (Hpre & Hrest).
    split; [assumption|]. inversion Hrest; subst.
    constructor; [|assumption]. split; [reflexivity|]. split; [reflexivity|].
    simpl. discriminate.
Qed.

(** X2. In every reachable store, each document has
    [num_makefiles = len(makefiles)] and [num_binaries] the sum of
    [len(binaries)] over its [makefiles]; a document with
    [compiled = False] has an empty [makefiles] list and both counters
    at 0. *)
Theorem reachable_counts_consistent :
  forall c : Mongo.Collection,
    reachable c ->
    forall d,
      In d c ->
      num_makefiles d = len (makefiles d)
      /\ num_binaries d = binaries_in (makefiles d)
      /\ (compiled d = false ->
          makefiles d = [] /\ num_makefiles d = 0%Z /\ num_binaries d = 0%Z).
Proof.
  intros c Hr d Hd.
  pose proof (reachable_consistent c Hr) as Hall.
  rewrite Forall_forall in Hall. destruct (Hall d Hd) as (Hm & Hb & Hnone).
  split; [exact Hm|]. split; [exact Hb|].
  intros Hc. specialize (Hnone Hc). rewrite Hm, Hb, Hnone. repeat split.
Qed.

Lemma reachable_counts_consistent_witness :
  reachable (Examples.store_with "src/a")
  /\ (forall d,
        In d (Examples.store_with "src/a") ->
        num_makefiles d = len (makefiles d)).
Proof.
  assert (Hr : reachable (Examples.store_with "src/a")).
  { apply reach_update. apply reach_add. constructor. }
  split; [exact Hr|].
  intros d Hd. exact (proj1 (reachable_counts_consistent _ Hr d Hd)).
Defined.

(** *** Reading back what was written *)

Lemma find_one_in_place flt (pre post : Mongo.Collection) e :
  Forall (fun d => flt d = false) pre ->
  flt e = true ->
  Mongo.find_one flt (pre ++ e :: post) = Some e.
Proof.
  intros Hpre He. rewrite find_one_app.
  apply find_one_none in Hpre. rewrite Hpre.
  unfold Mongo.find_one. simpl. now rewrite He.
Qed.

Lemma find_one_skip flt (pre post : Mongo.Collection) e e' :
  flt e = false -> flt e' = false ->
  Mongo.find_one flt (pre ++ e :: post) = Mongo.find_one flt (pre ++ e' :: post).
Proof.
  intros He He'. rewrite !find_one_app.
  destruct (Mongo.find_one flt pre); [reflexivity|].
  unfold Mongo.find_one. simpl. now rewrite He, He'.
Qed.

Lemma by_key_set_makefiles owner name mks e :
  by_key owner name (set_makefiles mks e) = by_key owner name e.
Proof. reflexivity. Qed.

(** X3. After an [update_makefile] that returns, on a store of distinct
    [_id]s, [get] on the key returns a document that carries the new
    [makefiles] list, [compiled = True] and the matching counters. *)
Theorem get_after_update_makefile :
  forall (c : Mongo.Collection) owner name mks ign,
    NoDup (map _id c) ->
    fst (update_makefile owner name mks ign c) = Ok tt ->
    exists e',
      get owner name (snd (update_makefile owner name mks ign c))
      = (Ok (Some e'), snd (update_makefile owner name mks ign c))
      /\ makefiles e' = mks
      /\ compiled e' = true
      /\ num_makefiles e' = len mks
      /\ num_binaries e' = binaries_in mks.
Proof.
  intros c owner name mks ign Hnd Hok.
  destruct (update_makefile_cases owner name mks ign c Hnd)
    as [(ex & Hr) | (pre & e & post & Hc & Hpre & Hk & _ & Hr)];
    rewrite Hr in *; [discriminate|].
  exists (set_makefiles mks e). cbn [snd]. unfold get, find_one.
  rewrite (find_one_in_place _ _ _ _ Hpre); [|exact Hk].
  repeat split.
Qed.

Lemma get_after_update_makefile_witness :
  NoDup (map _id Examples.store_added)
  /\ exists e',
      get "foo" "bar" (Examples.store_with "src/a")
      = (Ok (Some e'), Examples.store_with "src/a")
      /\ makefiles e' = [Examples.makefile_at "src/a"].
Proof.
  assert (Hnd : NoDup (map _id Examples.store_added)).
  { vm_compute. constructor; [intros [] | constructor]. }
  split; [exact Hnd|].
  destruct (get_after_update_makefile Examples.store_added "foo" "bar"
              [Examples.makefile_at "src/a"] false Hnd eq_refl)
    as (e' & Hget & Hmk & _).
  exists e'. split; [exact Hget | exact Hmk].
Defined.

(** X4. Operations on one key leave every other key as it was: after
    [add_repo] or [update_makefile] on [(owner, name)], raising or not,
    [get] on a different key returns what it returned before. *)
Theorem other_keys_untouched :
  forall (c : Mongo.Collection) owner name owner' name',
    (owner', name') <> (owner, name) ->
    (forall clone_ok size,
        fst (get owner' name' (snd (add_repo owner name clone_ok size c)))
        = fst (get owner' name' c))
    /\ (NoDup (map _id c) ->
        forall mks ign,
          fst (get owner' name' (snd (update_makefile owner name mks ign c)))
          = fst (get owner' name' c)).
Proof.
  intros c owner name owner' name' Hne. split.
  - intros clone_ok size.
    destruct (add_repo_cases owner name clone_ok size c)
      as [(res & ->) | (Hnone & ->)]; cbn [snd]; [reflexivity|].
    unfold get, find_one. cbn [fst]. f_equal. rewrite find_one_app.
    destruct (Mongo.find_one (by_key owner' name') c); [reflexivity|].
    unfold Mongo.find_one. simpl.
    destruct (by_key owner' name'
                (new_record owner name clone_ok size (Mongo.fresh_id c))) eqn:E;
      [|reflexivity].
    apply by_key_true in E. simpl in E. destruct E as (-> & ->). congruence.
  - intros Hnd mks ign.
    destruct (update_makefile_cases owner name mks ign c Hnd)
      as [(ex & ->) | (pre & e & post & -> & Hpre & Hk & _ & ->)];
      cbn [snd]; [reflexivity|].
    unfold get, find_one. cbn [fst]. f_equal.
    assert (He : by_key owner' name' e = false).
    { destruct (by_key owner' name' e) eqn:E; [|reflexivity].
      apply key_of_by_key in E, Hk. congruence. }
    apply find_one_skip; [|exact He]. now rewrite by_key_set_makefiles.
Qed.

Lemma other_keys_untouched_witness :
  fst (get "foo" "bar" (snd (add_repo "foo" "baz" true 3 Examples.store_added)))
  = Ok (Some Examples.entry_added)
  /\ fst (get "foo" "baz" (Examples.store_with "src/a")) = Ok None.
Proof.
  assert (Hnd : NoDup (map _id Examples.store_added)).
  { vm_compute. constructor; [intros [] | constructor]. }
  split.
  - assert (Hne : ("foo", "bar") <> ("foo", "baz")) by discriminate.
    rewrite (proj1 (other_keys_untouched Examples.store_added
                      "foo" "baz" "foo" "bar" Hne) true 3%Z).
    reflexivity.
  - assert (Hne : ("foo", "baz") <> ("foo", "bar")) by discriminate.
    unfold Examples.store_with.
    rewrite (proj2 (other_keys_untouched Examples.store_added
                      "foo" "bar" "foo" "baz" Hne) Hnd).
    reflexivity.
Defined.

Lemma int_in_own_length (stored : Z) : int_in stored [0%Z; stored] = true.
Proof. unfold int_in. simpl. rewrite Z.eqb_refl. now rewrite orb_true_r. Qed.

(** X5. [update_makefile] is an idempotent replace: once it has
    returned, on a store of distinct [_id]s, the same call again, with
    either value of [ignore_length_mismatch], returns and leaves the store
    as the first call left it. *)
Theorem update_makefile_idempotent :
  forall (c : Mongo.Collection) owner name mks ign ign',
    NoDup (map _id c) ->
    fst (update_makefile owner name mks ign c) = Ok tt ->
    update_makefile owner name mks ign'
                    (snd (update_makefile owner name mks ign c))
    = (Ok tt, snd (update_makefile owner name mks ign c)).
Proof.
  intros c owner name mks ign ign' Hnd Hok.
  destruct (update_makefile_cases owner name mks ign c Hnd)
    as [(ex & Hr) | (pre & e & post & Hc & Hpre & Hk & _ & Hr)];
    rewrite Hr in *; [discriminate|]. cbn [snd]. subst c.
  unfold update_makefile, DBMonad.bind, get, find_one.
  rewrite (find_one_in_place _ _ _ _ Hpre); [|exact Hk].
  change (makefiles (set_makefiles mks e)) with mks.
  rewrite int_in_own_length, andb_false_r.
  unfold update_one.
  rewrite update_one_by_id by (now rewrite ids_in_place).
  reflexivity.
Qed.

Lemma update_makefile_idempotent_witness :
  NoDup (map _id Examples.store_added)
  /\ update_makefile "foo" "bar" [Examples.makefile_at "src/a"] false
                     (Examples.store_with "src/a")
     = (Ok tt, Examples.store_with "src/a").
Proof.
  assert (Hnd : NoDup (map _id Examples.store_added)).
  { vm_compute. constructor; [intros [] | constructor]. }
  split; [exact Hnd|].
  exact (update_makefile_idempotent Examples.store_added "foo" "bar"
           [Examples.makefile_at "src/a"] false false Hnd eq_refl).
Defined.



(** *** The counters over the store *)

Lemma sum_app (xs ys : list Z) : sum (xs ++ ys) = (sum xs + sum ys)%Z.
Proof.
  induction xs as [|x xs IH]; simpl.
  - unfold sum. simpl. lia.
  - rewrite !sum_cons, IH. lia.
Qed.

Lemma consistent_totals (c : Mongo.Collection) :
  Forall counts_consistent c ->
  sum (map num_makefiles (filter compiled c))
  = sum (map (fun d => len (makefiles d)) c)
  /\ sum (map num_binaries (filter compiled c))
     = sum (map (fun d => binaries_in (makefiles d)) c).
Proof.
  induction 1 as [|d c (Hm & Hb & Hnone) Hall (IHm & IHb)]; simpl; [auto|].
  rewrite !(sum_cons _ (map _ c)).
  destruct (compiled d) eqn:Hc; simpl.
  - rewrite !sum_cons, IHm, IHb, Hm, Hb. auto.
  - rewrite (Hnone eq_refl), IHm, IHb. auto.
Qed.

(** X7. On a reachable store with a compiled entry, [count_makefiles]
    returns the number of Makefile entries held by the store, and
    [count_binaries] the number of binaries they list. *)
Theorem counts_are_store_totals :
  forall c : Mongo.Collection,
    reachable c ->
    (exists d, In d c /\ compiled d = true) ->
    count_makefiles c = (Ok (sum (map (fun d => len (makefiles d)) c)), c)
    /\ count_binaries c
       = (Ok (sum (map (fun d => binaries_in (makefiles d)) c)), c).
Proof.
  intros c Hr Hsome.
  destruct (consistent_totals c (reachable_consistent c Hr)) as (Hm & Hb).
  unfold count_makefiles, count_binaries.
  rewrite !(aggregate_sum_some_compiled _ c Hsome).
  change (Mongo.numeric_field "num_makefiles") with num_makefiles.
  change (Mongo.numeric_field "num_binaries") with num_binaries.
  now rewrite Hm, Hb.
Qed.

Lemma counts_are_store_totals_witness :
  reachable (Examples.store_with "src/a")
  /\ count_makefiles (Examples.store_with "src/a")
     = (Ok 1%Z, Examples.store_with "src/a").
Proof.
  assert (Hr : reachable (Examples.store_with "src/a")).
  { apply reach_update. apply reach_add. constructor. }
  split; [exact Hr|].
  refine (proj1 (counts_are_store_totals _ Hr _)).
  eexists. split; [now left | reflexivity].
Defined.

(** X8. [add_repo] never changes what the counters return: a new entry
    is not compiled, so [count_makefiles] and [count_binaries] give after
    it what they gave before, the [StopIteration] of a store without
    compiled entry included. *)
Theorem add_repo_keeps_counts :
  forall (c : Mongo.Collection) owner name clone_ok size,
    fst (count_makefiles (snd (add_repo owner name clone_ok size c)))
    = fst (count_makefiles c)
    /\ fst (count_binaries (snd (add_repo owner name clone_ok size c)))
       = fst (count_binaries c).
Proof.
  intros c owner name clone_ok size.
  destruct (add_repo_cases owner name clone_ok size c)
    as [(res & ->) | (_ & ->)]; cbn [snd]; [auto|].
  unfold count_makefiles, count_binaries, _aggregate_sum,
    Mongo.aggregate, Mongo.match_stage.
  rewrite filter_app. simpl. rewrite app_nil_r.
  split; destruct (Mongo.group_stage _ (filter compiled c)); reflexivity.
Qed.

(** X9. After an [update_makefile] that returns, on a store of distinct
    [_id]s, [count_makefiles] returns the former sum of [num_makefiles]
    over the compiled entries, less what the entry counted there before,
    plus the length of the new list. *)
Theorem update_makefile_moves_count :
  forall (c : Mongo.Collection) owner name mks ign e,
    NoDup (map _id c) ->
    get owner name c = (Ok (Some e), c) ->
    fst (update_makefile owner name mks ign c) = Ok tt ->
    fst (count_makefiles (snd (update_makefile owner name mks ign c)))
    = Ok (compiled_makefiles c
          - (if compiled e then num_makefiles e else 0)
          + len mks)%Z.
Proof.
  intros c owner name mks ign e0 Hnd Hget Hok.
  destruct (update_makefile_cases owner name mks ign c Hnd)
    as [(ex & Hr) | (pre & e & post & Hc & Hpre & Hk & _ & Hr)];
    rewrite Hr in *; [discriminate|]. cbn [snd]. subst c.
  unfold get, find_one in Hget.
  rewrite (find_one_in_place _ _ _ _ Hpre Hk) in Hget.
  injection Hget as <-.
  unfold count_makefiles.
  rewrite aggregate_sum_some_compiled.
  - cbn [fst]. f_equal.
    change (Mongo.numeric_field "num_makefiles") with num_makefiles.
    unfold compiled_makefiles.
    rewrite !filter_app, !map_app, !sum_app. simpl.
    rewrite sum_cons. change (num_makefiles (set_makefiles mks e)) with (len mks).
    destruct (compiled e); simpl; [rewrite sum_cons|]; lia.
  - exists (set_makefiles mks e). split; [|reflexivity].
    apply in_or_app. right. now left.
Qed.

Lemma update_makefile_moves_count_witness :
  NoDup (map _id Examples.store_added)
  /\ fst (count_makefiles (Examples.store_with "src/a")) = Ok 1%Z.
Proof.
  assert (Hnd : NoDup (map _id Examples.store_added)).
  { vm_compute. constructor; [intros [] | constructor]. }
  split; [exact Hnd|].
  exact (update_makefile_moves_count Examples.store_added "foo" "bar"
           [Examples.makefile_at "src/a"] false Examples.entry_added
           Hnd eq_refl eq_refl).
Defined.

(** *** What the operations never do *)

Lemma later_of_refl d : later_of d d.
Proof. repeat split; auto. Qed.

Lemma update_one_pointwise flt mks (c : Mongo.Collection) :
  Forall2 later_of c (fst (Mongo.update_one flt (set_makefiles mks) c)).
Proof.
  induction c as [|d c IH]; simpl; [constructor|].
  destruct (flt d); simpl.
  - constructor.
    + repeat split; auto.
    + clear IH. induction c; constructor; auto using later_of_refl.
  - destruct (Mongo.update_one flt (set_makefiles mks) c) as [c' n].
    simpl in *. constructor; auto using later_of_refl.
Qed.

Lemma Forall2_later_in (c c' : Mongo.Collection) :
  Forall2 later_of c c' ->
  (forall d, In d c -> exists d', In d' c' /\ later_of d d')
  /\ length c = length c'.
Proof.
  induction 1 as [|d d' c c' Hd Hall (IHin & IHlen)]; simpl.
  - split; [intros d [] | reflexivity].
  - split; [|now rewrite IHlen].
    intros x [<- | Hx]; [eauto|].
    destruct (IHin x Hx) as (x' & Hx' & Hl). eauto.
Qed.

(** X10. Neither [add_repo] nor [update_makefile], raising or not,
    removes a document, changes a document's [_id], key,
    [clone_successful] or [repo_size], or takes [compiled] back to
    [False]; [update_makefile] keeps the number of documents and
    [add_repo] adds at most one. *)
Theorem documents_persist :
  forall (c : Mongo.Collection) owner name,
    (forall clone_ok size,
        let c' := snd (add_repo owner name clone_ok size c) in
        (forall d, In d c -> exists d', In d' c' /\ later_of d d')
        /\ length c <= length c' <= S (length c))
    /\ (forall mks ign,
          let c' := snd (update_makefile owner name mks ign c) in
          (forall d, In d c -> exists d', In d' c' /\ later_of d d')
          /\ length c' = length c).
Proof.
  intros c owner name. split.
  - intros clone_ok size c'. subst c'.
    destruct (add_repo_cases owner name clone_ok size c)
      as [(res & ->) | (_ & ->)]; cbn [snd].
    + split; [|lia]. intros d Hd. exists d. auto using later_of_refl.
    + split; [|rewrite length_app; simpl; lia].
      intros d Hd. exists d. split; [apply in_or_app; now left|].
      apply later_of_refl.
  - intros mks ign c'. subst c'.
    assert (Hsame : forall d, In d c -> exists d', In d' c /\ later_of d d')
      by (intros d Hd; exists d; auto using later_of_refl).
    unfold update_makefile, DBMonad.bind, get, find_one, update_one.
    destruct (Mongo.find_one (by_key owner name) c) as [e|]; cbn [snd]; [|auto].
    destruct (negb ign && _); cbn [snd]; [auto|].
    pose proof (update_one_pointwise (by_id (_id e)) mks c) as Hall.
    destruct (Mongo.update_one (by_id (_id e)) (set_makefiles mks) c) as [c' n].
    cbn [fst] in Hall. apply Forall2_later_in in Hall.
    destruct Hall as (Hin & Hlen).
    unfold DBMonad.assert. destruct (n =? 1)%Z; cbn [snd]; auto.
Qed.

End StoreFacts.

(* ================================================================= *)
(** * Log parsing, described line by line *)

Module LogFacts.

Import DictFacts Notions LogNotions ParseFacts.

Lemma for_each_hist {A S} (P : list A -> S -> Prop)
      (body : S -> A -> result S) xs done s s' :
  (forall done x s s', P done s -> body s x = Ok s' -> P (done ++ [x]) s') ->
  P done s ->
  for_each body xs s = Ok s' ->
  P (done ++ xs) s'.
Proof.
  intros Hbody. revert done s.
  induction xs as [|x xs IH]; intros done s Hs; simpl.
  - rewrite app_nil_r. now intros [= <-].
  - destruct (body s x) as [s1|e] eqn:E; cbn [bind]; [|discriminate].
    replace (done ++ x :: xs) with ((done ++ [x]) ++ xs)
      by (now rewrite <- app_assoc).
    apply IH. exact (Hbody done x s s1 Hs E).
Qed.

Lemma samples_of_app repo tag l1 l2 :
  samples_of repo tag (l1 ++ l2) = samples_of repo tag l1 ++ samples_of repo tag l2.
Proof. unfold samples_of. apply flat_map_app. Qed.

Lemma names_of_app l1 l2 : names_of (l1 ++ l2) = names_of l1 ++ names_of l2.
Proof. unfold names_of. apply flat_map_app. Qed.

Lemma first_seen_snoc names name :
  first_seen (names ++ [name])
  = if in_dec string_dec name (first_seen names)
    then first_seen names
    else first_seen names ++ [name].
Proof. unfold first_seen. now rewrite fold_left_app. Qed.

Lemma first_seen_in names name : In name (first_seen names) <-> In name names.
Proof.
  induction names as [|x names IH] using rev_ind; [reflexivity|].
  rewrite first_seen_snoc, in_app_iff. simpl.
  destruct (in_dec string_dec x (first_seen names)) as [Hin | Hout].
  - rewrite IH. split; [tauto|]. intros [H | [<- | []]]; [assumption|].
    now apply IH.
  - rewrite in_app_iff, IH. simpl. tauto.
Qed.

Lemma samples_of_absent repo tag lines :
  ~ In repo (names_of lines) -> samples_of repo tag lines = [].
Proof.
  unfold names_of, samples_of.
  induction lines as [|line lines IH]; simpl; [reflexivity|].
  intros Hout. rewrite in_app_iff in Hout.
  rewrite IH by tauto. rewrite app_nil_r.
  destruct (line_name line) as [name|]; [|reflexivity].
  destruct (String.eqb_spec name repo) as [-> | _]; [|reflexivity].
  exfalso. apply Hout. left. now left.
Qed.

(** A matching line whose counts convert holds a sample for each tag of
    [TAGS]. *)
Lemma line_sample_tags line m :
  Regex.search line = Some m ->
  converts m ->
  exists vp vb vt,
    int (Re.n_partial m) = Ok vp
    /\ int (Re.n_binaries m) = Ok vb
    /\ int (Re.n_total m) = Ok vt
    /\ line_sample "n_partial" line = Some (Re.date_time m, vp)
    /\ line_sample "n_binaries" line = Some (Re.date_time m, vb)
    /\ line_sample "n_total" line = Some (Re.date_time m, vt).
Proof.
  intros Hm (vp & vb & vt & Hvp & Hvb & Hvt).
  exists vp, vb, vt. unfold line_sample. rewrite Hm.
  change (Re.group m "n_partial") with (Ok (Re.n_partial m)).
  change (Re.group m "n_binaries") with (Ok (Re.n_binaries m)).
  change (Re.group m "n_total") with (Ok (Re.n_total m)).
  cbv beta iota. rewrite Hvp, Hvb, Hvt. repeat split; reflexivity.
Qed.

Lemma samples_of_one_other repo tag line name :
  line_name line = Some name -> name <> repo -> samples_of repo tag [line] = [].
Proof.
  intros Hn Hne. unfold samples_of. simpl. rewrite Hn.
  apply String.eqb_neq in Hne. now rewrite Hne.
Qed.

Lemma samples_of_one_own repo tag line sample :
  line_name line = Some repo -> line_sample tag line = Some sample ->
  samples_of repo tag [line] = [sample].
Proof.
  intros Hn Hs. unfold samples_of. simpl.
  now rewrite Hn, String.eqb_refl, Hs.
Qed.

Lemma keys_set {V} k (v : V) (d : Dict.t V) :
  Dict.keys (Dict.set k v d)
  = if in_dec string_dec k (Dict.keys d) then Dict.keys d else Dict.keys d ++ [k].
Proof.
  destruct (Dict.get k d) as [v0|] eqn:E.
  - rewrite (keys_set_present _ _ _ _ E).
    destruct (in_dec string_dec k (Dict.keys d)) as [_ | Hout]; [reflexivity|].
    exfalso. apply Hout. apply get_some_in in E.
    change k with (fst (k, v0)). now apply in_map.
  - rewrite (set_new _ _ _ E). unfold Dict.keys. rewrite map_app. simpl.
    destruct (in_dec string_dec k (map fst d)) as [Hin | _]; [|reflexivity].
    exfalso. now apply get_none_keys in E.
Qed.

(** One line more: the mapping after it is the description of the lines
    so far. *)
Lemma record_line_described done (repo_info repo_info' : Dict.t InfoDict) line :
  described done repo_info ->
  record_line repo_info line = Ok repo_info' ->
  described (done ++ [line]) repo_info'.
Proof.
  intros (Hp & Hkeys & Hdesc) Hrun.
  pose proof (record_line_parsed repo_info repo_info' line Hp Hrun) as Hp'.
  pose proof (fun m => record_line_converts repo_info repo_info' line m Hrun)
    as Hconv.
  unfold record_line in Hrun.
  destruct (Regex.search line) as [m|] eqn:Hm.
  - destruct (line_sample_tags line m Hm (Hconv m eq_refl))
      as (vp & vb & vt & Hvp & Hvb & Hvt & Hsp & Hsb & Hst).
    change (Re.group m "repo_owner") with (Ok (Re.repo_owner m)) in Hrun.
    change (Re.group m "repo_name") with (Ok (Re.repo_name m)) in Hrun.
    change (Re.group m "date_time") with (Ok (Re.date_time m)) in Hrun.
    cbn [bind] in Hrun.
    set (name := (Re.repo_owner m ++ "/" ++ Re.repo_name m)%string) in *.
    assert (Hname : line_name line = Some name)
      by (unfold line_name; now rewrite Hm).
    assert (Hinfo : match Dict.get name repo_info with
                    | Some i => i
                    | None => default_info
                    end
                    = info_of (samples_of name "n_partial" done)
                              (samples_of name "n_binaries" done)
                              (samples_of name "n_total" done)).
    { specialize (Hdesc name).
      destruct (Dict.get name repo_info); [exact Hdesc|].
      now rewrite !(samples_of_absent _ _ _ Hdesc). }
    rewrite (record_tags_ok m name _ repo_info _ _ _ vp vb vt Hvp Hvb Hvt Hinfo)
      in Hrun.
    injection Hrun as <-.
    split; [exact Hp'|]. split.
    + rewrite keys_set, Hkeys, names_of_app.
      unfold names_of at 3. simpl. rewrite Hname. simpl.
      now rewrite first_seen_snoc.
    + intros repo. destruct (string_dec name repo) as [<- | Hne].
      * rewrite get_set_eq, !samples_of_app.
        now rewrite (samples_of_one_own _ _ _ _ Hname Hsp),
          (samples_of_one_own _ _ _ _ Hname Hsb),
          (samples_of_one_own _ _ _ _ Hname Hst).
      * rewrite (get_set_ne _ _ _ _ Hne), !samples_of_app.
        rewrite !(samples_of_one_other _ _ _ _ Hname Hne), !app_nil_r.
        specialize (Hdesc repo).
        destruct (Dict.get repo repo_info); [exact Hdesc|].
        rewrite names_of_app, in_app_iff. unfold names_of at 2. simpl.
        rewrite Hname. simpl. intros [H | [H | []]]; [auto | congruence].
  - injection Hrun as <-.
    assert (Hname : line_name line = None) by (unfold line_name; now rewrite Hm).
    split; [exact Hp'|]. split.
    + rewrite names_of_app. unfold names_of at 2. simpl. rewrite Hname.
      simpl. now rewrite app_nil_r.
    + intros repo. rewrite !samples_of_app. unfold samples_of at 2 4 6. simpl.
      rewrite Hname. simpl. rewrite !app_nil_r.
      specialize (Hdesc repo).
      destruct (Dict.get repo repo_info); [exact Hdesc|].
      rewrite names_of_app. unfold names_of at 2. simpl. rewrite Hname.
      simpl. now rewrite app_nil_r.
Qed.

(** What the loop of [analyze_logs] returns describes its lines, and the
    counts of every matching line have converted. *)
Lemma analyze_logs_described text repo_info :
  analyze_logs text = Ok repo_info ->
  described (split newline text) repo_info
  /\ (forall line m,
        In line (split newline text) ->
        Regex.search line = Some m ->
        converts m).
Proof.
  unfold analyze_logs.
  apply (for_each_hist
           (fun done s =>
              described done s
              /\ forall line m,
                  In line done -> Regex.search line = Some m -> converts m)
           record_line (split newline text) [] []).
  - intros done x s s' (Hd & Hconv) Hrun.
    split; [exact (record_line_described _ _ _ _ Hd Hrun)|].
    intros line m Hin Hm. apply in_app_or in Hin.
    destruct Hin as [Hin | [<- | []]]; [exact (Hconv line m Hin Hm)|].
    exact (record_line_converts _ _ _ _ Hrun Hm).
  - split; [|intros line m []].
    split; [split; constructor|]. split; [reflexivity|].
    intros repo. simpl. tauto.
Qed.

(** *** The pattern, piece by piece *)

Lemma exactly_inv cls n s m rest :
  Re.exactly cls n s = Some (m, rest) ->
  s = (m ++ rest)%string /\ String.length m = n /\ all_in cls m = true.
Proof.
  revert s m rest. induction n as [|n IH]; intros s m rest; simpl.
  - intros [= <- <-]. auto.
  - destruct s as [|c s]; [discriminate|].
    destruct (cls c) eqn:Hc; [|discriminate].
    destruct (Re.exactly cls n s) as [[m' rest']|] eqn:E; [|discriminate].
    simpl. intros [= <- <-]. destruct (IH _ _ _ E) as (-> & Hlen & Hall).
    simpl. rewrite Hc, Hlen. auto.
Qed.

Lemma exactly_app cls m rest :
  all_in cls m = true ->
  Re.exactly cls (String.length m) (m ++ rest) = Some (m, rest).
Proof.
  induction m as [|c m IH]; simpl; [reflexivity|].
  intros H. apply andb_true_iff in H. destruct H as (Hc & Hm).
  now rewrite Hc, (IH Hm).
Qed.

Lemma span_inv cls s m rest :
  Re.span cls s = (m, rest) ->
  s = (m ++ rest)%string
  /\ all_in cls m = true
  /\ match rest with
     | String c _ => cls c = false
     | EmptyString => True
     end.
Proof.
  revert m rest. induction s as [|c s IH]; simpl; intros m rest.
  - intros [= <- <-]. auto.
  - destruct (cls c) eqn:Hc.
    + destruct (Re.span cls s) as [m' rest'] eqn:E. intros [= <- <-].
      destruct (IH _ _ eq_refl) as (-> & Hall & Hrest).
      simpl. rewrite Hc. auto.
    + intros [= <- <-]. auto.
Qed.

Lemma one_or_more_inv cls s m rest :
  Re.one_or_more cls s = Some (m, rest) ->
  s = (m ++ rest)%string
  /\ m <> EmptyString
  /\ all_in cls m = true
  /\ match rest with
     | String c _ => cls c = false
     | EmptyString => True
     end.
Proof.
  unfold Re.one_or_more.
  destruct (Re.span cls s) as [m' rest'] eqn:E.
  apply span_inv in E. destruct E as (-> & Hall & Hrest).
  destruct m' as [|c m']; [discriminate|].
  intros [= <- <-]. repeat split; auto. discriminate.
Qed.

Lemma one_or_more_app cls m rest :
  m <> EmptyString ->
  all_in cls m = true ->
  match rest with
  | String c _ => cls c = false
  | EmptyString => True
  end ->
  Re.one_or_more cls (m ++ rest) = Some (m, rest).
Proof.
  intros Hne Hall Hrest. unfold Re.one_or_more.
  rewrite (span_only_cut cls m rest Hall Hrest).
  destruct m; [congruence | reflexivity].
Qed.

Lemma literal_inv p s rest :
  Re.literal p s = Some rest -> s = (p ++ rest)%string.
Proof.
  revert s. induction p as [|c p IH]; intros s; simpl.
  - now intros [= ->].
  - destruct s as [|c' s]; [discriminate|].
    destruct (Ascii.eqb_spec c c') as [<- | _]; [|discriminate].
    intros H. now rewrite (IH _ H).
Qed.

Lemma literal_app p rest : Re.literal p (p ++ rest) = Some rest.
Proof.
  induction p as [|c p IH]; simpl; [reflexivity|].
  now rewrite Ascii.eqb_refl.
Qed.


Lemma exactly_app_len cls n m rest :
  String.length m = n ->
  all_in cls m = true ->
  Re.exactly cls n (m ++ rest) = Some (m, rest).
Proof. intros <-. apply exactly_app. Qed.

Ltac invert_pieces :=
  repeat match goal with
         | H : Re.exactly _ _ _ = Some _ |- _ =>
             apply exactly_inv in H; destruct H as (? & ? & ?)
         | H : Re.one_or_more _ _ = Some _ |- _ =>
             apply one_or_more_inv in H; destruct H as (? & ? & ? & ?)
         | H : Re.literal _ _ = Some _ |- _ => apply literal_inv in H
         end.

(** The matcher accepts exactly the grammar of the pattern. *)
Lemma match_here_summary :
  forall s m, Regex.match_here s = Some m <-> summary_with s m.
Proof.
  intros s m. split.
  - unfold Regex.match_here. repeat step_bind. intros [= <-].
    invert_pieces. subst. unfold summary_with, words, digits. simpl.
    do 5 eexists. split; [reflexivity|]. split; [reflexivity|].
    repeat split; assumption.
  - destruct m as [dt success partial total owner name binaries].
    intros (date & time & millis & level & rest & Hs & Hdt & Hdl & Hda
            & Htl & Hta & Hml & Hma & (Hl0 & Hla) & (Hs0 & Hsa) & (Hp0 & Hpa)
            & (Ht0 & Hta') & (Ho0 & Hoa) & (Hn0 & Hna) & (Hb0 & Hba)).
    cbn [Re.date_time Re.n_success Re.n_partial Re.n_total Re.repo_owner
           Re.repo_name Re.n_binaries] in *.
    subst s dt. unfold Regex.match_here.
    rewrite (exactly_app_len _ _ _ _ Hdl Hda). cbn [Re.option_bind].
    rewrite literal_app. cbn [Re.option_bind].
    rewrite (exactly_app_len _ _ _ _ Htl Hta). cbn [Re.option_bind].
    rewrite literal_app. cbn [Re.option_bind].
    rewrite (exactly_app_len _ _ _ _ Hml Hma). cbn [Re.option_bind].
    rewrite literal_app. cbn [Re.option_bind].
    rewrite one_or_more_app by first [assumption | exact eq_refl]. cbn [Re.option_bind].
    rewrite literal_app. cbn [Re.option_bind].
    rewrite one_or_more_app by first [assumption | exact eq_refl]. cbn [Re.option_bind].
    rewrite literal_app. cbn [Re.option_bind].
    rewrite one_or_more_app by first [assumption | exact eq_refl]. cbn [Re.option_bind].
    rewrite literal_app. cbn [Re.option_bind].
    rewrite one_or_more_app by first [assumption | exact eq_refl]. cbn [Re.option_bind].
    rewrite literal_app. cbn [Re.option_bind].
    rewrite one_or_more_app by first [assumption | exact eq_refl]. cbn [Re.option_bind].
    rewrite literal_app. cbn [Re.option_bind].
    rewrite one_or_more_app by first [assumption | exact eq_refl]. cbn [Re.option_bind].
    rewrite literal_app. cbn [Re.option_bind].
    rewrite one_or_more_app by first [assumption | exact eq_refl]. cbn [Re.option_bind].
    rewrite literal_app. cbn [Re.option_bind].
    reflexivity.
Qed.

(** [search] finds a summary somewhere in the line. *)
Lemma search_summary line m :
  Regex.search line = Some m ->
  exists before after,
    line = (before ++ after)%string /\ summary_with after m.
Proof.
  induction line as [|c line IH]; cbn [Regex.search].
  - destruct (Regex.match_here "") eqn:E; [|discriminate].
    intros [= <-]. exists "", "". split; [reflexivity|].
    now apply match_here_summary.
  - destruct (Regex.match_here (String c line)) eqn:E.
    + intros [= <-]. exists "", (String c line). split; [reflexivity|].
      now apply match_here_summary.
    + intros H. destruct (IH H) as (before & after & -> & Hs).
      exists (String c before), after. split; [reflexivity | exact Hs].
Qed.



Lemma word_not_slash c : Re.word c = true -> negb (Ascii.eqb c "/") = true.
Proof.
  destruct (Ascii.eqb_spec c "/") as [-> | _]; [discriminate | reflexivity].
Qed.

Lemma all_in_weaken (p q : ascii -> bool) s :
  (forall c, p c = true -> q c = true) ->
  all_in p s = true -> all_in q s = true.
Proof.
  intros Hpq. induction s as [|c s IH]; simpl; [reflexivity|].
  intros H. apply andb_true_iff in H. destruct H as (Hc & Hs).
  now rewrite (Hpq c Hc), (IH Hs).
Qed.

(** A name built from two groups of word characters splits back into
    them, and [owner, name = repo.split("/")] unpacks. *)
Lemma split_full_name owner name :
  words owner -> words name ->
  split "/" (owner ++ "/" ++ name) = [owner; name]
  /\ unpack2 (split "/" (owner ++ "/" ++ name)) = Ok (owner, name).
Proof.
  intros (_ & Ho) (_ & Hn).
  assert (Hs : split "/" (owner ++ "/" ++ name) = [owner; name]).
  { change (owner ++ "/" ++ name)%string with (owner ++ String "/" name)%string.
    rewrite ScenarioFacts.split_app_sep.
    rewrite !ScenarioFacts.split_free;
      [reflexivity | |]; unfold free_of;
      eapply all_in_weaken; eauto using word_not_slash. }
  split; [exact Hs | now rewrite Hs].
Qed.

Lemma digit_value_nonneg c d : digit_value c = Some d -> (0 <= d)%Z.
Proof.
  unfold digit_value. destruct (Re.digit c) eqn:E; [|discriminate].
  intros [= <-]. unfold Re.digit, Re.between in E.
  apply andb_true_iff in E. destruct E as (E & _).
  destruct c as [[] [] [] [] [] [] [] []]; try discriminate E; vm_compute;
    discriminate.
Qed.

Lemma int_from_nonneg s acc v :
  (0 <= acc)%Z -> int_from acc s = Ok v -> (0 <= v)%Z.
Proof.
  revert acc. induction s as [|c s IH]; simpl; intros acc Hacc.
  - now intros [= <-].
  - destruct (digit_value c) as [d|] eqn:E; [|discriminate].
    apply digit_value_nonneg in E. intros H.
    apply (IH (10 * acc + d)%Z); [lia | exact H].
Qed.

(** [int] of a digit string is never negative. *)
Lemma int_nonneg s v : int s = Ok v -> (0 <= v)%Z.
Proof.
  unfold int. destruct s as [|c s]; [discriminate|].
  destruct (Z.of_nat (String.length (String c s)) >? int_max_str_digits)%Z;
    [discriminate|].
  apply int_from_nonneg. lia.
Qed.

Lemma length_append (a b : string) :
  String.length (a ++ b) = String.length a + String.length b.
Proof. induction a as [|c a IH]; simpl; [reflexivity | now rewrite IH]. Qed.

(** What a line can contribute: a timestamp of 19 characters and a value
    that is not negative. *)
Lemma line_sample_shape tag line sample :
  line_sample tag line = Some sample ->
  String.length (fst sample) = 19 /\ (0 <= snd sample)%Z.
Proof.
  unfold line_sample.
  destruct (Regex.search line) as [m|] eqn:Hm; [|discriminate].
  destruct (Re.group m tag) as [text|]; [|discriminate].
  destruct (int text) as [value|] eqn:Hv; [|discriminate].
  intros [= <-]. simpl. split; [|exact (int_nonneg _ _ Hv)].
  destruct (search_summary _ _ Hm)
    as (before & after & _ & date & time & millis & level & rest
        & _ & -> & Hdl & _ & Htl & _).
  rewrite !length_append, Hdl, Htl. reflexivity.
Qed.

(** *** What [analyze_logs] returns *)

Lemma info_of_get p b t tag series :
  Dict.get tag (info_of p b t) = Some series ->
  (tag = "n_partial" /\ series = p)
  \/ (tag = "n_binaries" /\ series = b)
  \/ (tag = "n_total" /\ series = t).
Proof.
  unfold info_of. cbn [Dict.get].
  destruct (String.eqb_spec "n_partial" tag) as [<- | _];
    [intros [= <-]; auto|].
  destruct (String.eqb_spec "n_binaries" tag) as [<- | _];
    [intros [= <-]; auto|].
  destruct (String.eqb_spec "n_total" tag) as [<- | _];
    [intros [= <-]; auto | discriminate].
Qed.

Lemma samples_count repo tag lines :
  (forall line m,
      In line lines -> Regex.search line = Some m -> converts m) ->
  In tag TAGS ->
  length (samples_of repo tag lines)
  = count_occ string_dec (names_of lines) repo.
Proof.
  intros Hconv Htag. induction lines as [|line lines IH]; [reflexivity|].
  change (line :: lines) with ([line] ++ lines).
  rewrite samples_of_app, names_of_app, length_app, count_occ_app, IH
    by (intros l m Hl; apply Hconv; now right).
  f_equal. unfold samples_of, names_of, line_name.
  cbn [flat_map]. rewrite !app_nil_r.
  destruct (Regex.search line) as [m|] eqn:Hm; [|reflexivity].
  destruct (line_sample_tags line m Hm (Hconv line m (or_introl eq_refl) Hm))
    as (vp & vb & vt & _ & _ & _ & Hp & Hb & Ht).
  set (name := (Re.repo_owner m ++ "/" ++ Re.repo_name m)%string).
  cbn [count_occ].
  destruct (string_dec name repo) as [Heq | Hne].
  - rewrite Heq, String.eqb_refl.
    destruct Htag as [<- | [<- | [<- | []]]]; [rewrite Hp | rewrite Hb | rewrite Ht];
      reflexivity.
  - apply String.eqb_neq in Hne. now rewrite Hne.
Qed.

Lemma converts_short m :
  converts m ->
  count_short (Re.n_partial m)
  /\ count_short (Re.n_binaries m)
  /\ count_short (Re.n_total m).
Proof.
  intros (vp & vb & vt & Hvp & Hvb & Hvt).
  split; [|split]; eapply int_ok_short; eassumption.
Qed.

(** X12. [analyze_logs] returns exactly on the texts where the tracked
    counts of every matching line are within the limit of [int]. In the
    mapping it returns, a repository is present exactly when some line
    reports on it, and then each tag of [TAGS] has the samples of the
    lines that report on it, in the order of the lines: one sample per
    such line. *)
Theorem analyze_logs_samples :
  forall text,
    ((exists repo_info, analyze_logs text = Ok repo_info)
     <-> counts_within_limit text)
    /\ forall repo_info,
        analyze_logs text = Ok repo_info ->
        forall repo,
          (Dict.get repo repo_info = None
           <-> ~ In repo (names_of (split newline text)))
          /\ (forall info tag,
                Dict.get repo repo_info = Some info ->
                In tag TAGS ->
                Dict.get tag info
                = Some (samples_of repo tag (split newline text))
                /\ length (samples_of repo tag (split newline text))
                   = count_occ string_dec (names_of (split newline text)) repo).
Proof.
  intros text. split.
  - split; [|apply analyze_logs_returns].
    intros (repo_info & Hrun) line m Hin Hm.
    destruct (analyze_logs_described text repo_info Hrun) as (_ & Hconv).
    exact (converts_short m (Hconv line m Hin Hm)).
  - intros repo_info Hrun.
    destruct (analyze_logs_described text repo_info Hrun)
      as ((_ & Hkeys & Hdesc) & Hconv).
    intros repo. split.
    + split.
      * intros Hnone. specialize (Hdesc repo). now rewrite Hnone in Hdesc.
      * intros Hout. apply get_none_keys. rewrite Hkeys.
        now rewrite first_seen_in.
    + intros info tag Hget Htag. specialize (Hdesc repo). rewrite Hget in Hdesc.
      subst info. split; [|now apply samples_count].
      destruct Htag as [<- | [<- | [<- | []]]]; reflexivity.
Qed.

Lemma analyze_logs_samples_witness :
  exists repo_info info,
    analyze_logs Examples.log_line = Ok repo_info
    /\ Dict.get "foo/bar" repo_info = Some info
    /\ Dict.get "n_total" info = Some [("2020-01-01 12:00:00", 5%Z)].
Proof.
  assert (Hc : analyze_logs Examples.log_line = Ok Examples.log_line_series)
    by (vm_compute; reflexivity).
  destruct (analyze_logs_samples Examples.log_line) as (_ & Hall).
  exists Examples.log_line_series. eexists. split; [exact Hc|].
  split; [reflexivity|].
  destruct (proj2 (Hall _ Hc "foo/bar") _ "n_total" eq_refl
              (or_intror (or_intror (or_introl eq_refl)))) as (Hget & _).
  rewrite Hget. vm_compute. reflexivity.
Defined.

(** X13. [analyze_logs] returns on every text whose tracked counts are
    within the limit of [int]. The repositories of the mapping it returns
    are those the lines report on, each once, in the order of their first
    lines: the order in which [main] walks them. *)
Theorem analyze_logs_key_order :
  forall text,
    (counts_within_limit text ->
     exists repo_info, analyze_logs text = Ok repo_info)
    /\ forall repo_info,
        analyze_logs text = Ok repo_info ->
        Dict.keys repo_info = first_seen (names_of (split newline text))
        /\ NoDup (Dict.keys repo_info)
        /\ (forall repo,
              In repo (Dict.keys repo_info)
              <-> exists line,
                  In line (split newline text) /\ line_name line = Some repo).
Proof.
  intros text. split; [apply analyze_logs_returns|].
  intros repo_info Hrun.
  destruct (analyze_logs_described text repo_info Hrun)
    as (((Hwf & _) & Hkeys & _) & _).
  split; [exact Hkeys|].
  split; [exact Hwf|]. intros repo. rewrite Hkeys, first_seen_in.
  unfold names_of. rewrite in_flat_map. split.
  - intros (line & Hin & Hname). exists line. split; [exact Hin|].
    destruct (line_name line) as [name|]; [|contradiction].
    destruct Hname as [-> | []]. reflexivity.
  - intros (line & Hin & Hname). exists line. split; [exact Hin|].
    rewrite Hname. now left.
Qed.

Lemma analyze_logs_key_order_witness :
  exists repo_info,
    analyze_logs Examples.log_line = Ok repo_info
    /\ Dict.keys repo_info = ["foo/bar"]
    /\ NoDup (Dict.keys repo_info).
Proof.
  assert (Hc : analyze_logs Examples.log_line = Ok Examples.log_line_series)
    by (vm_compute; reflexivity).
  destruct (analyze_logs_key_order Examples.log_line) as (_ & Hall).
  destruct (Hall _ Hc) as (_ & Hnd & _).
  exists Examples.log_line_series.
  split; [exact Hc|]. split; [reflexivity | exact Hnd].
Defined.

(** X14. The mapping is empty exactly when no line of the text matches
    the pattern; the empty text is such a text. *)
Theorem analyze_logs_empty :
  forall text,
    analyze_logs text = Ok []
    <-> (forall line, In line (split newline text) -> Regex.search line = None).
Proof.
  intros text. split.
  - intros Hrun.
    destruct (analyze_logs_described text [] Hrun) as ((_ & Hkeys & _) & _).
    intros line Hin.
    destruct (Regex.search line) as [m|] eqn:Hm; [|reflexivity].
    exfalso.
    assert (Hn : In (Re.repo_owner m ++ "/" ++ Re.repo_name m)%string
                    (names_of (split newline text))).
    { unfold names_of. apply in_flat_map. exists line. split; [exact Hin|].
      unfold line_name. rewrite Hm. now left. }
    apply first_seen_in in Hn. rewrite <- Hkeys in Hn. exact Hn.
  - intros Hnone.
    destruct (analyze_logs_returns text) as (repo_info & Hrun).
    { intros line m Hin Hm. rewrite (Hnone line Hin) in Hm. discriminate. }
    destruct (analyze_logs_described text repo_info Hrun) as ((_ & Hkeys & _) & _).
    rewrite Hrun. f_equal.
    assert (Hnames : names_of (split newline text) = []).
    { clear Hkeys Hrun. revert Hnone. unfold names_of.
      generalize (split newline text). intros lines.
      induction lines as [|line lines IH]; intros Hnone; [reflexivity|].
      cbn [flat_map]. unfold line_name at 1.
      rewrite (Hnone line (or_introl eq_refl)).
      simpl. apply IH. intros l Hl. apply Hnone. now right. }
    rewrite Hnames in Hkeys. unfold Dict.keys in Hkeys.
    destruct repo_info; [reflexivity | discriminate].
Qed.

(** X15. [analyze_logs] returns on every text whose tracked counts are
    within the limit of [int]. Every repository name of the mapping it
    returns is an owner and a name of word characters joined by one
    slash, so [owner, name = repo.split("/")] in [main] unpacks it,
    without raising. *)
Theorem repo_names_unpack :
  forall text,
    (counts_within_limit text ->
     exists repo_info, analyze_logs text = Ok repo_info)
    /\ forall repo_info,
        analyze_logs text = Ok repo_info ->
        forall repo,
          In repo (Dict.keys repo_info) ->
          exists owner name,
            repo = (owner ++ "/" ++ name)%string
            /\ words owner
            /\ words name
            /\ unpack2 (split "/" repo) = Ok (owner, name).
Proof.
  intros text. split; [apply analyze_logs_returns|].
  intros repo_info Hrun.
  destruct (analyze_logs_described text repo_info Hrun) as ((_ & Hkeys & _) & _).
  intros repo Hin.
  rewrite Hkeys, first_seen_in in Hin. unfold names_of in Hin.
  apply in_flat_map in Hin. destruct Hin as (line & _ & Hname).
  unfold line_name in Hname.
  destruct (Regex.search line) as [m|] eqn:Hm; [|contradiction].
  destruct Hname as [<- | []].
  destruct (search_summary _ _ Hm)
    as (before & after & _ & date & time & millis & level & rest
        & _ & _ & _ & _ & _ & _ & _ & _ & _ & _ & _ & _ & Ho & Hn & _).
  exists (Re.repo_owner m), (Re.repo_name m).
  split; [reflexivity|]. split; [exact Ho|]. split; [exact Hn|].
  exact (proj2 (split_full_name _ _ Ho Hn)).
Qed.

Lemma repo_names_unpack_witness :
  exists owner name,
    words owner /\ words name
    /\ unpack2 (split "/" "foo/bar") = Ok (owner, name).
Proof.
  assert (Hc : analyze_logs Examples.log_line = Ok Examples.log_line_series)
    by (vm_compute; reflexivity).
  destruct (repo_names_unpack Examples.log_line) as (_ & Hall).
  destruct (Hall _ Hc "foo/bar" (or_introl eq_refl))
    as (owner & name & _ & Ho & Hn & Hsplit).
  exists owner, name. split; [exact Ho|]. split; [exact Hn | exact Hsplit].
Defined.

(** X16. [analyze_logs] returns on every text whose tracked counts are
    within the limit of [int]. Every sample of the mapping it returns has
    a timestamp of 19 characters, the date and the time to the second,
    and a value that is not negative. *)
Theorem samples_well_formed :
  forall text,
    (counts_within_limit text ->
     exists repo_info, analyze_logs text = Ok repo_info)
    /\ forall repo_info,
        analyze_logs text = Ok repo_info ->
        forall repo info tag series sample,
          Dict.get repo repo_info = Some info ->
          Dict.get tag info = Some series ->
          In sample series ->
          String.length (fst sample) = 19 /\ (0 <= snd sample)%Z.
Proof.
  intros text. split; [apply analyze_logs_returns|].
  intros repo_info Hrun.
  destruct (analyze_logs_described text repo_info Hrun) as ((_ & _ & Hdesc) & _).
  intros repo info tag series sample Hget Htag Hin.
  specialize (Hdesc repo). rewrite Hget in Hdesc. subst info.
  assert (Hfrom : exists tag', In sample (samples_of repo tag' (split newline text))).
  { destruct (info_of_get _ _ _ _ _ Htag) as [(_ & ->) | [(_ & ->) | (_ & ->)]];
      eauto. }
  destruct Hfrom as (tag' & Hs). unfold samples_of in Hs.
  apply in_flat_map in Hs. destruct Hs as (line & _ & Hs).
  destruct (line_name line) as [name|]; [|contradiction].
  destruct (name =? repo); [|contradiction].
  destruct (line_sample tag' line) as [s|] eqn:E; [|contradiction].
  destruct Hs as [<- | []]. exact (line_sample_shape _ _ _ E).
Qed.

Lemma samples_well_formed_witness :
  String.length (fst ("2020-01-01 12:00:00", 5%Z)) = 19
  /\ (0 <= snd ("2020-01-01 12:00:00", 5%Z))%Z.
Proof.
  assert (Hc : analyze_logs Examples.log_line = Ok Examples.log_line_series)
    by (vm_compute; reflexivity).
  destruct (samples_well_formed Examples.log_line) as (_ & Hall).
  exact (Hall _ Hc "foo/bar" _ "n_total" _ _ eq_refl eq_refl (or_introl eq_refl)).
Defined.

End LogFacts.

(* ================================================================= *)
(** * The report of [main]: paths and the CSV block *)

Module MainFacts.

Import Notions LogNotions ScenarioFacts ReportFacts.

(** [sep.join(s.split(sep))] gives [s] back. *)
Lemma join_split sep s : join (String sep "") (split sep s) = s.
Proof.
  unfold join. induction s as [|c s IH]; simpl; [reflexivity|].
  pose proof (split_nonempty sep s) as Hne.
  destruct (Ascii.eqb_spec c sep) as [-> | _];
    (destruct (split sep s) as [|w ws]; [congruence|]);
    rewrite <- IH; [reflexivity|].
  destruct ws; reflexivity.
Qed.

Lemma split_first root rest :
  free_of "/" root = true ->
  split "/" (root ++ "/" ++ rest) = root :: split "/" rest.
Proof.
  intros Hfree.
  change (root ++ "/" ++ rest)%string with (root ++ String "/" rest)%string.
  now rewrite split_app_sep, (split_free _ _ Hfree).
Qed.

Lemma join_cons (x : string) (xs : list string) :
  xs <> [] -> join "/" (x :: xs) = (x ++ "/" ++ join "/" xs)%string.
Proof. unfold join. destruct xs; [congruence | reflexivity]. Qed.

Lemma found_directory_tail root rest :
  free_of "/" root = true ->
  found_directory (root ++ "/" ++ rest) = rest.
Proof.
  intros Hroot. unfold found_directory.
  rewrite (split_first _ _ Hroot). cbn [skipn].
  apply (join_split "/").
Qed.

Lemma stored_directory_tail owner name a b c d rel :
  free_of "/" a = true -> free_of "/" b = true ->
  free_of "/" c = true -> free_of "/" d = true ->
  stored_directory owner name
                   (a ++ "/" ++ b ++ "/" ++ c ++ "/" ++ d ++ "/" ++ rel)
  = (owner ++ "/" ++ name ++ "/" ++ rel)%string.
Proof.
  intros Ha Hb Hc Hd. unfold stored_directory.
  rewrite (split_first _ _ Ha), (split_first _ _ Hb),
    (split_first _ _ Hc), (split_first _ _ Hd).
  cbn [skipn app].
  rewrite join_cons by discriminate.
  rewrite join_cons by apply split_nonempty.
  now rewrite (join_split "/").
Qed.

(** X17. What [main] makes of the two kinds of path. A discovered path
    loses its first segment. A stored directory loses its first four
    segments and gets the owner and the name in front; one of at most
    four segments becomes [owner/name] alone. So a Makefile discovered
    at [root/owner/name/rel] and one stored as [a/b/c/d/rel] are
    rewritten to the same directory. *)
Theorem directory_rewriting :
  forall owner name,
    (forall root rest,
        free_of "/" root = true ->
        found_directory (root ++ "/" ++ rest) = rest)
    /\ (forall a b c d rel,
          free_of "/" a = true -> free_of "/" b = true ->
          free_of "/" c = true -> free_of "/" d = true ->
          stored_directory owner name
                           (a ++ "/" ++ b ++ "/" ++ c ++ "/" ++ d ++ "/" ++ rel)
          = (owner ++ "/" ++ name ++ "/" ++ rel)%string)
    /\ (forall directory,
          length (split "/" directory) <= 4 ->
          stored_directory owner name directory = (owner ++ "/" ++ name)%string).
Proof.
  intros owner name. split; [|split].
  - apply found_directory_tail.
  - apply stored_directory_tail.
  - intros directory Hlen. unfold stored_directory.
    rewrite skipn_all2 by exact Hlen. reflexivity.
Qed.

Lemma directory_rewriting_witness :
  found_directory "test_compile/foo/bar/src/a" = "foo/bar/src/a"
  /\ stored_directory "foo" "bar" "/usr/src/repo/src/a" = "foo/bar/src/a"
  /\ stored_directory "foo" "bar" "/usr/src/repo" = "foo/bar".
Proof.
  destruct (directory_rewriting "foo" "bar") as (Hfound & Hstored & Hshort).
  split; [|split].
  - exact (Hfound "test_compile" "foo/bar/src/a" eq_refl).
  - exact (Hstored "" "usr" "src" "repo" "src/a" eq_refl eq_refl eq_refl eq_refl).
  - apply Hshort. vm_compute. apply le_n.
Defined.

(** When [report_repo] returns, its rows are one per discovered path. *)
Lemma report_repo_ok (find_makefiles : string -> list string)
      (c : Mongo.Collection) repo owner name entry :
  split "/" repo = [owner; name] ->
  Database.get owner name c = (Ok (Some entry), c) ->
  report_repo find_makefiles repo c
  = (Ok (map (fun makefile =>
                (repo, found_directory makefile,
                 if set_mem string_dec (found_directory makefile)
                            (success_makefiles owner name entry)
                 then "" else "Failed"))
             (find_makefiles (os_path_join "test_compile" repo))),
     c).
Proof.
  intros Hsplit Hget. unfold report_repo.
  rewrite Hsplit. cbn [unpack2]. now rewrite Hget.
Qed.

(** X18. The layouts meet: when the entry of [owner/name] stores a
    Makefile directory [a/b/c/d/rel] and the discovery returns
    [root/owner/name/rel], the report has the row
    [(repo, owner/name/rel, "")] for it: the Makefile is not reported as
    failed. *)
Theorem report_recorded_makefile :
  forall (find_makefiles : string -> list string) (c : Mongo.Collection)
         repo owner name entry mk root a b c1 d rel,
    split "/" repo = [owner; name] ->
    Database.get owner name c = (Ok (Some entry), c) ->
    In mk (makefiles entry) ->
    Makefile.directory mk
    = (a ++ "/" ++ b ++ "/" ++ c1 ++ "/" ++ d ++ "/" ++ rel)%string ->
    free_of "/" a = true -> free_of "/" b = true ->
    free_of "/" c1 = true -> free_of "/" d = true ->
    free_of "/" root = true ->
    In (root ++ "/" ++ owner ++ "/" ++ name ++ "/" ++ rel)%string
       (find_makefiles (os_path_join "test_compile" repo)) ->
    exists rows,
      report_repo find_makefiles repo c = (Ok rows, c)
      /\ In (repo, (owner ++ "/" ++ name ++ "/" ++ rel)%string, "") rows.
Proof.
  intros find_makefiles c repo owner name entry mk root a b c1 d rel
         Hsplit Hget Hmk Hdir Ha Hb Hc Hd Hroot Hfound.
  rewrite (report_repo_ok _ _ _ _ _ _ Hsplit Hget).
  eexists. split; [reflexivity|].
  apply in_map_iff.
  exists (root ++ "/" ++ owner ++ "/" ++ name ++ "/" ++ rel)%string.
  split; [|exact Hfound].
  rewrite (found_directory_tail root _ Hroot).
  assert (Hin : set_mem string_dec (owner ++ "/" ++ name ++ "/" ++ rel)%string
                        (success_makefiles owner name entry) = true).
  { apply success_makefiles_spec. exists mk. split; [exact Hmk|].
    rewrite Hdir. symmetry. now apply stored_directory_tail. }
  now rewrite Hin.
Qed.

Lemma report_recorded_makefile_witness :
  exists rows,
    report_repo (fun _ => ["test_compile/foo/bar/src/a"]) "foo/bar"
                (Examples.store_with "/usr/src/repo/src/a")
    = (Ok rows, Examples.store_with "/usr/src/repo/src/a")
    /\ In ("foo/bar", "foo/bar/src/a", "") rows.
Proof.
  refine (report_recorded_makefile
            (fun _ => ["test_compile/foo/bar/src/a"])
            (Examples.store_with "/usr/src/repo/src/a")
            "foo/bar" "foo" "bar"
            (Database.set_makefiles
               [Examples.makefile_at "/usr/src/repo/src/a"] Examples.entry_added)
            (Examples.makefile_at "/usr/src/repo/src/a")
            "test_compile" "" "usr" "src" "repo" "src/a"
            eq_refl eq_refl _ eq_refl eq_refl eq_refl eq_refl eq_refl eq_refl _);
    now left.
Defined.

(** *** The CSV block *)

Lemma repo_rows_reportable (find_makefiles : string -> list string)
      (c : Mongo.Collection) repo :
  reportable c repo ->
  exists rows,
    report_repo find_makefiles repo c = (Ok rows, c)
    /\ repo_rows find_makefiles c repo = map cells rows
    /\ length rows
       = length (find_makefiles (os_path_join "test_compile" repo)).
Proof.
  intros (owner & name & entry & Hsplit & Hget).
  unfold repo_rows. rewrite (report_repo_ok _ _ _ _ _ _ Hsplit Hget).
  eexists. split; [reflexivity|]. split; [reflexivity|].
  now rewrite length_map.
Qed.

Lemma write_repos_app (find_makefiles : string -> list string)
      (c : Mongo.Collection) before rest written :
  Forall (reportable c) before ->
  write_repos find_makefiles (before ++ rest) written c
  = write_repos find_makefiles rest
                (written ++ flat_map (repo_rows find_makefiles c) before) c.
Proof.
  intros Hall. revert written.
  induction Hall as [|repo before Hrepo Hall IH]; intros written; simpl.
  - now rewrite app_nil_r.
  - destruct (repo_rows_reportable find_makefiles c repo Hrepo)
      as (rows & Hrun & Hrows & _).
    rewrite Hrun, IH, Hrows. now rewrite app_assoc.
Qed.

(** X19. The CSV block writes the header first. While the repositories
    have an entry in the store, it writes one row of three cells per
    discovered Makefile, repository by repository. At the first
    repository without an entry it raises [TypeError]: the rows of the
    repositories before it are in the file, and no row of that repository
    or of a later one is. The store is never written. *)
Theorem write_csv_outcome :
  forall (find_makefiles : string -> list string) (c : Mongo.Collection) before,
    Forall (reportable c) before ->
    write_csv find_makefiles before c
    = (Ok tt, c, csv_header :: flat_map (repo_rows find_makefiles c) before)
    /\ length (flat_map (repo_rows find_makefiles c) before)
       = list_sum
           (map (fun repo =>
                   length (find_makefiles (os_path_join "test_compile" repo)))
                before)
    /\ (forall row,
          In row (flat_map (repo_rows find_makefiles c) before) ->
          length row = 3)
    /\ (forall missing later owner name,
          split "/" missing = [owner; name] ->
          Database.get owner name c = (Ok None, c) ->
          write_csv find_makefiles (before ++ missing :: later) c
          = (Raise (TypeError "'NoneType' object is not subscriptable"), c,
             csv_header :: flat_map (repo_rows find_makefiles c) before)).
Proof.
  intros find_makefiles c before Hall. unfold write_csv. split; [|split; [|split]].
  - rewrite <- (app_nil_r before) at 1.
    now rewrite (write_repos_app _ _ _ _ _ Hall).
  - induction Hall as [|repo before Hrepo Hall IH]; [reflexivity|].
    simpl. rewrite length_app, IH.
    destruct (repo_rows_reportable find_makefiles c repo Hrepo)
      as (rows & _ & -> & <-).
    now rewrite length_map.
  - intros row Hin. apply in_flat_map in Hin.
    destruct Hin as (repo & Hrepo & Hrow).
    rewrite Forall_forall in Hall.
    destruct (repo_rows_reportable find_makefiles c repo (Hall repo Hrepo))
      as (rows & _ & Hrows & _).
    rewrite Hrows in Hrow. apply in_map_iff in Hrow.
    destruct Hrow as ([[r d] st] & <- & _). reflexivity.
  - intros missing later owner name Hsplit Hget.
    rewrite (write_repos_app _ _ _ _ _ Hall). simpl.
    unfold report_repo. rewrite Hsplit. cbn [unpack2]. now rewrite Hget.
Qed.

Lemma write_csv_outcome_witness :
  Forall (reportable (Examples.store_with "/usr/src/repo/src/a")) ["foo/bar"]
  /\ write_csv (fun _ => ["test_compile/foo/bar/src/a"]) ["foo/bar"; "baz/qux"]
               (Examples.store_with "/usr/src/repo/src/a")
     = (Raise (TypeError "'NoneType' object is not subscriptable"),
        Examples.store_with "/usr/src/repo/src/a",
        [csv_header; ["foo/bar"; "foo/bar/src/a"; ""]]).
Proof.
  assert (Hall : Forall (reportable (Examples.store_with "/usr/src/repo/src/a"))
                        ["foo/bar"]).
  { constructor; [|constructor].
    exists "foo", "bar". eexists. split; reflexivity. }
  split; [exact Hall|].
  exact (proj2 (proj2 (proj2
           (write_csv_outcome (fun _ => ["test_compile/foo/bar/src/a"])
                              (Examples.store_with "/usr/src/repo/src/a")
                              ["foo/bar"] Hall)))
           "baz/qux" [] "baz" "qux" eq_refl eq_refl).
Defined.

End MainFacts.

(* ================================================================= *)
(** * The sampler, the comparison and the change detector, further *)

Module SampleFacts.

Import DictFacts Notions LogNotions ParseFacts SamplerFacts ChangeFacts LogFacts.

(** A repository of the described mapping has a name that unpacks. *)
Lemma described_name_unpacks lines (repo_info : Dict.t InfoDict) repo :
  described lines repo_info ->
  In repo (Dict.keys repo_info) ->
  exists owner name, unpack2 (split "/" repo) = Ok (owner, name).
Proof.
  intros (_ & Hkeys & _) Hin.
  rewrite Hkeys, first_seen_in in Hin. unfold names_of in Hin.
  apply in_flat_map in Hin. destruct Hin as (line & _ & Hname).
  unfold line_name in Hname.
  destruct (Regex.search line) as [m|] eqn:Hm; [|contradiction].
  destruct Hname as [<- | []].
  destruct (search_summary _ _ Hm)
    as (before & after & _ & date & time & millis & level & rest
        & _ & _ & _ & _ & _ & _ & _ & _ & _ & _ & _ & _ & Ho & Hn & _).
  exists (Re.repo_owner m), (Re.repo_name m).
  exact (proj2 (split_full_name _ _ Ho Hn)).
Qed.

Lemma kept_and_skipped (repo_info : Dict.t InfoDict) drawn :
  (forall repo, In repo drawn ->
                exists total, latest repo_info repo "n_total" = Some total) ->
  length (filter (within_ceiling repo_info) drawn)
  + length (flat_map (skip_lines repo_info) drawn)
  = length drawn.
Proof.
  induction drawn as [|repo drawn IH]; intros Hall; [reflexivity|].
  cbn [filter flat_map]. rewrite length_app.
  specialize (IH (fun r Hr => Hall r (or_intror Hr))).
  destruct (Hall repo (or_introl eq_refl)) as (total & Hl).
  unfold within_ceiling at 1, skip_lines at 1. rewrite Hl.
  destruct (total <=? 50)%Z; simpl; lia.
Qed.

Section Draw.

Variable np_random_choice : nat -> nat -> result (list nat).

Hypothesis choice_contract :
  forall a size,
    match np_random_choice a size with
    | Ok samples =>
        size <= a /\ length samples = size /\ NoDup samples
        /\ Forall (fun x => x < a) samples
    | Raise e => a < size /\ exists msg, e = ValueError msg
    end.

(** X20. When the sampler returns, the final sample and the printed
    lines account for the whole draw: their sizes add up to 100; the
    final sample holds no repository twice; and each of its names
    unpacks into an owner and a name, as the loops that follow need. *)
Theorem final_sample_partition :
  forall text kept printed,
    sampler np_random_choice text = Ok (kept, printed) ->
    length kept + length printed = 100
    /\ NoDup kept
    /\ (forall repo,
          In repo kept ->
          exists owner name, unpack2 (split "/" repo) = Ok (owner, name)).
Proof.
  intros text kept printed Hs.
  unfold sampler in Hs.
  destruct (analyze_logs text) as [repo_info|e] eqn:Hrun;
    cbn [bind] in Hs; [|discriminate].
  destruct (analyze_logs_described text repo_info Hrun) as (Hd & _).
  pose proof Hd as (Hp & _ & _).
  pose proof (repos_with_fail_parsed repo_info Hp) as Hpop.
  set (population := map fst (filter (fun kv => fails (snd kv)) repo_info)) in *.
  rewrite Hpop in Hs. cbn [bind] in Hs. unfold _repo_samples in Hs.
  pose proof (choice_contract (length population) 100) as Hc.
  destruct (np_random_choice (length population) 100) as [samples|e];
    cbn [bind] in Hs; [|discriminate].
  destruct Hc as (_ & Hlen & Hnd & Hrange).
  rewrite (pick_from _ _ _ Hrange) in Hs. cbn [bind app] in Hs.
  set (drawn := map (fun x => nth x population "") samples) in *.
  assert (Hdrawn : forall repo, In repo drawn -> In repo population).
  { intros repo Hin. apply in_map_iff in Hin. destruct Hin as (x & <- & Hx).
    apply nth_In. rewrite Forall_forall in Hrange. now apply Hrange. }
  assert (Htotal : forall repo,
             In repo drawn ->
             exists total, latest repo_info repo "n_total" = Some total).
  { intros repo Hin.
    destruct (proj1 (population_spec repo_info repo Hp) (Hdrawn repo Hin))
      as (_ & total & _ & Ht & _).
    eauto. }
  unfold repo_samples in Hs. rewrite (repo_samples_from _ _ _ _ Htotal) in Hs.
  cbn [app] in Hs. injection Hs as <- <-.
  split; [|split].
  - rewrite (kept_and_skipped _ _ Htotal). unfold drawn.
    now rewrite length_map.
  - apply NoDup_filter. apply drawn_nodup; auto. now apply population_nodup.
  - intros repo Hin. apply filter_In in Hin. destruct Hin as (Hin & _).
    apply (described_name_unpacks _ _ _ Hd).
    apply Hdrawn in Hin. unfold population in Hin.
    apply in_map_iff in Hin. destruct Hin as (kv & <- & Hkv).
    apply filter_In in Hkv. unfold Dict.keys. apply in_map. tauto.
Qed.

End Draw.

Lemma final_sample_partition_witness :
  exists kept printed,
    sampler Examples.first_indices Examples.hundred_log = Ok (kept, printed)
    /\ length kept + length printed = 100
    /\ NoDup kept.
Proof.
  assert (Hrun : exists kept printed,
             sampler Examples.first_indices Examples.hundred_log
             = Ok (kept, printed)).
  { vm_compute. do 2 eexists. reflexivity. }
  destruct Hrun as (kept & printed & Hrun).
  destruct (final_sample_partition Examples.first_indices first_indices_contract
              _ _ _ Hrun) as (Hlen & Hnd & _).
  exists kept, printed. split; [exact Hrun|]. split; [exact Hlen | exact Hnd].
Defined.

(** X21. The comprehension of [main] compares tuples: when the latest
    [n_partial] and [n_total] samples of an [InfoDict] carry different
    timestamps, the order of the timestamps decides, whatever the values;
    with the same timestamp the values decide. *)
Theorem has_fail_compares_tuples :
  forall (info : InfoDict) p t a b,
    Dict.get "n_partial" info = Some p ->
    Dict.get "n_total" info = Some t ->
    last p = Ok a ->
    last t = Ok b ->
    (fst a <> fst b -> has_fail info = Ok (String.ltb (fst a) (fst b)))
    /\ (fst a = fst b -> has_fail info = Ok (snd a <? snd b)%Z).
Proof.
  intros info p t a b Hp Ht Ha Hb.
  unfold has_fail, Dict.getitem. rewrite Hp, Ht. cbn [bind].
  rewrite Ha, Hb. cbn [bind]. split.
  - intros Hne. unfold tuple_lt, str_lt.
    apply String.eqb_neq in Hne. now rewrite Hne.
  - intros Heq. now rewrite (tuple_lt_same_time a b Heq).
Qed.

Lemma has_fail_compares_tuples_witness :
  has_fail (info_of [("2020-01-01 12:00:00", 9%Z)] []
                    [("2020-01-02 12:00:00", 1%Z)])
  = Ok true.
Proof.
  refine (proj1 (has_fail_compares_tuples
                   (info_of [("2020-01-01 12:00:00", 9%Z)] []
                            [("2020-01-02 12:00:00", 1%Z)])
                   [("2020-01-01 12:00:00", 9%Z)]
                   [("2020-01-02 12:00:00", 1%Z)]
                   ("2020-01-01 12:00:00", 9%Z) ("2020-01-02 12:00:00", 1%Z)
                   eq_refl eq_refl eq_refl eq_refl) _).
  discriminate.
Defined.

(** X22. [all_equal] holds exactly for the lists whose elements all are
    one value; the empty list and the lists of one element are such. *)
Theorem all_equal_constant :
  forall xs : list Z,
    all_equal xs = true <-> exists v, forall x, In x xs -> x = v.
Proof.
  intros xs. rewrite all_equal_spec. split.
  - intros H. destruct xs as [|x0 xs].
    + exists 0%Z. intros x [].
    + exists x0. intros x Hx. apply H; [exact Hx | now left].
  - intros (v & Hv) x y Hx Hy. now rewrite (Hv x Hx), (Hv y Hy).
Qed.

Lemma filter_filter {A} (f : A -> bool) (l : list A) :
  filter f (filter f l) = filter f l.
Proof.
  induction l as [|x l IH]; simpl; [reflexivity|].
  destruct (f x) eqn:E; simpl; [now rewrite E, IH | exact IH].
Qed.

(** X23. On a dictionary, [changed_repos] keeps the changed
    repositories in the order of the input, and applying it again gives
    the same dictionary. *)
Theorem changed_repos_stable :
  forall repo_info : Dict.t InfoDict,
    Dict.wf repo_info ->
    Dict.items (changed_repos repo_info)
    = filter (fun kv => has_change (snd kv)) (Dict.items repo_info)
    /\ Dict.wf (changed_repos repo_info)
    /\ changed_repos (changed_repos repo_info) = changed_repos repo_info.
Proof.
  intros repo_info Hwf. rewrite (changed_repos_filter _ Hwf).
  pose proof (wf_filter (fun kv => has_change (snd kv)) _ Hwf) as Hwf'.
  split; [reflexivity|]. split; [exact Hwf'|].
  rewrite (changed_repos_filter _ Hwf'). apply filter_filter.
Qed.

Lemma changed_repos_stable_witness :
  Dict.wf Examples.series_two_repos
  /\ changed_repos (changed_repos Examples.series_two_repos)
     = [("foo/bar", Examples.info_changed)].
Proof.
  assert (Hwf : Dict.wf Examples.series_two_repos).
  { unfold Dict.wf; simpl. repeat constructor; simpl; intuition discriminate. }
  split; [exact Hwf|].
  rewrite (proj2 (proj2 (changed_repos_stable _ Hwf))).
  vm_compute. reflexivity.
Defined.

End SampleFacts.

(* ================================================================= *)
(** * The configuration check of [Database.__init__] *)

Module ConfigFacts.

Import Config.

Lemma has_key_spec {V} key (config : Dict.t V) :
  has_key key config = true <-> In key (Dict.keys config).
Proof.
  unfold has_key. destruct (Dict.get key config) as [v|] eqn:E.
  - split; [intros _ | reflexivity].
    apply DictFacts.get_some_in in E.
    change key with (fst (key, v)). now apply in_map.
  - split; [discriminate|]. intros Hin.
    now apply DictFacts.get_none_keys in E.
Qed.

(** X24. [Database.__init__] gets past its checks exactly when the
    configuration file exists and holds every key of [DBConfig]; other
    keys are allowed. When a key is absent the error names the absent
    keys of [DBConfig], all of them and no other, in the order of the
    class. *)
Theorem init_accepts :
  forall V (files : string -> option (Dict.t V)) config_file,
    (forall config,
        init files config_file = Ok config
        <-> files config_file = Some config
            /\ forall key, In key annotations -> In key (Dict.keys config))
    /\ (files config_file = None ->
        init files config_file = Raise (ValueError (not_found_msg config_file)))
    /\ (forall config,
          files config_file = Some config ->
          (exists key, In key annotations /\ ~ In key (Dict.keys config)) ->
          init files config_file
          = Raise (ValueError (missing_msg (missing_keys config) config_file))
          /\ missing_keys config
             = filter (fun key => if in_dec string_dec key (Dict.keys config)
                                  then false else true)
                      annotations).
Proof.
  intros V files config_file.
  assert (Hmiss : forall config : Dict.t V,
             missing_keys config = []
             <-> forall key, In key annotations -> In key (Dict.keys config)).
  { intros config. unfold missing_keys. split.
    - intros Hnil key Hin.
      destruct (has_key key config) eqn:E; [now apply has_key_spec|].
      assert (Hf : In key (filter (fun k => negb (has_key k config)) annotations)).
      { apply filter_In. split; [exact Hin | now rewrite E]. }
      rewrite Hnil in Hf. contradiction.
    - intros Hall.
      destruct (filter (fun k => negb (has_key k config)) annotations)
        as [|key rest] eqn:E; [reflexivity|].
      assert (Hf : In key (filter (fun k => negb (has_key k config)) annotations))
        by (rewrite E; now left).
      apply filter_In in Hf. destruct Hf as (Hin & Hneg).
      apply Hall, has_key_spec in Hin. rewrite Hin in Hneg. discriminate. }
  assert (Hlen : forall config : Dict.t V,
             (len (missing_keys config) >? 0)%Z = false
             <-> missing_keys config = []).
  { intros config. unfold len.
    destruct (missing_keys config); simpl; split; try reflexivity;
      try discriminate. }
  split; [|split].
  - intros config. unfold init. split.
    + destruct (files config_file) as [config'|]; [|discriminate].
      destruct (len (missing_keys config') >? 0)%Z eqn:E; [discriminate|].
      intros [= <-]. split; [reflexivity|]. now apply Hmiss, Hlen.
    + intros (-> & Hall). apply Hmiss, Hlen in Hall. now rewrite Hall.
  - intros Hnone. unfold init. now rewrite Hnone.
  - intros config Hsome (key & Hin & Hout). unfold init. rewrite Hsome. split.
    + destruct (len (missing_keys config) >? 0)%Z eqn:E; [reflexivity|].
      exfalso. apply (proj1 (Hlen config)) in E.
      exact (Hout (proj1 (Hmiss config) E key Hin)).
    + unfold missing_keys. apply filter_ext. intros k.
      destruct (in_dec string_dec k (Dict.keys config)) as [Hk | Hk].
      * apply has_key_spec in Hk. now rewrite Hk.
      * destruct (has_key k config) eqn:E; [|reflexivity].
        apply has_key_spec in E. contradiction.
Qed.

Lemma init_accepts_witness :
  init (Examples.files_with Examples.config_full) "./database-config.json"
  = Ok Examples.config_full
  /\ init (Examples.files_with Examples.config_partial) "./database-config.json"
     = Raise (ValueError
                "Keys ['port', 'password'] are missing from the DB config file at './database-config.json'.from Please refer to 'database-config-example.json' for the format")
  /\ init (Examples.files_with Examples.config_full) "config.json"
     = Raise (ValueError
                "DB config file not found at 'config.json'. Please refer to 'database-config-example.json' for the format").
Proof.
  split; [|split].
  - apply (proj1 (init_accepts string (Examples.files_with Examples.config_full)
                               "./database-config.json")).
    split; [reflexivity|].
    intros key Hin. simpl in Hin. simpl.
    repeat (destruct Hin as [<- | Hin]; [tauto|]). contradiction.
  - refine (proj1 (proj2 (proj2 (init_accepts string
                      (Examples.files_with Examples.config_partial)
                      "./database-config.json"))
                     Examples.config_partial eq_refl _)).
    exists "port". split; [simpl; tauto|].
    simpl. intuition discriminate.
  - apply (proj1 (proj2 (init_accepts string
                           (Examples.files_with Examples.config_full)
                           "config.json"))).
    reflexivity.
Defined.

End ConfigFacts.

(* ================================================================= *)
(** * Parsing a log in two parts *)

Module ComposeFacts.

Import DictFacts Notions LogNotions ParseFacts LogFacts.

Lemma series_in_described lines (repo_info : Dict.t InfoDict) repo tag :
  described lines repo_info ->
  In tag TAGS ->
  series_in repo_info repo tag = samples_of repo tag lines.
Proof.
  intros (_ & _ & Hdesc) Htag. unfold series_in. specialize (Hdesc repo).
  destruct (Dict.get repo repo_info) as [info|].
  - subst info. destruct Htag as [<- | [<- | [<- | []]]]; reflexivity.
  - symmetry. now apply samples_of_absent.
Qed.

Lemma returns_within_limit text :
  (exists repo_info, analyze_logs text = Ok repo_info)
  <-> counts_within_limit text.
Proof.
  split; [|apply analyze_logs_returns].
  intros (repo_info & Hrun) line m Hin Hm.
  destruct (analyze_logs_described text repo_info Hrun) as (_ & Hconv).
  exact (converts_short m (Hconv line m Hin Hm)).
Qed.

Lemma limit_concat first second :
  counts_within_limit (first ++ String newline second)
  <-> counts_within_limit first /\ counts_within_limit second.
Proof.
  unfold counts_within_limit. rewrite ScenarioFacts.split_app_sep. split.
  - intros Hall. split; intros line m Hin; apply Hall; apply in_or_app; auto.
  - intros (H1 & H2) line m Hin. apply in_app_or in Hin.
    destruct Hin as [Hin | Hin]; [now apply H1 | now apply H2].
Qed.

(** X25. Parsing two logs joined by a newline returns exactly when
    parsing each of them does, and gives then, for every repository and
    tag, the series of the first log followed by the series of the
    second. *)
Theorem analyze_logs_concat :
  forall first second,
    (forall info_both,
        analyze_logs (first ++ String newline second) = Ok info_both ->
        exists info_first info_second,
          analyze_logs first = Ok info_first
          /\ analyze_logs second = Ok info_second)
    /\ forall info_first info_second,
        analyze_logs first = Ok info_first ->
        analyze_logs second = Ok info_second ->
        exists info_both,
          analyze_logs (first ++ String newline second) = Ok info_both
          /\ forall repo tag,
              In tag TAGS ->
              series_in info_both repo tag
              = series_in info_first repo tag ++ series_in info_second repo tag.
Proof.
  intros first second. split.
  - intros r Hr.
    assert (Hlimit : counts_within_limit (first ++ String newline second))
      by (apply returns_within_limit; eauto).
    apply limit_concat in Hlimit. destruct Hlimit as (H1 & H2).
    destruct (analyze_logs_returns first H1) as (r1 & Hr1).
    destruct (analyze_logs_returns second H2) as (r2 & Hr2).
    eauto.
  - intros r1 r2 Hr1 Hr2.
    destruct (analyze_logs_returns (first ++ String newline second)) as (r & Hr).
    { apply limit_concat. split; apply returns_within_limit; eauto. }
    destruct (analyze_logs_described first r1 Hr1) as (Hd1 & _).
    destruct (analyze_logs_described second r2 Hr2) as (Hd2 & _).
    destruct (analyze_logs_described _ r Hr) as (Hd & _).
    exists r. split; [exact Hr|].
    intros repo tag Htag.
    rewrite (series_in_described _ _ _ _ Hd Htag),
      (series_in_described _ _ _ _ Hd1 Htag),
      (series_in_described _ _ _ _ Hd2 Htag).
    rewrite ScenarioFacts.split_app_sep. apply samples_of_app.
Qed.

Lemma analyze_logs_concat_witness :
  exists info_both,
    analyze_logs (Examples.log_line ++ String newline Examples.log_line)
    = Ok info_both
    /\ series_in info_both "foo/bar" "n_total"
       = [("2020-01-01 12:00:00", 5%Z); ("2020-01-01 12:00:00", 5%Z)].
Proof.
  assert (Hc : analyze_logs Examples.log_line = Ok Examples.log_line_series)
    by (vm_compute; reflexivity).
  destruct (analyze_logs_concat Examples.log_line Examples.log_line)
    as (_ & Hall).
  destruct (Hall _ _ Hc Hc) as (r & Hr & Hseries).
  exists r. split; [exact Hr|].
  rewrite (Hseries "foo/bar" "n_total"
             (or_intror (or_intror (or_introl eq_refl)))).
  reflexivity.
Defined.

End ComposeFacts.
